(** * QLever: geometry vocabulary, transitive paths, materialized views

    A shallow embedding of the parts of the engine that the specification
    makes statements about, and the proofs of those statements.

    - [File], [GeoVocabulary], [GeoSample]:
      [src/index/vocabulary/GeoVocabulary.{h,cpp}]
    - [Variables]: [src/parser/data/Variable.cpp]
    - [TransitivePath]: [src/engine/TransitivePathBase.cpp]
    - [MaterializedViews]: [src/engine/MaterializedViewsQueryAnalysis.{h,cpp}]
    - [TextIndexScanForEntity], [DeltaTriples]: code that is only visible
      through its unit tests. *)

From Stdlib Require Import ZArith NArith DecimalString.
From Stdlib Require DecimalN.
From Stdlib.Strings Require Import Byte.
From stdpp Require Import base gmap strings list fin_maps.

Open Scope N_scope.

(** ** Shared vocabulary of the embedding *)

(** The exceptions that the embedded code raises.  [AD_CONTRACT_CHECK] and
    [AD_CORRECTNESS_CHECK] carry the text of the violated condition,
    [std::runtime_error] its message; [StdOutOfRange] is the
    [std::out_of_range] of the standard library. *)
Inductive Exception :=
| ContractCheck (condition : string)
| CorrectnessCheck (condition : string)
| RuntimeError (message : string)
| FileNotFound (name : string)
| StdOutOfRange.

#[global] Instance Exception_eq_dec : EqDecision Exception.
Proof. solve_decision. Defined.

(** Fallible code returns [Fallible A]; [x ← m; k] sequences two fallible
    steps and stops at the first exception. *)
Definition Fallible (A : Type) : Type := Exception + A.
Definition throw {A} (e : Exception) : Fallible A := inl e.

#[global] Instance Fallible_ret : MRet Fallible := λ A a, inr a.
#[global] Instance Fallible_bind : MBind Fallible := λ A B k m,
  match m with
  | inl e => inl e
  | inr a => k a
  end.

#[global] Instance byte_eq_dec : EqDecision byte := Byte.byte_eq_dec.

(** [size_t] and [uint64_t] are 64 bits wide on the supported platforms. *)
Definition SIZE_WIDTH : N := 18446744073709551616.
Definition wrap64 (n : N) : N := n mod SIZE_WIDTH.
#[global] Arguments wrap64 : simpl never.

Lemma wrap64_small n : n < SIZE_WIDTH → wrap64 n = n.
Proof. apply N.mod_small. Qed.

(** [absl::StrCat] prints unsigned integers in decimal. *)
Definition decimal (n : N) : string := NilEmpty.string_of_uint (N.to_uint n).

(** [contains sub s]: [sub] occurs in [s] as a contiguous substring. *)
Definition contains (sub s : string) : Prop :=
  ∃ pre post, s = pre +:+ sub +:+ post.

Lemma append_assoc (a b c : string) : (a +:+ b) +:+ c = a +:+ b +:+ c.
Proof.
  induction a as [|x a IH]; [done|].
  change (String x ((a +:+ b) +:+ c) = String x (a +:+ b +:+ c)).
  by rewrite IH.
Qed.

(** Little-endian byte image of an unsigned integer of [n] bytes, and back. *)
Fixpoint le_bytes (n : nat) (v : N) : list byte :=
  match n with
  | O => []
  | S n' => default x00 (Byte.of_N (v mod 256)) :: le_bytes n' (v / 256)
  end.

Fixpoint le_value (bs : list byte) : N :=
  match bs with
  | [] => 0
  | b :: bs' => Byte.to_N b + 256 * le_value bs'
  end.

(** ** [ad_utility::File] *)
Module File.

(** Modelled from the spec: [util/File.h] is not among the sources.  The
    sidecar is a "random-access" file of bytes; [read(ptr, n, offset)] is a
    positional read that overwrites the front of the caller's buffer with
    the at most [n] bytes found at [offset] and leaves the rest of the
    buffer as it was. *)
Definition read (file buffer : list byte) (n : nat) (offset : N) : list byte :=
  let got := take n (drop (N.to_nat offset) file) in
  got ++ drop (length got) buffer.

(** Modelled from the spec: [write(ptr, n)] of [util/File.h], on a file
    opened with mode ["w"]: the bytes go to the end of the file. *)
Definition write (file bytes : list byte) : list byte := file ++ bytes.

(** Modelled from the spec: [open(name, "r")] of [util/File.h] over a file
    system that maps names to contents; a file that is not there cannot be
    opened. *)
Definition open (fs : gmap string (list byte)) (name : string)
  : Fallible (list byte) :=
  match fs !! name with
  | Some content => inr content
  | None => throw (FileNotFound name)
  end.

Lemma read_full file buffer n offset :
  (N.to_nat offset + n ≤ length file)%nat →
  length buffer = n →
  read file buffer n offset = take n (drop (N.to_nat offset) file).
Proof.
  intros Hlen Hbuf. unfold read.
  rewrite length_take, length_drop.
  rewrite Nat.min_l by lia.
  rewrite (drop_ge buffer) by lia. by rewrite app_nil_r.
Qed.

End File.

(** ** [GeoVocabulary]: reading the geometry-info sidecar *)
Module GeoVocabulary.
Section GeoVocabulary.

(** [ad_utility::GeometryInfo], its parser [fromWktLiteral] and the
    constant [GEOMETRY_INFO_VERSION] live in [rdfTypes/GeometryInfo.h],
    which is not among the sources.  They are parameters of the
    development: the type, its size in bytes, its object representation
    ([object_bytes], what [write(&info, sizeof info)] puts on disk) and
    [absl::bit_cast] from a buffer of that size. *)
Context {GeometryInfo : Type}.
Context (geoInfoOffset : nat).
Context (object_bytes : GeometryInfo → list byte).
Context (bit_cast : list byte → GeometryInfo).
Context (fromWktLiteral : string → option GeometryInfo).
Context (metricAreaIsValid : GeometryInfo → bool).
Context (GEOMETRY_INFO_VERSION : N).
Context (geoInfoHeader : nat).

(** The underlying vocabulary [V] is a template parameter. *)
Context {V : Type}.
Context (V_size : V → N).
Context (V_open : gmap string (list byte) → string → Fallible V).

Definition geoInfoSuffix : string := ".geoinfo".

Definition invalidGeoInfoBuffer : list byte := replicate geoInfoOffset x00.

Definition getGeoInfoFilename (filename : string) : string :=
  filename +:+ geoInfoSuffix.

Record GeoVocabulary := {
  literals_ : V;
  geoInfoFile_ : list byte;
}.

Definition size (v : GeoVocabulary) : N := V_size (literals_ v).

Definition versionMismatch (filename : string) (versionOfFile : N) : string :=
  "The geometry info version of " +:+ getGeoInfoFilename filename +:+ " is "
    +:+ decimal versionOfFile +:+ ", which is incompatible with version "
    +:+ decimal GEOMETRY_INFO_VERSION
    +:+ " as required by this version of QLever. Please rebuild your index.".

(** [GeoVocabulary<V>::open], over a file system [fs]. *)
Definition open (fs : gmap string (list byte)) (filename : string)
  : Fallible GeoVocabulary :=
  literals ← V_open fs filename;
  geoInfoFile ← File.open fs (getGeoInfoFilename filename);
  let versionOfFile :=
    le_value (File.read geoInfoFile (replicate geoInfoHeader x00)
                        geoInfoHeader 0) in
  if bool_decide (versionOfFile ≠ GEOMETRY_INFO_VERSION) then
    throw (RuntimeError (versionMismatch filename versionOfFile))
  else
    mret {| literals_ := literals; geoInfoFile_ := geoInfoFile |}.

(** What [getGeoInfo] did: its outcome, and the positional reads
    [(offset, length)] it issued on the sidecar. *)
Record Access := {
  outcome : Fallible (option GeometryInfo);
  reads : list (N * nat);
}.

(** [GeoVocabulary<V>::getGeoInfo].  [uninit] is the indeterminate content
    of the freshly allocated [buffer]. *)
Definition getGeoInfo (v : GeoVocabulary) (uninit : list byte) (index : N)
  : Access :=
  if negb (index <? size v) then
    {| outcome := throw (ContractCheck "index < size()"); reads := [] |}
  else
    let offset :=
      wrap64 (N.of_nat geoInfoHeader + wrap64 (index * N.of_nat geoInfoOffset)) in
    let buffer := File.read (geoInfoFile_ v) uninit geoInfoOffset offset in
    {| outcome :=
         if bool_decide (buffer = invalidGeoInfoBuffer) then mret None
         else mret (Some (bit_cast buffer));
       reads := [(offset, geoInfoOffset)] |}.

(** The record of index [i] in a sidecar file, as the spec lays it out:
    the [geoInfoOffset] bytes at [geoInfoHeader + i * geoInfoOffset]. *)
Definition recordAt (file : list byte) (i : N) : list byte :=
  take geoInfoOffset (drop (geoInfoHeader + N.to_nat i * geoInfoOffset) file).

(** The version word at the start of a sidecar file. *)
Definition storedVersion (file : list byte) : N :=
  le_value (take geoInfoHeader file).

(** *** [GeoVocabulary::WordWriter]: the bounded-queue pipeline

    The sources hold two drafts of the word writer.  The embedding follows
    the one with the bounded work queue, the worker threads and the writer
    thread, which is the design the spec describes; the other draft (a
    batched pipeline that is never started) is left out.

    The writer of [GeoVocabulary.cpp] runs the calling thread,
    [num_threads] workers and one writer thread.  The embedding is a
    transition system: one [Action] is one atomic step of one thread (a
    critical section of a mutex, or a single access to a variable that is
    shared without one), and a schedule is a list of actions.  A step that
    is not enabled (the thread waits on a condition variable, a mutex or a
    join) is [None]. *)

(** [mytest::WorkItem], [mytest::Result], [mytest::process]. *)
Record WorkItem := { wi_index : N; wi_data : string }.
Record Result := { r_index : N; r_output : option GeometryInfo }.

Definition process (item : WorkItem) : Result :=
  {| r_index := wi_index item; r_output := fromWktLiteral (wi_data item) |}.

(** [mytest::BoundedQueue<WorkItem>].  All three operations run under the
    queue's own mutex, and both condition variables are signalled after
    every change of the state their predicate reads, so a wait is the
    guard of the step. *)
Record BoundedQueue := {
  q : list WorkItem;
  capacity : nat;
  done : bool;
}.

Definition BoundedQueue_push (value : WorkItem) (bq : BoundedQueue)
  : option BoundedQueue :=
  if decide (length (q bq) < capacity bq)%nat then
    Some {| q := q bq ++ [value]; capacity := capacity bq; done := done bq |}
  else None.

Definition BoundedQueue_pop (bq : BoundedQueue)
  : option (option WorkItem * BoundedQueue) :=
  match q bq with
  | [] => if done bq then Some (None, bq) else None
  | value :: rest =>
      Some (Some value,
            {| q := rest; capacity := capacity bq; done := done bq |})
  end.

Definition BoundedQueue_close (bq : BoundedQueue) : BoundedQueue :=
  {| q := q bq; capacity := capacity bq; done := true |}.

(** Where the calling thread is: between two calls, inside [operator()]
    waiting in [work_queue.push], or at one of the statements of
    [finishImpl]. *)
Inductive CallerPc :=
| Idle
| Pushing (item : WorkItem)
| JoiningWorkers
| SettingDone
| NotifyingAll
| JoiningWriter
| Finished.

(** A worker: at [work_queue.pop()], holding a popped item (it computes
    [process] and then needs [result_mutex]), at [notify_one], or
    returned. *)
Inductive WorkerPc :=
| Popping
| Processing (item : WorkItem)
| NotifyingOne
| Exited.

Definition hasExited (pc : WorkerPc) : bool :=
  match pc with
  | Exited => true
  | _ => false
  end.

(** The writer thread.  It owns [result_mutex] except while it is inside
    [result_cv.wait] ([Sleeping]), while it waits to lock it
    ([Acquiring]: at thread start and after a wake-up), and after it has
    returned.  [done_processing] is written by [finishImpl] without the
    mutex, so between the evaluation of the wait predicate ([Evaluating])
    and going to sleep there is a state of its own ([Blocking]). *)
Inductive WriterPc :=
| Acquiring
| Evaluating
| Blocking
| Sleeping
| Draining
| Checking
| Returned.

(** The state of the pipeline: the calling thread ([pending] are the words
    it has still to hand over, [returned] what [operator()] has returned so
    far), the words in the underlying word writer ([stored]), the members
    of [WordWriter], and the writer thread with its local [next]. *)
Record State := {
  pending : list (string * bool);
  returned : list N;
  caller : CallerPc;
  stored : list (string * bool);
  geoInfoFile : list byte;
  numInvalidGeometries_ : N;
  numInvalidPolygonArea_ : N;
  work_queue : BoundedQueue;
  results : gmap N Result;
  done_processing : bool;
  workers : list WorkerPc;
  writer : WriterPc;
  next : N;
}.

Definition queue_capacity : nat := 1000.

(** The state the constructor leaves behind: the header is written, the
    workers and the writer thread are started. *)
Definition construct (num_threads : nat) (words : list (string * bool))
  : State :=
  {| pending := words; returned := []; caller := Idle;
     stored := [];
     geoInfoFile :=
       File.write [] (le_bytes geoInfoHeader GEOMETRY_INFO_VERSION);
     numInvalidGeometries_ := 0; numInvalidPolygonArea_ := 0;
     work_queue := {| q := []; capacity := queue_capacity; done := false |};
     results := ∅;
     done_processing := false;
     workers := replicate num_threads Popping;
     writer := Acquiring; next := 0 |}.

Definition set_caller (pc : CallerPc) (s : State) : State :=
  {| pending := pending s; returned := returned s; caller := pc;
     stored := stored s; geoInfoFile := geoInfoFile s;
     numInvalidGeometries_ := numInvalidGeometries_ s;
     numInvalidPolygonArea_ := numInvalidPolygonArea_ s;
     work_queue := work_queue s; results := results s;
     done_processing := done_processing s; workers := workers s;
     writer := writer s; next := next s |}.

Definition set_work_queue (bq : BoundedQueue) (s : State) : State :=
  {| pending := pending s; returned := returned s; caller := caller s;
     stored := stored s; geoInfoFile := geoInfoFile s;
     numInvalidGeometries_ := numInvalidGeometries_ s;
     numInvalidPolygonArea_ := numInvalidPolygonArea_ s;
     work_queue := bq; results := results s;
     done_processing := done_processing s; workers := workers s;
     writer := writer s; next := next s |}.

Definition set_results (m : gmap N Result) (s : State) : State :=
  {| pending := pending s; returned := returned s; caller := caller s;
     stored := stored s; geoInfoFile := geoInfoFile s;
     numInvalidGeometries_ := numInvalidGeometries_ s;
     numInvalidPolygonArea_ := numInvalidPolygonArea_ s;
     work_queue := work_queue s; results := m;
     done_processing := done_processing s; workers := workers s;
     writer := writer s; next := next s |}.

Definition set_done_processing (b : bool) (s : State) : State :=
  {| pending := pending s; returned := returned s; caller := caller s;
     stored := stored s; geoInfoFile := geoInfoFile s;
     numInvalidGeometries_ := numInvalidGeometries_ s;
     numInvalidPolygonArea_ := numInvalidPolygonArea_ s;
     work_queue := work_queue s; results := results s;
     done_processing := b; workers := workers s;
     writer := writer s; next := next s |}.

Definition set_worker (i : nat) (pc : WorkerPc) (s : State) : State :=
  {| pending := pending s; returned := returned s; caller := caller s;
     stored := stored s; geoInfoFile := geoInfoFile s;
     numInvalidGeometries_ := numInvalidGeometries_ s;
     numInvalidPolygonArea_ := numInvalidPolygonArea_ s;
     work_queue := work_queue s; results := results s;
     done_processing := done_processing s;
     workers := <[i := pc]> (workers s);
     writer := writer s; next := next s |}.

Definition set_writer (pc : WriterPc) (s : State) : State :=
  {| pending := pending s; returned := returned s; caller := caller s;
     stored := stored s; geoInfoFile := geoInfoFile s;
     numInvalidGeometries_ := numInvalidGeometries_ s;
     numInvalidPolygonArea_ := numInvalidPolygonArea_ s;
     work_queue := work_queue s; results := results s;
     done_processing := done_processing s; workers := workers s;
     writer := pc; next := next s |}.

(** [result_cv.notify_one()] and [notify_all()]: the writer is the only
    thread that ever waits on [result_cv]; a notification that finds it
    anywhere else is lost. *)
Definition notify (s : State) : State :=
  match writer s with
  | Sleeping => set_writer Acquiring s
  | _ => s
  end.

(** [result_mutex] is free unless the writer thread owns it. *)
Definition mutex_free (s : State) : bool :=
  match writer s with
  | Acquiring | Sleeping | Returned => true
  | Evaluating | Blocking | Draining | Checking => false
  end.

(** Modelled from the spec: the word writer of the underlying vocabulary
    is not among the sources.  The spec describes the vocabulary as an
    append-only mapping from a dense [u64] index, so the call of
    [underlyingWordWriter_] on [(word, isExternal)] appends the word and
    returns the number of words stored before it. *)
Definition underlyingWordWriter (word : string) (isExternal : bool)
    (stored : list (string * bool)) : N * list (string * bool) :=
  (wrap64 (N.of_nat (length stored)), stored ++ [(word, isExternal)]).

(** [WordWriter::operator()], first half: the word goes to the underlying
    vocabulary and gets its index. *)
Definition call_store (s : State) : option State :=
  match caller s, pending s with
  | Idle, (word, isExternal) :: rest =>
      let '(index, stored') := underlyingWordWriter word isExternal (stored s) in
      Some {| pending := rest; returned := returned s;
              caller := Pushing {| wi_index := index; wi_data := word |};
              stored := stored';
              geoInfoFile := geoInfoFile s;
              numInvalidGeometries_ := numInvalidGeometries_ s;
              numInvalidPolygonArea_ := numInvalidPolygonArea_ s;
              work_queue := work_queue s; results := results s;
              done_processing := done_processing s; workers := workers s;
              writer := writer s; next := next s |}
  | _, _ => None
  end.

(** [WordWriter::operator()], second half: [work_queue.push] gets through
    and the index is returned. *)
Definition call_push (s : State) : option State :=
  match caller s with
  | Pushing item =>
      bq ← BoundedQueue_push item (work_queue s);
      Some {| pending := pending s;
              returned := returned s ++ [wi_index item];
              caller := Idle;
              stored := stored s; geoInfoFile := geoInfoFile s;
              numInvalidGeometries_ := numInvalidGeometries_ s;
              numInvalidPolygonArea_ := numInvalidPolygonArea_ s;
              work_queue := bq; results := results s;
              done_processing := done_processing s; workers := workers s;
              writer := writer s; next := next s |}
  | _ => None
  end.

(** [WordWriter::finishImpl], statement by statement.  The caller calls it
    once every word has been handed over. *)
Definition finish_close (s : State) : option State :=
  match caller s, pending s with
  | Idle, [] =>
      Some (set_caller JoiningWorkers
              (set_work_queue (BoundedQueue_close (work_queue s)) s))
  | _, _ => None
  end.

Definition finish_join_workers (s : State) : option State :=
  match caller s with
  | JoiningWorkers =>
      if forallb hasExited (workers s)
      then Some (set_caller SettingDone s) else None
  | _ => None
  end.

Definition finish_set_done (s : State) : option State :=
  match caller s with
  | SettingDone => Some (set_caller NotifyingAll (set_done_processing true s))
  | _ => None
  end.

Definition finish_notify_all (s : State) : option State :=
  match caller s with
  | NotifyingAll => Some (set_caller JoiningWriter (notify s))
  | _ => None
  end.

(** [writer.join()] returns; [underlyingWordWriter_->finish()] and
    [geoInfoFile_.close()] do not change what is on disk. *)
Definition finish_join_writer (s : State) : option State :=
  match caller s, writer s with
  | JoiningWriter, Returned => Some (set_caller Finished s)
  | _, _ => None
  end.

(** One step of the worker lambda. *)
Definition worker_step (i : nat) (s : State) : option State :=
  pc ← workers s !! i;
  match pc with
  | Popping =>
      '(item, bq) ← BoundedQueue_pop (work_queue s);
      match item with
      | Some item => Some (set_worker i (Processing item) (set_work_queue bq s))
      | None => Some (set_worker i Exited s)
      end
  | Processing item =>
      if mutex_free s then
        let r := process item in
        Some (set_worker i NotifyingOne
                (set_results (<[r_index r := r]> (results s)) s))
      else None
  | NotifyingOne => Some (set_worker i Popping (notify s))
  | Exited => None
  end.

(** The body of [while (results.count(next))]: one record goes to disk. *)
Definition write_record (r : Result) (s : State) : State :=
  let info := r_output r in
  {| pending := pending s; returned := returned s; caller := caller s;
     stored := stored s;
     geoInfoFile :=
       File.write (geoInfoFile s)
         match info with
         | Some g => object_bytes g
         | None => invalidGeoInfoBuffer
         end;
     numInvalidGeometries_ :=
       match info with
       | Some _ => numInvalidGeometries_ s
       | None => wrap64 (numInvalidGeometries_ s + 1)
       end;
     numInvalidPolygonArea_ :=
       match info with
       | Some g =>
           if metricAreaIsValid g then numInvalidPolygonArea_ s
           else wrap64 (numInvalidPolygonArea_ s + 1)
       | None => numInvalidPolygonArea_ s
       end;
     work_queue := work_queue s;
     results := delete (next s) (results s);
     done_processing := done_processing s; workers := workers s;
     writer := writer s;
     next := wrap64 (next s + 1) |}.

(** One step of the writer lambda. *)
Definition writer_step (s : State) : option State :=
  match writer s with
  | Acquiring => Some (set_writer Evaluating s)
  | Evaluating =>
      if done_processing s || bool_decide (is_Some (results s !! next s))
      then Some (set_writer Draining s)
      else Some (set_writer Blocking s)
  | Blocking => Some (set_writer Sleeping s)
  | Sleeping => None
  | Draining =>
      match results s !! next s with
      | Some r => Some (write_record r s)
      | None => Some (set_writer Checking s)
      end
  | Checking =>
      if done_processing s && bool_decide (dom (results s) = ∅)
      then Some (set_writer Returned s)
      else Some (set_writer Evaluating s)
  | Returned => None
  end.

(** [std::condition_variable::wait] may return without a notification. *)
Definition spurious_wakeup (s : State) : option State :=
  match writer s with
  | Sleeping => Some (set_writer Acquiring s)
  | _ => None
  end.

Inductive Action :=
| CallStore
| CallPush
| FinishClose
| FinishJoinWorkers
| FinishSetDone
| FinishNotifyAll
| FinishJoinWriter
| WorkerStep (i : nat)
| WriterStep
| SpuriousWakeup.

Definition exec (a : Action) (s : State) : option State :=
  match a with
  | CallStore => call_store s
  | CallPush => call_push s
  | FinishClose => finish_close s
  | FinishJoinWorkers => finish_join_workers s
  | FinishSetDone => finish_set_done s
  | FinishNotifyAll => finish_notify_all s
  | FinishJoinWriter => finish_join_writer s
  | WorkerStep i => worker_step i s
  | WriterStep => writer_step s
  | SpuriousWakeup => spurious_wakeup s
  end.

(** A schedule is run from left to right; it is admissible when every one
    of its actions is enabled when its turn comes. *)
Fixpoint run (schedule : list Action) (s : State) : option State :=
  match schedule with
  | [] => Some s
  | a :: rest => s' ← exec a s; run rest s'
  end.

(** The record that belongs to a word. *)
Definition recordOf (word : string * bool) : list byte :=
  match fromWktLiteral word.1 with
  | Some g => object_bytes g
  | None => invalidGeoInfoBuffer
  end.

(** The words that the writer thread counts: those that do not parse, and
    those whose metric area is not valid. *)
Definition invalidWkt (word : string * bool) : bool :=
  match fromWktLiteral word.1 with
  | Some _ => false
  | None => true
  end.

Definition invalidArea (word : string * bool) : bool :=
  match fromWktLiteral word.1 with
  | Some g => negb (metricAreaIsValid g)
  | None => false
  end.

Definition countIf (f : string * bool → bool) (words : list (string * bool))
  : N :=
  N.of_nat (length (List.filter f words)).

(** The sidecar the spec asks for: the header, then one record per word in
    the order of the words. *)
Definition sidecarOf (words : list (string * bool)) : list byte :=
  le_bytes geoInfoHeader GEOMETRY_INFO_VERSION ++ concat (recordOf <$> words).

(** *** The invariant of the pipeline *)

(** The phases of [finishImpl] that matter to the other threads: the work
    queue is closed, the workers are joined, [done_processing] is set. *)
Definition closed_phase (pc : CallerPc) : bool :=
  match pc with
  | Idle | Pushing _ => false
  | _ => true
  end.

Definition joined_phase (pc : CallerPc) : bool :=
  match pc with
  | Idle | Pushing _ | JoiningWorkers => false
  | _ => true
  end.

Definition done_phase (pc : CallerPc) : bool :=
  match pc with
  | NotifyingAll | JoiningWriter | Finished => true
  | _ => false
  end.

(** A work item is on its way: in the caller's hands, in the queue or in
    the hands of a worker. *)
Definition in_flight (s : State) (item : WorkItem) : Prop :=
  caller s = Pushing item
  ∨ item ∈ q (work_queue s)
  ∨ ∃ i, workers s !! i = Some (Processing item).

(** The item carries the word that the vocabulary stores at its index. *)
Definition item_ok (s : State) (item : WorkItem) : Prop :=
  ∃ w, stored s !! N.to_nat (wi_index item) = Some w ∧ wi_data item = w.1.

Definition result_ok (s : State) (k : N) (r : Result) : Prop :=
  r_index r = k
  ∧ ∃ w, stored s !! N.to_nat k = Some w ∧ r_output r = fromWktLiteral w.1.

Definition calls_returned (s : State) : nat :=
  match caller s with
  | Pushing _ => pred (length (stored s))
  | _ => length (stored s)
  end.

Section Invariant.

Variable num_threads : nat.
Variable words : list (string * bool).

Record Inv (s : State) : Prop := {
  inv_words : stored s ++ pending s = words;
  inv_pending : closed_phase (caller s) = true → pending s = [];
  inv_workers : length (workers s) = num_threads;
  inv_closed : done (work_queue s) = closed_phase (caller s);
  inv_done : done_processing s = done_phase (caller s);
  inv_joined :
    joined_phase (caller s) = true →
    ∀ i pc, workers s !! i = Some pc → pc = Exited;
  inv_exited :
    (∃ i, workers s !! i = Some Exited) →
    q (work_queue s) = [] ∧ done (work_queue s) = true;
  inv_writer :
    writer s = Returned → done_processing s = true ∧ results s = ∅;
  inv_finished : caller s = Finished → writer s = Returned;
  inv_next : (N.to_nat (next s) ≤ length (stored s))%nat;
  inv_file : geoInfoFile s = sidecarOf (take (N.to_nat (next s)) (stored s));
  inv_items : ∀ item, in_flight s item → item_ok s item;
  inv_pushing :
    ∀ item, caller s = Pushing item →
            wi_index item = N.of_nat (pred (length (stored s)))
            ∧ (0 < length (stored s))%nat;
  inv_results : ∀ k r, results s !! k = Some r → result_ok s k r;
  inv_cover :
    ∀ k, next s ≤ k → k < N.of_nat (length (stored s)) →
         is_Some (results s !! k)
         ∨ ∃ item, in_flight s item ∧ wi_index item = k;
  inv_returned : returned s = N.of_nat <$> seq 0 (calls_returned s);
  inv_invalid :
    numInvalidGeometries_ s
    = countIf invalidWkt (take (N.to_nat (next s)) (stored s));
  inv_area :
    numInvalidPolygonArea_ s
    = countIf invalidArea (take (N.to_nat (next s)) (stored s));
}.

End Invariant.

(** *** A schedule that runs the pipeline to completion *)

(** The writer thread goes to sleep on [result_cv]. *)
Definition writer_sleeps : list Action := [WriterStep; WriterStep; WriterStep].

(** One call of [operator()], served by worker 0 and written out before
    the next call. *)
Definition feed_one : list Action :=
  [CallStore; CallPush; WorkerStep 0; WorkerStep 0; WorkerStep 0;
   WriterStep; WriterStep; WriterStep; WriterStep]
  ++ writer_sleeps.

(** [finishImpl]: every worker finds the queue closed and drained. *)
Definition finish_all (num_threads : nat) : list Action :=
  [FinishClose] ++ (WorkerStep <$> seq 0 num_threads)
  ++ [FinishJoinWorkers; FinishSetDone; FinishNotifyAll;
      WriterStep; WriterStep; WriterStep; WriterStep; FinishJoinWriter].

Definition sequential_schedule (num_threads n : nat) : list Action :=
  writer_sleeps ++ concat (replicate n feed_one) ++ finish_all num_threads.

(** The states between two calls in the sequential schedule. *)
Definition Quiet (num_threads : nat) (s : State) : Prop :=
  caller s = Idle
  ∧ work_queue s = {| q := []; capacity := queue_capacity; done := false |}
  ∧ results s = ∅
  ∧ done_processing s = false
  ∧ workers s = replicate num_threads Popping
  ∧ writer s = Sleeping
  ∧ next s = N.of_nat (length (stored s)).

(** *** Every schedule keeps the invariant *)
Section Safety.

Variable num_threads : nat.
Variable words : list (string * bool).
Hypothesis words_fit : N.of_nat (length words) < SIZE_WIDTH.

Local Abbreviation Inv := (Inv num_threads words).

Ltac open_inv HI :=
  destruct HI as [Hwords Hpending Hworkers Hclosed Hdone Hjoined Hexited
                  Hwriter Hfinished Hnext Hfile Hitems Hpushing Hresults
                  Hcover Hreturned Hinvalid Harea].

Ltac unfold_inv :=
  unfold in_flight, item_ok, result_ok, calls_returned in *; simpl in *.

Lemma construct_inv : Inv (construct num_threads words).
Proof.
  constructor; unfold in_flight; simpl; try done.
  - by rewrite length_replicate.
  - intros [i [? _]%lookup_replicate]. done.
  - unfold sidecarOf. simpl. by rewrite app_nil_r.
  - intros item [H|[H|[i [? _]%lookup_replicate]]]; simpl in *; try done.
    by apply elem_of_nil in H.
  - intros k Hk1 Hk2. simpl in *. lia.
Qed.

Lemma stored_fits s : Inv s → N.of_nat (length (stored s)) < SIZE_WIDTH.
Proof.
  intros [Hw _]. rewrite <- Hw, length_app in words_fit. lia.
Qed.

Lemma call_store_inv s s' : Inv s → call_store s = Some s' → Inv s'.
Proof.
  intros HI Hstep. pose proof (stored_fits s HI) as Hfit.
  open_inv HI. unfold call_store, underlyingWordWriter in Hstep.
  destruct (caller s) eqn:Hc; try done.
  destruct (pending s) as [|[word ext] rest] eqn:Hp; try done.
  injection Hstep as <-. rewrite wrap64_small by done.
  unfold_inv. rewrite Hc in *.
  constructor; unfold_inv; rewrite ?length_app; simpl; try done.
  - by rewrite <- app_assoc.
  - lia.
  - by rewrite take_app_le by lia.
  - intros item [H|H].
    + simplify_eq; simpl. exists (word, ext). rewrite Nat2N.id.
      split; [|done]. by apply list_lookup_middle.
    + destruct (Hitems item) as [w [Hw ?]]; [by right|].
      exists w. split; [|done]. by apply lookup_app_l_Some.
  - intros item ?; simplify_eq; simpl. split; [f_equal|]; lia.
  - intros k r H. destruct (Hresults k r H) as [? [w [? ?]]].
    split; [done|]. exists w. split; [|done]. by apply lookup_app_l_Some.
  - intros k H1 H2.
    destruct (decide (k = N.of_nat (length (stored s)))) as [->|Hne].
    + right. eexists. split; [left; reflexivity|]. done.
    + destruct (Hcover k) as [?|[item [Hf ?]]]; [done|lia|by left|].
      right. exists item. split; [|done].
      destruct Hf as [Hf|Hf]; [congruence|by right].
  - replace (pred (length (stored s) + 1)) with (length (stored s)) by lia.
    done.
  - by rewrite take_app_le by lia.
  - by rewrite take_app_le by lia.
Qed.

Lemma call_push_inv s s' : Inv s → call_push s = Some s' → Inv s'.
Proof.
  intros HI Hstep. open_inv HI. unfold call_push in Hstep.
  destruct (caller s) as [|item| | | | |] eqn:Hc; try done.
  unfold BoundedQueue_push in Hstep. case_decide; [|done].
  simpl in Hstep. injection Hstep as <-.
  unfold_inv. rewrite Hc in *.
  constructor; unfold_inv; try done.
  - intros Hex. destruct (Hexited Hex) as [_ ?]. congruence.
  - intros item' [?|[[?|Hin]%elem_of_app|?]]; try done.
    + apply Hitems; auto.
    + apply list_elem_of_singleton in Hin as ->. apply Hitems; auto.
    + apply Hitems; auto.
  - intros k H1 H2.
    destruct (Hcover k H1 H2) as [?|[item' [Hf ?]]]; [by left|].
    right. exists item'. split; [|done].
    destruct Hf as [?|[?|?]]; simplify_eq; right.
    + left. apply elem_of_app. right. by apply list_elem_of_singleton.
    + left. apply elem_of_app. by left.
    + by right.
  - destruct (Hpushing item eq_refl) as [-> Hpos].
    rewrite Hreturned.
    destruct (length (stored s)) as [|n]; [lia|].
    by rewrite seq_S, fmap_app.
Qed.

Lemma done_phase_joined pc : done_phase pc = true → joined_phase pc = true.
Proof. by destruct pc. Qed.

Lemma forallb_hasExited l :
  forallb hasExited l = true → ∀ i pc, l !! i = Some pc → pc = Exited.
Proof.
  induction l as [|x l IH]; simpl; intros H i pc Hi; [done|].
  apply andb_true_iff in H as [Hx Hl].
  destruct i as [|i]; simpl in Hi.
  - simplify_eq. by destruct pc.
  - by eapply IH.
Qed.

Lemma finish_close_inv s s' : Inv s → finish_close s = Some s' → Inv s'.
Proof.
  intros HI Hstep. open_inv HI. unfold finish_close in Hstep.
  destruct (caller s) eqn:Hc; try done.
  destruct (pending s) eqn:Hp; try done.
  injection Hstep as <-. unfold_inv. rewrite Hc in *.
  constructor; unfold_inv; try done.
  - by rewrite Hp.
  - intros Hex. by destruct (Hexited Hex) as [? _].
  - intros item [?|?]; [done|]. apply Hitems. by right.
  - intros k H1 H2.
    destruct (Hcover k H1 H2) as [?|[item [[?|?] ?]]]; [by left|done|].
    right. exists item. split; [by right|done].
Qed.

Lemma finish_join_workers_inv s s' :
  Inv s → finish_join_workers s = Some s' → Inv s'.
Proof.
  intros HI Hstep. open_inv HI. unfold finish_join_workers in Hstep.
  destruct (caller s) eqn:Hc; try done.
  destruct (forallb hasExited (workers s)) eqn:Hall; [|done].
  injection Hstep as <-. unfold_inv. rewrite Hc in *.
  constructor; unfold_inv; try done.
  - intros _. by apply forallb_hasExited.
  - intros item [?|?]; [done|]. apply Hitems. by right.
  - intros k H1 H2.
    destruct (Hcover k H1 H2) as [?|[item [[?|?] ?]]]; [by left|done|].
    right. exists item. split; [by right|done].
Qed.

Lemma finish_set_done_inv s s' :
  Inv s → finish_set_done s = Some s' → Inv s'.
Proof.
  intros HI Hstep. open_inv HI. unfold finish_set_done in Hstep.
  destruct (caller s) eqn:Hc; try done.
  injection Hstep as <-. unfold_inv. rewrite Hc in *.
  constructor; unfold_inv; try done.
  - intros Hw. by destruct (Hwriter Hw).
  - intros item [?|?]; [done|]. apply Hitems. by right.
  - intros k H1 H2.
    destruct (Hcover k H1 H2) as [?|[item [[?|?] ?]]]; [by left|done|].
    right. exists item. split; [by right|done].
Qed.

Lemma notify_fields s :
  (writer (notify s) = writer s
   ∨ writer s = Sleeping ∧ writer (notify s) = Acquiring)
  ∧ pending (notify s) = pending s ∧ returned (notify s) = returned s
  ∧ caller (notify s) = caller s ∧ stored (notify s) = stored s
  ∧ geoInfoFile (notify s) = geoInfoFile s
  ∧ work_queue (notify s) = work_queue s ∧ results (notify s) = results s
  ∧ done_processing (notify s) = done_processing s
  ∧ workers (notify s) = workers s ∧ next (notify s) = next s
  ∧ numInvalidGeometries_ (notify s) = numInvalidGeometries_ s
  ∧ numInvalidPolygonArea_ (notify s) = numInvalidPolygonArea_ s.
Proof. unfold notify. destruct (writer s) eqn:Hw; simpl; auto 14. Qed.

Lemma finish_notify_all_inv s s' :
  Inv s → finish_notify_all s = Some s' → Inv s'.
Proof.
  intros HI Hstep. open_inv HI. unfold finish_notify_all in Hstep.
  destruct (caller s) eqn:Hc; try done.
  injection Hstep as <-. unfold_inv. rewrite Hc in *.
  destruct (notify_fields s)
    as (Hn & Hn1 & Hn2 & Hn3 & Hn4 & Hn5 & Hn6 & Hn7 & Hn8 & Hn9 & Hn10
        & Hn11 & Hn12).
  constructor; unfold_inv;
    rewrite ?Hn1, ?Hn2, ?Hn3, ?Hn4, ?Hn5, ?Hn6, ?Hn7, ?Hn8, ?Hn9, ?Hn10,
      ?Hn11, ?Hn12;
    try done.
  - intros Hw. destruct Hn as [Hn|[_ Hn]]; rewrite Hn in Hw; [auto|done].
  - intros item [?|?]; [done|]. apply Hitems. by right.
  - intros k H1 H2.
    destruct (Hcover k H1 H2) as [?|[item [[?|?] ?]]]; [by left|done|].
    right. exists item. split; [by right|done].
Qed.

Lemma finish_join_writer_inv s s' :
  Inv s → finish_join_writer s = Some s' → Inv s'.
Proof.
  intros HI Hstep. open_inv HI. unfold finish_join_writer in Hstep.
  destruct (caller s) eqn:Hc; try done.
  destruct (writer s) eqn:Hw; try done.
  injection Hstep as <-. unfold_inv. rewrite Hc in *.
  constructor; unfold_inv; try done.
  - intros _. by apply Hwriter.
  - intros item [?|?]; [done|]. apply Hitems. by right.
  - intros k H1 H2.
    destruct (Hcover k H1 H2) as [?|[item [[?|?] ?]]]; [by left|done|].
    right. exists item. split; [by right|done].
Qed.

Lemma insert_lookup_inv (l : list WorkerPc) i j pc pc' :
  <[i:=pc']> l !! j = Some pc → pc = pc' ∨ i ≠ j ∧ l !! j = Some pc.
Proof.
  intros [(_ & -> & _)|[? ?]]%list_lookup_insert_Some; auto.
Qed.

Lemma insert_lookup_keep (l : list WorkerPc) i j pc0 pc pc' :
  l !! i = Some pc0 → l !! j = Some pc → pc ≠ pc0 →
  <[i:=pc']> l !! j = Some pc.
Proof.
  intros Hi Hj Hne. rewrite list_lookup_insert_ne; [done|].
  intros ->. congruence.
Qed.

Lemma worker_step_inv i s s' : Inv s → worker_step i s = Some s' → Inv s'.
Proof.
  intros HI Hstep. open_inv HI. unfold_inv. unfold worker_step in Hstep.
  destruct (workers s !! i) as [pc|] eqn:Hi; simpl in Hstep; [|done].
  destruct pc as [|item| |]; [| | |done].
  - (* work_queue.pop() *)
    unfold BoundedQueue_pop in Hstep.
    destruct (q (work_queue s)) as [|value rest] eqn:Hq.
    + (* the queue is closed and drained: the worker returns *)
      destruct (done (work_queue s)) eqn:Hd; simpl in Hstep; [|done].
      injection Hstep as <-.
      constructor; unfold_inv; rewrite ?length_insert, ?Hq, ?Hd; try done.
      * intros Hj j pc [->|[_ Hpc]]%insert_lookup_inv; eauto.
      * intros item [?|[Hin|[j [?|[_ ?]]%insert_lookup_inv]]]; try done;
          [|by apply elem_of_nil in Hin|]; apply Hitems; eauto.
      * intros k H1 H2.
        destruct (Hcover k H1 H2) as [?|[item [Hf ?]]]; [by left|].
        right. exists item. split; [|done].
        destruct Hf as [?|[Hin|[j Hj]]];
          [by left|by apply elem_of_nil in Hin|].
        right; right. exists j. by eapply insert_lookup_keep.
    + (* an item is taken from the queue *)
      simpl in Hstep. injection Hstep as <-.
      constructor; unfold_inv; rewrite ?length_insert, ?Hq; try done.
      * intros Hj j pc [->|[_ Hpc]]%insert_lookup_inv; eauto.
        pose proof (Hjoined Hj i _ Hi). done.
      * intros [j [?|[_ Hj]]%insert_lookup_inv]; [done|].
        destruct Hexited as [? _]; eauto. done.
      * intros item [?|[?|[j [?|[_ ?]]%insert_lookup_inv]]].
        -- apply Hitems; eauto.
        -- apply Hitems. right; left. by apply elem_of_cons; right.
        -- simplify_eq. apply Hitems. right; left. by apply elem_of_cons; left.
        -- apply Hitems; eauto.
      * intros k H1 H2.
        destruct (Hcover k H1 H2) as [?|[item [Hf ?]]]; [by left|].
        right. exists item. split; [|done].
        destruct Hf as [?|[[->|?]%elem_of_cons|[j Hj]]]; auto.
        -- right; right. exists i. apply list_lookup_insert_eq.
           by eapply lookup_lt_Some.
        -- right; right. exists j. by eapply insert_lookup_keep.
  - (* the result is published under result_mutex *)
    destruct (mutex_free s) eqn:Hfree; [|done].
    injection Hstep as <-.
    constructor; unfold_inv; rewrite ?length_insert; try done.
    * intros Hj j pc [->|[_ Hpc]]%insert_lookup_inv; eauto.
      pose proof (Hjoined Hj i _ Hi). done.
    * intros [j [?|[_ Hj]]%insert_lookup_inv]; [done|]. eauto.
    * intros Hw. destruct (Hwriter Hw) as [Hdp _].
      rewrite Hdone in Hdp. apply done_phase_joined in Hdp.
      pose proof (Hjoined Hdp i _ Hi). done.
    * intros item' [?|[?|[j [?|[_ ?]]%insert_lookup_inv]]]; try done;
        apply Hitems; eauto.
    * intros k r [[<- <-]|[? ?]]%lookup_insert_Some; [|eauto].
      split; [done|]. destruct (Hitems item) as [w [? ?]]; [eauto|].
      exists w. simpl. split; [done|]. by f_equal.
    * intros k H1 H2.
      destruct (decide (k = wi_index item)) as [->|Hne].
      { left. apply lookup_insert_is_Some. by left. }
      destruct (Hcover k H1 H2) as [?|[item' [Hf ?]]].
      { left. apply lookup_insert_is_Some. by right. }
      right. exists item'. split; [|done].
      destruct Hf as [?|[?|[j Hj]]]; auto.
      right; right. exists j. eapply insert_lookup_keep; eauto. congruence.
  - (* result_cv.notify_one() *)
    injection Hstep as <-.
    destruct (notify_fields s)
      as (Hn & Hn1 & Hn2 & Hn3 & Hn4 & Hn5 & Hn6 & Hn7 & Hn8 & Hn9 & Hn10
        & Hn11 & Hn12).
    constructor; unfold_inv;
      rewrite ?length_insert,
        ?Hn1, ?Hn2, ?Hn3, ?Hn4, ?Hn5, ?Hn6, ?Hn7, ?Hn8, ?Hn9, ?Hn10,
      ?Hn11, ?Hn12;
      try done.
    * intros Hj j pc [->|[_ Hpc]]%insert_lookup_inv; eauto.
      pose proof (Hjoined Hj i _ Hi). done.
    * intros [j [?|[_ Hj]]%insert_lookup_inv]; [done|]. eauto.
    * intros Hw. destruct Hn as [Hn|[_ Hn]]; rewrite Hn in Hw; [auto|done].
    * intros Hf. destruct Hn as [Hn|[Hn _]]; [rewrite Hn; auto|].
      rewrite (Hfinished Hf) in Hn. done.
    * intros item' [?|[?|[j [?|[_ ?]]%insert_lookup_inv]]]; try done;
        apply Hitems; eauto.
    * intros k H1 H2.
      destruct (Hcover k H1 H2) as [?|[item' [Hf ?]]]; [by left|].
      right. exists item'. split; [|done].
      destruct Hf as [?|[?|[j Hj]]]; auto.
      right; right. exists j. by eapply insert_lookup_keep.
Qed.

Lemma sidecarOf_snoc ws w : sidecarOf (ws ++ [w]) = sidecarOf ws ++ recordOf w.
Proof.
  unfold sidecarOf. rewrite fmap_app, concat_app. simpl.
  by rewrite app_nil_r, app_assoc.
Qed.

Lemma countIf_snoc f l w :
  countIf f (l ++ [w]) = countIf f l + (if f w then 1 else 0).
Proof.
  unfold countIf. rewrite List.filter_app, length_app. simpl.
  destruct (f w); simpl; lia.
Qed.

Lemma countIf_le f l : countIf f l ≤ N.of_nat (length l).
Proof.
  unfold countIf. pose proof (List.filter_length_le f l). lia.
Qed.

(** A step of the writer thread that only moves its program counter. *)
Lemma set_writer_inv pc s :
  Inv s → writer s ≠ Returned →
  (pc = Returned → done_processing s = true ∧ results s = ∅) →
  Inv (set_writer pc s).
Proof.
  intros HI Hw Hpc. open_inv HI.
  constructor; unfold_inv; try done.
  intros Hf. by destruct Hw; apply Hfinished.
Qed.

Lemma write_record_inv r s :
  Inv s → writer s = Draining → results s !! next s = Some r →
  Inv (write_record r s).
Proof.
  intros HI Hw Hr. pose proof (stored_fits s HI) as Hfit.
  open_inv HI. unfold_inv.
  destruct (Hresults _ _ Hr) as [Hidx [w [Hword Hout]]].
  pose proof (lookup_lt_Some _ _ _ Hword) as Hlt.
  assert (wrap64 (next s + 1) = next s + 1) as Hnext1
    by (apply wrap64_small; lia).
  constructor; unfold_inv; rewrite ?Hnext1; try done.
  - intros Hret. congruence.
  - lia.
  - replace (N.to_nat (next s + 1)) with (S (N.to_nat (next s))) by lia.
    rewrite (take_S_r _ _ _ Hword), sidecarOf_snoc, Hfile.
    unfold File.write, recordOf. by rewrite Hout.
  - intros k r' [_ ?]%lookup_delete_Some. eauto.
  - intros k H1 H2.
    destruct (Hcover k) as [?|?]; [lia|done| |by right].
    left. apply lookup_delete_is_Some. split; [lia|done].
  - replace (N.to_nat (next s + 1)) with (S (N.to_nat (next s))) by lia.
    rewrite (take_S_r _ _ _ Hword), countIf_snoc, <- Hinvalid.
    pose proof (countIf_le invalidWkt (take (N.to_nat (next s)) (stored s)))
      as Hle.
    rewrite length_take, <- Hinvalid in Hle.
    unfold invalidWkt. rewrite Hout.
    destruct (fromWktLiteral w.1); [lia|]. apply wrap64_small. lia.
  - replace (N.to_nat (next s + 1)) with (S (N.to_nat (next s))) by lia.
    rewrite (take_S_r _ _ _ Hword), countIf_snoc, <- Harea.
    pose proof (countIf_le invalidArea (take (N.to_nat (next s)) (stored s)))
      as Hle.
    rewrite length_take, <- Harea in Hle.
    unfold invalidArea. rewrite Hout.
    destruct (fromWktLiteral w.1) as [g|]; [|lia].
    destruct (metricAreaIsValid g); simpl; [lia|]. apply wrap64_small. lia.
Qed.

Lemma writer_step_inv s s' : Inv s → writer_step s = Some s' → Inv s'.
Proof.
  intros HI Hstep. unfold writer_step in Hstep.
  destruct (writer s) eqn:Hw; try done.
  - injection Hstep as <-. apply set_writer_inv; [done|congruence|done].
  - destruct (_ || _); injection Hstep as <-;
      (apply set_writer_inv; [done|congruence|done]).
  - injection Hstep as <-. apply set_writer_inv; [done|congruence|done].
  - destruct (results s !! next s) as [r|] eqn:Hr; injection Hstep as <-.
    + by apply write_record_inv.
    + apply set_writer_inv; [done|congruence|done].
  - destruct (done_processing s && _) eqn:Hexit; injection Hstep as <-.
    + apply andb_true_iff in Hexit as [Hd He].
      apply bool_decide_eq_true in He. apply dom_empty_iff_L in He.
      apply set_writer_inv; [done|congruence|done].
    + apply set_writer_inv; [done|congruence|done].
Qed.

Lemma spurious_wakeup_inv s s' :
  Inv s → spurious_wakeup s = Some s' → Inv s'.
Proof.
  intros HI Hstep. unfold spurious_wakeup in Hstep.
  destruct (writer s) eqn:Hw; try done.
  injection Hstep as <-. apply set_writer_inv; [done|congruence|done].
Qed.

Lemma exec_inv a s s' : Inv s → exec a s = Some s' → Inv s'.
Proof.
  destruct a; simpl;
    eauto using call_store_inv, call_push_inv, finish_close_inv,
      finish_join_workers_inv, finish_set_done_inv, finish_notify_all_inv,
      finish_join_writer_inv, worker_step_inv, writer_step_inv,
      spurious_wakeup_inv.
Qed.

Lemma run_inv schedule s s' : Inv s → run schedule s = Some s' → Inv s'.
Proof.
  revert s. induction schedule as [|a rest IH]; simpl; intros s HI Hrun.
  - by injection Hrun as <-.
  - destruct (exec a s) as [s1|] eqn:Hexec; simpl in Hrun; [|done].
    eauto using exec_inv.
Qed.

(** What the invariant says once [finishImpl] has returned. *)
Lemma finished_state s :
  (0 < num_threads)%nat → Inv s → caller s = Finished →
  stored s = words
  ∧ next s = N.of_nat (length words)
  ∧ geoInfoFile s = sidecarOf words
  ∧ returned s = N.of_nat <$> seq 0 (length words)
  ∧ numInvalidGeometries_ s = countIf invalidWkt words
  ∧ numInvalidPolygonArea_ s = countIf invalidArea words.
Proof.
  intros Hthreads HI Hc. open_inv HI. unfold_inv. rewrite Hc in *.
  destruct (Hwriter (Hfinished eq_refl)) as [_ Hres].
  assert (stored s = words) as Hst.
  { rewrite Hpending in Hwords by done. by rewrite app_nil_r in Hwords. }
  destruct (lookup_lt_is_Some_2 (workers s) 0) as [pc Hpc]; [lia|].
  pose proof (Hjoined eq_refl _ _ Hpc) as ->.
  destruct Hexited as [Hq _]; [eauto|].
  assert (next s = N.of_nat (length (stored s))) as Hn.
  { destruct (decide (next s < N.of_nat (length (stored s)))) as [Hlt|]; [|lia].
    destruct (Hcover (next s)) as [[r Hr]|[item [[?|[Hin|[j Hj]]] _]]];
      [lia|done| | | |].
    - by rewrite Hres, lookup_empty in Hr.
    - done.
    - rewrite Hq in Hin. by apply elem_of_nil in Hin.
    - by pose proof (Hjoined eq_refl _ _ Hj). }
  rewrite Hfile, Hreturned, Hinvalid, Harea, Hn, Nat2N.id, take_ge by lia.
  by rewrite Hst.
Qed.

End Safety.

(** *** The sequential schedule runs to completion *)
Section Completion.

Variable num_threads : nat.
Hypothesis some_thread : (0 < num_threads)%nat.

Lemma run_app l1 l2 s : run (l1 ++ l2) s = run l1 s ≫= run l2.
Proof.
  revert s. induction l1 as [|a l1 IH]; simpl; intros s; [done|].
  destruct (exec a s); simpl; auto.
Qed.

Lemma run_step a rest s s1 s2 :
  exec a s = Some s1 → run rest s1 = Some s2 → run (a :: rest) s = Some s2.
Proof. intros H1 H2. simpl. by rewrite H1. Qed.

(** The steps of the schedule, one equation each. *)
Lemma eq_call_store word ext rest ret st file nig nipa wq res dp ws wr nx :
  exec CallStore
    (Build_State ((word, ext) :: rest) ret Idle st file nig nipa wq res dp
                 ws wr nx)
  = Some (Build_State rest ret
            (Pushing {| wi_index := wrap64 (N.of_nat (length st));
                        wi_data := word |})
            (st ++ [(word, ext)]) file nig nipa wq res dp ws wr nx).
Proof. reflexivity. Qed.

Lemma eq_call_push item pend ret st file nig nipa qs cap d res dp ws wr nx :
  (length qs < cap)%nat →
  exec CallPush
    (Build_State pend ret (Pushing item) st file nig nipa
                 {| q := qs; capacity := cap; done := d |} res dp ws wr nx)
  = Some (Build_State pend (ret ++ [wi_index item]) Idle st file nig nipa
            {| q := qs ++ [item]; capacity := cap; done := d |}
            res dp ws wr nx).
Proof.
  intros Hcap. unfold exec, call_push, BoundedQueue_push.
  cbn [caller work_queue q capacity]. by rewrite decide_True by done.
Qed.

Lemma eq_pop item pend ret pc st file nig nipa qs cap d res dp ws wr nx :
  exec (WorkerStep 0)
    (Build_State pend ret pc st file nig nipa
                 {| q := item :: qs; capacity := cap; done := d |}
                 res dp (Popping :: ws) wr nx)
  = Some (Build_State pend ret pc st file nig nipa
            {| q := qs; capacity := cap; done := d |}
            res dp (Processing item :: ws) wr nx).
Proof. reflexivity. Qed.

Lemma eq_publish item pend ret pc st file nig nipa wq res dp ws nx :
  exec (WorkerStep 0)
    (Build_State pend ret pc st file nig nipa wq res dp
                 (Processing item :: ws) Sleeping nx)
  = Some (Build_State pend ret pc st file nig nipa wq
            (<[wi_index item := process item]> res) dp
            (NotifyingOne :: ws) Sleeping nx).
Proof. reflexivity. Qed.

Lemma eq_notify_one pend ret pc st file nig nipa wq res dp ws nx :
  exec (WorkerStep 0)
    (Build_State pend ret pc st file nig nipa wq res dp
                 (NotifyingOne :: ws) Sleeping nx)
  = Some (Build_State pend ret pc st file nig nipa wq res dp
            (Popping :: ws) Acquiring nx).
Proof. reflexivity. Qed.

Lemma eq_acquire pend ret pc st file nig nipa wq res dp ws nx :
  exec WriterStep
    (Build_State pend ret pc st file nig nipa wq res dp ws Acquiring nx)
  = Some (Build_State pend ret pc st file nig nipa wq res dp ws
            Evaluating nx).
Proof. reflexivity. Qed.

Lemma eq_evaluate_true pend ret pc st file nig nipa wq res dp ws nx :
  dp = true ∨ is_Some (res !! nx) →
  exec WriterStep
    (Build_State pend ret pc st file nig nipa wq res dp ws Evaluating nx)
  = Some (Build_State pend ret pc st file nig nipa wq res dp ws
            Draining nx).
Proof.
  intros H. unfold exec, writer_step.
  cbn [writer done_processing results next].
  destruct H as [->|H]; [done|].
  rewrite bool_decide_eq_true_2 by done. by rewrite orb_true_r.
Qed.

Lemma eq_evaluate_false pend ret pc st file nig nipa wq res ws nx :
  res !! nx = None →
  exec WriterStep
    (Build_State pend ret pc st file nig nipa wq res false ws Evaluating nx)
  = Some (Build_State pend ret pc st file nig nipa wq res false ws
            Blocking nx).
Proof.
  intros H. unfold exec, writer_step.
  cbn [writer done_processing results next].
  rewrite bool_decide_eq_false_2; [done|].
  rewrite H. by intros [? ?].
Qed.

Lemma eq_block pend ret pc st file nig nipa wq res dp ws nx :
  exec WriterStep
    (Build_State pend ret pc st file nig nipa wq res dp ws Blocking nx)
  = Some (Build_State pend ret pc st file nig nipa wq res dp ws
            Sleeping nx).
Proof. reflexivity. Qed.

Lemma eq_drain r pend ret pc st file nig nipa wq res dp ws nx :
  res !! nx = Some r →
  exec WriterStep
    (Build_State pend ret pc st file nig nipa wq res dp ws Draining nx)
  = Some (write_record r
            (Build_State pend ret pc st file nig nipa wq res dp ws
                         Draining nx)).
Proof.
  intros H. unfold exec, writer_step. cbn [writer results next].
  by rewrite H.
Qed.

Lemma eq_drained pend ret pc st file nig nipa wq res dp ws nx :
  res !! nx = None →
  exec WriterStep
    (Build_State pend ret pc st file nig nipa wq res dp ws Draining nx)
  = Some (Build_State pend ret pc st file nig nipa wq res dp ws
            Checking nx).
Proof.
  intros H. unfold exec, writer_step. cbn [writer results next].
  by rewrite H.
Qed.

Lemma eq_check_again pend ret pc st file nig nipa wq res ws nx :
  exec WriterStep
    (Build_State pend ret pc st file nig nipa wq res false ws Checking nx)
  = Some (Build_State pend ret pc st file nig nipa wq res false ws
            Evaluating nx).
Proof. reflexivity. Qed.

Lemma eq_check_return pend ret pc st file nig nipa wq ws nx :
  exec WriterStep
    (Build_State pend ret pc st file nig nipa wq ∅ true ws Checking nx)
  = Some (Build_State pend ret pc st file nig nipa wq ∅ true ws
            Returned nx).
Proof.
  unfold exec, writer_step. cbn [writer done_processing results].
  by rewrite dom_empty_L, bool_decide_eq_true_2.
Qed.

Lemma eq_worker_returns pend ret pc st file nig nipa cap res dp ws wr nx :
  exec (WorkerStep 0)
    (Build_State pend ret pc st file nig nipa
                 {| q := []; capacity := cap; done := true |}
                 res dp (Popping :: ws) wr nx)
  = Some (Build_State pend ret pc st file nig nipa
            {| q := []; capacity := cap; done := true |}
            res dp (Exited :: ws) wr nx).
Proof. reflexivity. Qed.

Lemma eq_finish_close ret st file nig nipa qs cap d res dp ws wr nx :
  exec FinishClose
    (Build_State [] ret Idle st file nig nipa
                 {| q := qs; capacity := cap; done := d |} res dp ws wr nx)
  = Some (Build_State [] ret JoiningWorkers st file nig nipa
            {| q := qs; capacity := cap; done := true |} res dp ws wr nx).
Proof. reflexivity. Qed.

Lemma eq_finish_join_workers pend ret st file nig nipa wq res dp ws wr nx :
  forallb hasExited ws = true →
  exec FinishJoinWorkers
    (Build_State pend ret JoiningWorkers st file nig nipa wq res dp ws wr nx)
  = Some (Build_State pend ret SettingDone st file nig nipa wq res dp ws wr nx).
Proof.
  intros Hall. unfold exec, finish_join_workers. cbn [caller workers].
  by rewrite Hall.
Qed.

Lemma eq_finish_set_done pend ret st file nig nipa wq res dp ws wr nx :
  exec FinishSetDone
    (Build_State pend ret SettingDone st file nig nipa wq res dp ws wr nx)
  = Some (Build_State pend ret NotifyingAll st file nig nipa wq res true ws
            wr nx).
Proof. reflexivity. Qed.

Lemma eq_finish_notify_all pend ret st file nig nipa wq res dp ws nx :
  exec FinishNotifyAll
    (Build_State pend ret NotifyingAll st file nig nipa wq res dp ws
                 Sleeping nx)
  = Some (Build_State pend ret JoiningWriter st file nig nipa wq res dp ws
            Acquiring nx).
Proof. reflexivity. Qed.

Lemma eq_finish_notify_lost pend ret st file nig nipa wq res dp ws wr nx :
  wr ≠ Sleeping →
  exec FinishNotifyAll
    (Build_State pend ret NotifyingAll st file nig nipa wq res dp ws wr nx)
  = Some (Build_State pend ret JoiningWriter st file nig nipa wq res dp ws
            wr nx).
Proof. by destruct wr. Qed.

Lemma eq_finish_join_writer pend ret st file nig nipa wq res dp ws nx :
  exec FinishJoinWriter
    (Build_State pend ret JoiningWriter st file nig nipa wq res dp ws
                 Returned nx)
  = Some (Build_State pend ret Finished st file nig nipa wq res dp ws
            Returned nx).
Proof. reflexivity. Qed.

Lemma feed_one_quiet s w rest :
  Quiet num_threads s → pending s = w :: rest →
  N.of_nat (length (stored s)) + 1 < SIZE_WIDTH →
  ∃ s', run feed_one s = Some s' ∧ Quiet num_threads s'
        ∧ pending s' = rest ∧ stored s' = stored s ++ [w].
Proof.
  intros HQ Hp Hfit. destruct s. unfold Quiet in HQ.
  cbn [caller work_queue results done_processing workers writer next
       stored pending] in HQ, Hp, Hfit.
  destruct HQ as (-> & -> & -> & -> & -> & -> & ->). subst.
  destruct num_threads as [|n]; [lia|]. destruct w as [word ext].
  cbn [replicate].
  eexists. split; [|split; [|split]].
  - unfold feed_one, writer_sleeps. cbn [app].
    eapply run_step; [apply eq_call_store|].
    rewrite wrap64_small by lia.
    eapply run_step;
      [apply eq_call_push; cbn [length]; unfold queue_capacity; lia|].
    eapply run_step; [apply eq_pop|].
    eapply run_step; [apply eq_publish|].
    eapply run_step; [apply eq_notify_one|].
    eapply run_step; [apply eq_acquire|].
    cbn [wi_index].
    eapply run_step;
      [apply eq_evaluate_true; right; by rewrite lookup_insert_eq|].
    eapply run_step; [apply eq_drain; by rewrite lookup_insert_eq|].
    unfold write_record.
    cbn [pending returned caller stored geoInfoFile numInvalidGeometries_
         numInvalidPolygonArea_ work_queue results done_processing
         workers writer next].
    rewrite delete_insert_eq, delete_empty.
    eapply run_step; [apply eq_drained; apply lookup_empty|].
    eapply run_step; [apply eq_check_again|].
    eapply run_step; [apply eq_evaluate_false; apply lookup_empty|].
    eapply run_step; [apply eq_block|].
    reflexivity.
  - unfold Quiet.
    cbn [caller work_queue results done_processing workers writer next
         stored].
    rewrite wrap64_small, length_app by lia.
    cbn [length replicate]. repeat split; auto. lia.
  - reflexivity.
  - reflexivity.
Qed.

Lemma writer_sleeps_quiet words :
  ∃ s, run writer_sleeps (construct num_threads words) = Some s
       ∧ Quiet num_threads s ∧ pending s = words ∧ stored s = [].
Proof.
  eexists. split; [|split; [|split]].
  - unfold writer_sleeps, construct.
    eapply run_step; [apply eq_acquire|].
    eapply run_step; [apply eq_evaluate_false; apply lookup_empty|].
    eapply run_step; [apply eq_block|].
    reflexivity.
  - unfold Quiet. cbn. repeat split; auto.
  - reflexivity.
  - reflexivity.
Qed.

Lemma feed_all_quiet words s :
  Quiet num_threads s → pending s = words →
  N.of_nat (length (stored s) + length words) < SIZE_WIDTH →
  ∃ s', run (concat (replicate (length words) feed_one)) s = Some s'
        ∧ Quiet num_threads s' ∧ pending s' = []
        ∧ stored s' = stored s ++ words.
Proof.
  revert s. induction words as [|w words IH]; intros s HQ Hp Hfit.
  - exists s. cbn [length replicate concat run]. by rewrite app_nil_r.
  - destruct (feed_one_quiet s w words HQ Hp) as (s1 & Hrun & HQ1 & Hp1 & Hs1).
    { cbn [length] in Hfit. lia. }
    destruct (IH s1 HQ1 Hp1) as (s2 & Hrun2 & HQ2 & Hp2 & Hs2).
    { rewrite Hs1, length_app. cbn [length] in *. lia. }
    exists s2. split; [|split; [done|split; [done|]]].
    + cbn [length replicate concat]. rewrite run_app, Hrun. done.
    + by rewrite Hs2, Hs1, <- app_assoc.
Qed.

(** Every worker finds the queue closed and empty and returns. *)
Lemma workers_return pend ret pc st file nig nipa cap res dp wr nx k m :
  run (WorkerStep <$> seq k m)
      (Build_State pend ret pc st file nig nipa
         {| q := []; capacity := cap; done := true |} res dp
         (replicate k Exited ++ replicate m Popping) wr nx)
  = Some (Build_State pend ret pc st file nig nipa
            {| q := []; capacity := cap; done := true |} res dp
            (replicate (k + m) Exited) wr nx).
Proof.
  revert k. induction m as [|m IH]; intros k.
  - cbn [seq fmap list_fmap replicate run].
    by rewrite app_nil_r, Nat.add_0_r.
  - cbn [seq fmap list_fmap replicate].
    eapply run_step.
    + unfold exec, worker_step. cbn [workers].
      rewrite list_lookup_middle by (by rewrite length_replicate).
      reflexivity.
    + unfold set_worker.
      cbn [pending returned caller stored geoInfoFile numInvalidGeometries_
           numInvalidPolygonArea_ work_queue results done_processing
           workers writer next].
      rewrite insert_app_r_alt by (rewrite length_replicate; lia).
      rewrite length_replicate, Nat.sub_diag. cbn [insert list_insert].
      replace (replicate k Exited ++ Exited :: replicate m Popping)
        with (replicate (S k) Exited ++ replicate m Popping).
      * rewrite IH. by replace (S k + m)%nat with (k + S m)%nat by lia.
      * rewrite replicate_S_end, <- app_assoc. done.
Qed.

Lemma forallb_hasExited_replicate n :
  forallb hasExited (replicate n Exited) = true.
Proof. induction n; simpl; auto. Qed.

Lemma finish_all_quiet s :
  Quiet num_threads s → pending s = [] →
  ∃ s', run (finish_all num_threads) s = Some s' ∧ caller s' = Finished.
Proof.
  intros HQ Hp. destruct s. unfold Quiet in HQ.
  cbn [caller work_queue results done_processing workers writer next
       stored pending] in HQ, Hp.
  destruct HQ as (-> & -> & -> & -> & -> & -> & ->). subst.
  eexists. split.
  - unfold finish_all. cbn [app].
    eapply run_step; [apply eq_finish_close|].
    rewrite run_app.
    rewrite (workers_return _ _ _ _ _ _ _ _ _ _ _ _ 0 num_threads).
    cbn [mbind option_bind Nat.add].
    eapply run_step;
      [apply eq_finish_join_workers, forallb_hasExited_replicate|].
    eapply run_step; [apply eq_finish_set_done|].
    eapply run_step; [apply eq_finish_notify_all|].
    eapply run_step; [apply eq_acquire|].
    eapply run_step; [apply eq_evaluate_true; by left|].
    eapply run_step; [apply eq_drained; apply lookup_empty|].
    eapply run_step; [apply eq_check_return|].
    eapply run_step; [apply eq_finish_join_writer|].
    reflexivity.
  - reflexivity.
Qed.

(** The sequential schedule is admissible and ends in [Finished]. *)
Lemma sequential_schedule_finishes words :
  N.of_nat (length words) < SIZE_WIDTH →
  ∃ s, run (sequential_schedule num_threads (length words))
           (construct num_threads words) = Some s
       ∧ caller s = Finished.
Proof.
  intros Hfit.
  destruct (writer_sleeps_quiet words) as (s0 & Hrun0 & HQ0 & Hp0 & Hs0).
  destruct (feed_all_quiet words s0 HQ0 Hp0) as (s1 & Hrun1 & HQ1 & Hp1 & _).
  { rewrite Hs0. cbn [length]. lia. }
  destruct (finish_all_quiet s1 HQ1 Hp1) as (s2 & Hrun2 & Hc).
  exists s2. split; [|done].
  unfold sequential_schedule. rewrite run_app, Hrun0.
  cbn [mbind option_bind]. rewrite run_app, Hrun1. done.
Qed.

End Completion.

(** *** Reading the sidecar *)

Lemma le_bytes_length n v : length (le_bytes n v) = n.
Proof. revert v. induction n; simpl; auto. Qed.

Lemma le_value_zeros l k : le_value (l ++ replicate k x00) = le_value l.
Proof.
  induction l as [|b l IH]; simpl.
  - induction k; simpl; lia.
  - by rewrite IH.
Qed.

Lemma versionOfFile_stored file :
  le_value (File.read file (replicate geoInfoHeader x00) geoInfoHeader 0)
  = storedVersion file.
Proof.
  unfold File.read, storedVersion. simpl. rewrite drop_replicate.
  apply le_value_zeros.
Qed.

Lemma contains_intro pre sub post : contains sub (pre +:+ sub +:+ post).
Proof. by exists pre, post. Qed.

(** The buffer that [getGeoInfo] reads is the record of the index, as long
    as the record is in the file. *)
Lemma getGeoInfo_buffer file uninit index :
  length uninit = geoInfoOffset →
  (geoInfoHeader + (N.to_nat index + 1) * geoInfoOffset ≤ length file)%nat →
  N.of_nat (length file) < SIZE_WIDTH →
  File.read file uninit geoInfoOffset
    (wrap64 (N.of_nat geoInfoHeader + wrap64 (index * N.of_nat geoInfoOffset)))
  = recordAt file index.
Proof.
  intros Hbuf Hlen Hfit. unfold wrap64, recordAt.
  rewrite (N.mod_small (index * _)) by nia.
  rewrite N.mod_small by nia.
  rewrite File.read_full; [|nia|done].
  do 2 f_equal. nia.
Qed.

Lemma getGeoInfo_outcome v uninit index :
  index < size v →
  length uninit = geoInfoOffset →
  (geoInfoHeader + (N.to_nat index + 1) * geoInfoOffset
   ≤ length (geoInfoFile_ v))%nat →
  N.of_nat (length (geoInfoFile_ v)) < SIZE_WIDTH →
  outcome (getGeoInfo v uninit index)
  = inr (if bool_decide (recordAt (geoInfoFile_ v) index = invalidGeoInfoBuffer)
         then None
         else Some (bit_cast (recordAt (geoInfoFile_ v) index))).
Proof.
  intros Hidx Hbuf Hlen Hfit. unfold getGeoInfo.
  apply N.ltb_lt in Hidx. rewrite Hidx. simpl.
  rewrite getGeoInfo_buffer by done. by case_bool_decide.
Qed.

(** C7: for an index below [size()], [getGeoInfo] is a function of the
    record at [geoInfoHeader + index * geoInfoOffset] alone: [None] when
    the record is all zero, the [bit_cast] of the record otherwise.  The
    content of the freshly allocated buffer, the other records and the
    vocabulary do not matter. *)
Theorem getGeoInfo_depends_on_record v uninit index :
  index < size v →
  length uninit = geoInfoOffset →
  (geoInfoHeader + (N.to_nat index + 1) * geoInfoOffset
   ≤ length (geoInfoFile_ v))%nat →
  N.of_nat (length (geoInfoFile_ v)) < SIZE_WIDTH →
  let record := recordAt (geoInfoFile_ v) index in
  (record = replicate geoInfoOffset x00 →
   outcome (getGeoInfo v uninit index) = inr None)
  ∧ (record ≠ replicate geoInfoOffset x00 →
     outcome (getGeoInfo v uninit index) = inr (Some (bit_cast record)))
  ∧ ∀ v' uninit',
      index < size v' →
      length uninit' = geoInfoOffset →
      (geoInfoHeader + (N.to_nat index + 1) * geoInfoOffset
       ≤ length (geoInfoFile_ v'))%nat →
      N.of_nat (length (geoInfoFile_ v')) < SIZE_WIDTH →
      recordAt (geoInfoFile_ v') index = record →
      outcome (getGeoInfo v' uninit' index)
      = outcome (getGeoInfo v uninit index).
Proof.
  intros Hidx Hbuf Hlen Hfit record.
  rewrite getGeoInfo_outcome by done. fold record.
  unfold invalidGeoInfoBuffer. split; [|split].
  - intros Hz. by rewrite bool_decide_eq_true_2.
  - intros Hnz. by rewrite bool_decide_eq_false_2.
  - intros v' uninit' Hidx' Hbuf' Hlen' Hfit' Hrec.
    rewrite getGeoInfo_outcome by done. by rewrite Hrec.
Qed.

(** C10: an index at or beyond [size()] fails the contract check and no
    byte of the sidecar is read; below [size()] the contract check does
    not fire and exactly the record of the index is requested. *)
Theorem getGeoInfo_contract_check v uninit index :
  (size v ≤ index →
   outcome (getGeoInfo v uninit index) = inl (ContractCheck "index < size()")
   ∧ reads (getGeoInfo v uninit index) = [])
  ∧ (index < size v →
     (∀ e, outcome (getGeoInfo v uninit index) ≠ inl e)
     ∧ reads (getGeoInfo v uninit index)
       = [(wrap64 (N.of_nat geoInfoHeader
                   + wrap64 (index * N.of_nat geoInfoOffset)),
           geoInfoOffset)]).
Proof.
  unfold getGeoInfo. split; intros Hidx.
  - apply N.ltb_ge in Hidx. by rewrite Hidx.
  - apply N.ltb_lt in Hidx. rewrite Hidx. simpl. split; [|done].
    intros e. by case_bool_decide.
Qed.

(** C8: [open] compares the version word at the start of the sidecar with
    [GEOMETRY_INFO_VERSION]; on a mismatch it throws a [runtime_error]
    whose message names both versions and asks to rebuild the index, and
    on a match it returns the opened vocabulary. *)
Theorem open_checks_version fs filename literals file :
  V_open fs filename = inr literals →
  fs !! getGeoInfoFilename filename = Some file →
  (storedVersion file ≠ GEOMETRY_INFO_VERSION →
   ∃ message,
     open fs filename = inl (RuntimeError message)
     ∧ contains (" is " +:+ decimal (storedVersion file)) message
     ∧ contains ("incompatible with version "
                 +:+ decimal GEOMETRY_INFO_VERSION) message
     ∧ contains "Please rebuild your index." message)
  ∧ (storedVersion file = GEOMETRY_INFO_VERSION →
     open fs filename
     = inr {| literals_ := literals; geoInfoFile_ := file |}).
Proof.
  intros Hlit Hfile. unfold open, File.open. rewrite Hlit, Hfile. simpl.
  rewrite versionOfFile_stored. split; intros Hv.
  - rewrite bool_decide_eq_true_2 by done.
    eexists. split; [reflexivity|]. unfold versionMismatch.
    split; [|split].
    + eexists ("The geometry info version of " +:+ getGeoInfoFilename filename),
              _.
      rewrite !append_assoc. reflexivity.
    + eexists ("The geometry info version of " +:+ getGeoInfoFilename filename
               +:+ " is " +:+ decimal (storedVersion file) +:+ ", which is "),
              _.
      rewrite !append_assoc. reflexivity.
    + eexists ("The geometry info version of " +:+ getGeoInfoFilename filename
               +:+ " is " +:+ decimal (storedVersion file)
               +:+ ", which is incompatible with version "
               +:+ decimal GEOMETRY_INFO_VERSION
               +:+ " as required by this version of QLever. "),
              "".
      rewrite !append_assoc. reflexivity.
  - rewrite bool_decide_eq_false_2 by (by intros []). done.
Qed.

(** *** The writer is correct for every schedule *)
Section WriterCorrect.

(** What [rdfTypes/GeometryInfo.h] promises about the type: an object
    occupies [geoInfoOffset] bytes, [bit_cast] inverts the object
    representation, and no object is represented by zero bytes only. *)
Hypothesis object_bytes_length :
  ∀ g, length (object_bytes g) = geoInfoOffset.
Hypothesis bit_cast_object_bytes : ∀ g, bit_cast (object_bytes g) = g.
Hypothesis object_bytes_nonzero : ∀ g, object_bytes g ≠ invalidGeoInfoBuffer.

Lemma recordOf_length w : length (recordOf w) = geoInfoOffset.
Proof.
  unfold recordOf, invalidGeoInfoBuffer.
  destruct (fromWktLiteral w.1); [done|apply length_replicate].
Qed.

Lemma concat_chunk (l : list (list byte)) n i x :
  (∀ c, c ∈ l → length c = n) → l !! i = Some x →
  take n (drop (i * n) (concat l)) = x.
Proof.
  revert i. induction l as [|c l IH]; intros i Hlen Hi; [done|].
  assert (length c = n) as Hc by (apply Hlen; by left).
  destruct i as [|i]; simpl in *.
  - simplify_eq. by apply take_app_length'.
  - rewrite (drop_app_add' c _ n (i * n)) by done.
    apply IH; [|done]. intros c' ?. apply Hlen. by right.
Qed.

Lemma concat_chunks_length (l : list (list byte)) n :
  (∀ c, c ∈ l → length c = n) → length (concat l) = (length l * n)%nat.
Proof.
  induction l as [|c l IH]; intros Hlen; [done|]. simpl.
  rewrite length_app, IH, (Hlen c); [done|by left|].
  intros c' ?. apply Hlen. by right.
Qed.

Lemma sidecarOf_length words :
  length (sidecarOf words)
  = (geoInfoHeader + length words * geoInfoOffset)%nat.
Proof.
  unfold sidecarOf.
  rewrite length_app, le_bytes_length,
    (concat_chunks_length _ geoInfoOffset), length_fmap; [done|].
  intros c (w & -> & _)%list_elem_of_fmap. apply recordOf_length.
Qed.

Lemma recordAt_sidecarOf words i w :
  words !! i = Some w → recordAt (sidecarOf words) (N.of_nat i) = recordOf w.
Proof.
  intros Hw. unfold recordAt, sidecarOf. rewrite Nat2N.id.
  rewrite drop_app_add' by (by rewrite le_bytes_length).
  apply concat_chunk.
  - intros c (w' & -> & _)%list_elem_of_fmap. apply recordOf_length.
  - by rewrite list_lookup_fmap, Hw.
Qed.

(** Reading back a record that the writer wrote. *)
Lemma getGeoInfo_sidecarOf words literals uninit i w :
  V_size literals = N.of_nat (length words) →
  length uninit = geoInfoOffset →
  N.of_nat (geoInfoHeader + length words * geoInfoOffset) < SIZE_WIDTH →
  words !! i = Some w →
  outcome (getGeoInfo {| literals_ := literals;
                         geoInfoFile_ := sidecarOf words |}
                      uninit (N.of_nat i))
  = inr (fromWktLiteral w.1).
Proof.
  intros Hsize Hbuf Hfit Hw.
  pose proof (lookup_lt_Some _ _ _ Hw) as Hi.
  rewrite getGeoInfo_outcome; simpl.
  - rewrite (recordAt_sidecarOf _ _ _ Hw). unfold recordOf.
    destruct (fromWktLiteral w.1) as [g|].
    + rewrite bool_decide_eq_false_2 by apply object_bytes_nonzero.
      by rewrite bit_cast_object_bytes.
    + by rewrite bool_decide_eq_true_2.
  - unfold size. simpl. lia.
  - done.
  - rewrite sidecarOf_length, Nat2N.id. nia.
  - by rewrite sidecarOf_length.
Qed.

(** X27: with at least one worker, whatever the schedule of the caller,
    the workers and the writer thread, once [finishImpl] has returned the
    calls of [operator()] have returned the indices [0, 1, ...] in order,
    the sidecar holds the header followed by the record of each word in
    the order of the words, the writer has counted the words that do not
    parse, and [getGeoInfo i] is [fromWktLiteral] of the [i]-th word; and
    there is a schedule on which [finishImpl] does return. *)
Theorem writer_sidecar_in_index_order
    (num_threads : nat) (words : list (string * bool))
    (literals : V) (uninit : list byte) :
  (0 < num_threads)%nat →
  N.of_nat (length words) < SIZE_WIDTH →
  N.of_nat (geoInfoHeader + length words * geoInfoOffset) < SIZE_WIDTH →
  V_size literals = N.of_nat (length words) →
  length uninit = geoInfoOffset →
  (∃ schedule s,
     run schedule (construct num_threads words) = Some s
     ∧ caller s = Finished)
  ∧ ∀ schedule s,
      run schedule (construct num_threads words) = Some s →
      caller s = Finished →
      returned s = N.of_nat <$> seq 0 (length words)
      ∧ geoInfoFile s = sidecarOf words
      ∧ numInvalidGeometries_ s = countIf invalidWkt words
      ∧ ∀ i w,
          words !! i = Some w →
          outcome (getGeoInfo {| literals_ := literals;
                                 geoInfoFile_ := geoInfoFile s |}
                              uninit (N.of_nat i))
          = inr (fromWktLiteral w.1).
Proof.
  intros Hthreads Hwords Hfile Hsize Hbuf. split.
  - destruct (sequential_schedule_finishes num_threads Hthreads words Hwords)
      as (s & Hrun & Hc).
    by exists (sequential_schedule num_threads (length words)), s.
  - intros schedule s Hrun Hc.
    pose proof (run_inv num_threads words Hwords schedule _ s
                  (construct_inv num_threads words Hwords) Hrun) as HI.
    destruct (finished_state num_threads words Hwords s Hthreads HI Hc)
      as (_ & _ & Hf & Hret & Hinvalid & _).
    split; [done|]. split; [done|]. split; [done|].
    intros i w Hw. rewrite Hf. by apply getGeoInfo_sidecarOf.
Qed.

End WriterCorrect.

(** *** More about the pipeline *)

(** The two warnings at the end of [finishImpl], in the order they are
    logged. *)
Definition finishWarnings (s : State) : list string :=
  (if 0 <? numInvalidGeometries_ s then
     ["Geometry preprocessing skipped " +:+ decimal (numInvalidGeometries_ s)
      +:+ " invalid WKT literal"
      +:+ (if numInvalidGeometries_ s =? 1 then "" else "s")]
   else [])
  ++ (if 0 <? numInvalidPolygonArea_ s then
        ["Geometry preprocessing could not compute the area for "
         +:+ decimal (numInvalidPolygonArea_ s) +:+ " malformed polygon geometr"
         +:+ (if numInvalidPolygonArea_ s =? 1 then "y" else "ies")]
      else []).

(** The work queue keeps its capacity and never holds more. *)
Definition queue_bounded (s : State) : Prop :=
  capacity (work_queue s) = queue_capacity
  ∧ (length (q (work_queue s)) ≤ queue_capacity)%nat.

Lemma exec_queue_bounded a s s' :
  queue_bounded s → exec a s = Some s' → queue_bounded s'.
Proof.
  unfold queue_bounded. intros [Hcap Hlen] Hstep.
  destruct a; simpl in Hstep.
  - unfold call_store in Hstep.
    destruct (caller s), (pending s) as [|[word ext] rest]; try done.
    by injection Hstep as <-.
  - unfold call_push, BoundedQueue_push in Hstep.
    destruct (caller s); try done.
    case_decide as Hroom; [|done]. simpl in Hstep. injection Hstep as <-.
    simpl. rewrite length_app. simpl. split; [done|]. lia.
  - unfold finish_close in Hstep.
    destruct (caller s), (pending s); try done. by injection Hstep as <-.
  - unfold finish_join_workers in Hstep.
    destruct (caller s); try done.
    destruct (forallb _ _); [|done]. by injection Hstep as <-.
  - unfold finish_set_done in Hstep.
    destruct (caller s); try done. by injection Hstep as <-.
  - unfold finish_notify_all, notify in Hstep.
    destruct (caller s); try done. injection Hstep as <-.
    by destruct (writer s).
  - unfold finish_join_writer in Hstep.
    destruct (caller s), (writer s); try done. by injection Hstep as <-.
  - unfold worker_step, BoundedQueue_pop, notify in Hstep.
    destruct (workers s !! i) as [[]|]; simpl in Hstep; try done.
    + destruct (q (work_queue s)) as [|item rest] eqn:Hq; simpl in Hstep.
      * destruct (done (work_queue s)); [|done]. simpl in Hstep.
        injection Hstep as <-. simpl. by rewrite Hq.
      * injection Hstep as <-. simpl in *. split; [done|]. lia.
    + destruct (mutex_free s); [|done]. by injection Hstep as <-.
    + injection Hstep as <-. by destruct (writer s).
  - unfold writer_step in Hstep.
    destruct (writer s); try done;
      repeat match type of Hstep with
             | context [if ?b then _ else _] => destruct b
             | context [match ?o with Some _ => _ | None => _ end] =>
                 destruct o
             end;
      by injection Hstep as <-.
  - unfold spurious_wakeup in Hstep.
    destruct (writer s); try done. by injection Hstep as <-.
Qed.

Lemma run_queue_bounded schedule s s' :
  queue_bounded s → run schedule s = Some s' → queue_bounded s'.
Proof.
  revert s. induction schedule as [|a rest IH]; simpl; intros s Hb Hrun.
  - by injection Hrun as <-.
  - destruct (exec a s) as [s1|] eqn:Hexec; simpl in Hrun; [|done].
    eauto using exec_queue_bounded.
Qed.

(** X1: Back pressure: on every schedule the work queue holds at most
    [queue_capacity] = 1000 items, and a call of [operator()] that has
    stored its word is held back in [push] exactly while the queue is
    full. *)
Theorem work_queue_bounded num_threads words schedule s :
  run schedule (construct num_threads words) = Some s →
  (length (q (work_queue s)) ≤ 1000)%nat
  ∧ ∀ item, caller s = Pushing item →
            (exec CallPush s = None ↔ length (q (work_queue s)) = 1000%nat).
Proof.
  intros Hrun.
  assert (queue_bounded s) as [Hcap Hlen].
  { eapply run_queue_bounded; [|done]. split; simpl; [done|].
    unfold queue_capacity. lia. }
  unfold queue_capacity in *. split; [done|].
  intros item Hc. simpl. unfold call_push, BoundedQueue_push.
  rewrite Hc, Hcap. case_decide; simpl; split; try done; lia.
Qed.

(** X2: The sidecar grows in index order without gaps: on every schedule and
    at every moment it is the header followed by the records of the first
    [next] words, and these words have all been handed over. *)
Theorem sidecar_is_prefix num_threads words schedule s :
  N.of_nat (length words) < SIZE_WIDTH →
  run schedule (construct num_threads words) = Some s →
  geoInfoFile s = sidecarOf (take (N.to_nat (next s)) words)
  ∧ (N.to_nat (next s) ≤ length (stored s))%nat
  ∧ stored s `prefix_of` words.
Proof.
  intros Hwords Hrun.
  pose proof (run_inv num_threads words Hwords schedule _ s
                (construct_inv num_threads words Hwords) Hrun) as HI.
  destruct HI as [Hsplit _ _ _ _ _ _ _ _ Hnext Hfile _ _ _ _ _ _ _].
  split; [|split; [done|by exists (pending s)]].
  by rewrite Hfile, <- Hsplit, take_app_le.
Qed.

(** X3: What [finishImpl] logs once the pipeline has run, on any schedule:
    the number of words that did not parse and the number of geometries
    without a valid area, each only when it is not zero, in the singular
    for exactly one. *)
Theorem finish_warnings num_threads words schedule s :
  (0 < num_threads)%nat →
  N.of_nat (length words) < SIZE_WIDTH →
  run schedule (construct num_threads words) = Some s →
  caller s = Finished →
  let invalid := countIf invalidWkt words in
  let noArea := countIf invalidArea words in
  numInvalidPolygonArea_ s = noArea
  ∧ finishWarnings s
    = (if 0 <? invalid then
         ["Geometry preprocessing skipped " +:+ decimal invalid
          +:+ " invalid WKT literal" +:+ (if invalid =? 1 then "" else "s")]
       else [])
      ++ (if 0 <? noArea then
            ["Geometry preprocessing could not compute the area for "
             +:+ decimal noArea +:+ " malformed polygon geometr"
             +:+ (if noArea =? 1 then "y" else "ies")]
          else []).
Proof.
  intros Hthreads Hwords Hrun Hc.
  pose proof (run_inv num_threads words Hwords schedule _ s
                (construct_inv num_threads words Hwords) Hrun) as HI.
  destruct (finished_state num_threads words Hwords s Hthreads HI Hc)
    as (_ & _ & _ & _ & Hinvalid & Harea).
  unfold finishWarnings. by rewrite Hinvalid, Harea.
Qed.

Lemma le_value_le_bytes n v : le_value (le_bytes n v) = v mod 256 ^ N.of_nat n.
Proof.
  revert v. induction n as [|n IH]; intros v.
  - simpl. by rewrite N.mod_1_r.
  - cbn [le_bytes le_value]. rewrite IH.
    assert (Byte.to_N (default x00 (Byte.of_N (v mod 256))) = v mod 256)
      as ->.
    { destruct (Byte.of_N (v mod 256)) as [b|] eqn:Hb.
      - by apply Byte.to_of_N.
      - pose proof (Byte.to_of_N_option_map (v mod 256)) as H.
        rewrite Hb in H. simpl in H.
        assert (v mod 256 < 256) by (apply N.mod_lt; lia).
        destruct (v mod 256 <=? 255) eqn:Hle; [done|].
        apply N.leb_gt in Hle. lia. }
    rewrite Nat2N.inj_succ, N.pow_succ_r', N.Div0.mod_mul_r. lia.
Qed.

(** X4: The header that the writer puts down is the header that [open]
    asks for: whenever the sidecar of a running or finished writer is
    opened, the version check passes (the version fits its
    [geoInfoHeader] bytes). *)
Theorem open_accepts_written_sidecar
    num_threads words schedule s fs filename literals :
  N.of_nat (length words) < SIZE_WIDTH →
  GEOMETRY_INFO_VERSION < 256 ^ N.of_nat geoInfoHeader →
  run schedule (construct num_threads words) = Some s →
  V_open fs filename = inr literals →
  fs !! getGeoInfoFilename filename = Some (geoInfoFile s) →
  open fs filename
  = inr {| literals_ := literals; geoInfoFile_ := geoInfoFile s |}.
Proof.
  intros Hwords Hversion Hrun Hlit Hfile.
  pose proof (run_inv num_threads words Hwords schedule _ s
                (construct_inv num_threads words Hwords) Hrun) as HI.
  unfold open, File.open. rewrite Hlit, Hfile. simpl.
  rewrite versionOfFile_stored, (inv_file _ _ _ HI).
  unfold storedVersion, sidecarOf.
  rewrite take_app_length' by (by rewrite le_bytes_length).
  rewrite le_value_le_bytes, N.mod_small by done.
  by rewrite bool_decide_eq_false_2 by (by intros []).
Qed.

(** The signal of [finishImpl] can be lost: [done_processing] is set and
    [result_cv] is notified while the writer thread is between the
    evaluation of its wait predicate and going to sleep.  On that
    schedule nothing but a spurious wake-up lets [writer.join()] return. *)
Remark lost_wakeup :
  ∃ schedule s,
    run schedule (construct 1 []) = Some s
    ∧ caller s = JoiningWriter ∧ writer s = Sleeping
    ∧ ∀ a, a ≠ SpuriousWakeup → exec a s = None.
Proof.
  exists [WriterStep; WriterStep; FinishClose; WorkerStep 0;
          FinishJoinWorkers; FinishSetDone; FinishNotifyAll; WriterStep].
  eexists. split; [|split; [|split]].
  - unfold construct. cbn [replicate].
    eapply run_step; [apply eq_acquire|].
    eapply run_step; [apply eq_evaluate_false; apply lookup_empty|].
    eapply run_step; [apply eq_finish_close|].
    eapply run_step; [apply eq_worker_returns|].
    eapply run_step; [by apply eq_finish_join_workers|].
    eapply run_step; [apply eq_finish_set_done|].
    eapply run_step; [by apply eq_finish_notify_lost|].
    eapply run_step; [apply eq_block|].
    reflexivity.
  - reflexivity.
  - reflexivity.
  - intros a Ha. destruct a as [| | | | | | |[|i]| |]; try done.
Qed.

(** Without a worker nothing is ever written: where
    [std::thread::hardware_concurrency()] is 0 the work item stays in the
    queue and [finishImpl] returns with a sidecar that holds the header
    only. *)
Remark no_worker_no_record w :
  ∃ schedule s,
    run schedule (construct 0 [w]) = Some s
    ∧ caller s = Finished ∧ stored s = [w] ∧ geoInfoFile s = sidecarOf [].
Proof.
  destruct w as [word ext].
  exists [CallStore; CallPush; FinishClose; FinishJoinWorkers; FinishSetDone;
          FinishNotifyAll; WriterStep; WriterStep; WriterStep; WriterStep;
          FinishJoinWriter].
  eexists. split; [|split; [|split]].
  - unfold construct. cbn [replicate].
    eapply run_step; [apply eq_call_store|].
    eapply run_step; [apply eq_call_push; unfold queue_capacity; cbn; lia|].
    eapply run_step; [apply eq_finish_close|].
    eapply run_step; [by apply eq_finish_join_workers|].
    eapply run_step; [apply eq_finish_set_done|].
    eapply run_step; [by apply eq_finish_notify_lost|].
    eapply run_step; [apply eq_acquire|].
    eapply run_step; [apply eq_evaluate_true; by left|].
    eapply run_step; [apply eq_drained; apply lookup_empty|].
    eapply run_step; [apply eq_check_return|].
    eapply run_step; [apply eq_finish_join_writer|].
    reflexivity.
  - reflexivity.
  - reflexivity.
  - unfold sidecarOf. cbn. by rewrite app_nil_r.
Qed.

(** Without a worker no result is ever published, and the writer thread
    finds nothing to write: on every schedule the sidecar stays as the
    constructor has left it. *)
Definition no_worker (s : State) : Prop :=
  workers s = [] ∧ results s = ∅
  ∧ geoInfoFile s = le_bytes geoInfoHeader GEOMETRY_INFO_VERSION.

Lemma exec_no_worker a s s' :
  no_worker s → exec a s = Some s' → no_worker s'.
Proof.
  unfold no_worker. intros (Hworkers & Hresults & Hfile) Hstep.
  destruct a; simpl in Hstep.
  - unfold call_store in Hstep.
    destruct (caller s), (pending s) as [|[word ext] rest]; try done.
    by injection Hstep as <-.
  - unfold call_push, BoundedQueue_push in Hstep.
    destruct (caller s); try done.
    case_decide as Hroom; [|done]. simpl in Hstep. by injection Hstep as <-.
  - unfold finish_close in Hstep.
    destruct (caller s), (pending s); try done. by injection Hstep as <-.
  - unfold finish_join_workers in Hstep.
    destruct (caller s); try done.
    destruct (forallb _ _); [|done]. by injection Hstep as <-.
  - unfold finish_set_done in Hstep.
    destruct (caller s); try done. by injection Hstep as <-.
  - unfold finish_notify_all, notify in Hstep.
    destruct (caller s); try done. injection Hstep as <-.
    by destruct (writer s).
  - unfold finish_join_writer in Hstep.
    destruct (caller s), (writer s); try done. by injection Hstep as <-.
  - unfold worker_step in Hstep. by rewrite Hworkers in Hstep.
  - unfold writer_step in Hstep. rewrite Hresults, lookup_empty in Hstep.
    destruct (writer s); try done;
      repeat match type of Hstep with
             | context [if ?b then _ else _] => destruct b
             end;
      by injection Hstep as <-.
  - unfold spurious_wakeup in Hstep.
    destruct (writer s); try done. by injection Hstep as <-.
Qed.

Lemma run_no_worker schedule s s' :
  no_worker s → run schedule s = Some s' → no_worker s'.
Proof.
  revert s. induction schedule as [|a rest IH]; simpl; intros s Hb Hrun.
  - by injection Hrun as <-.
  - destruct (exec a s) as [s1|] eqn:Hexec; simpl in Hrun; [|done].
    eauto using exec_no_worker.
Qed.

Lemma construct_no_worker words schedule s :
  run schedule (construct 0 words) = Some s →
  geoInfoFile s = le_bytes geoInfoHeader GEOMETRY_INFO_VERSION.
Proof.
  intros Hrun. by eapply (run_no_worker schedule (construct 0 words) s).
Qed.

End GeoVocabulary.
End GeoVocabulary.

(** ** A small instance of the geometry vocabulary

    A stand-in for [GeometryInfo] of two bytes: a type tag that is never
    zero and one byte of payload.  It serves to run the embedding on
    concrete inputs. *)
Module GeoSample.
Import GeoVocabulary.

Definition Info : Type := byte.
Definition stride : nat := 2.
Definition bytesOf (g : Info) : list byte := [x01; g].
Definition castTo (buffer : list byte) : Info := nth 1 buffer x00.
Definition parse (wkt : string) : option Info :=
  if String.prefix "POINT" wkt then Some x07 else None.
Definition areaValid (g : Info) : bool := true.
Definition version : N := 1.
Definition header : nat := 4.

Definition Vocab : Type := list string.
Definition vocabSize (v : Vocab) : N := N.of_nat (length v).
Definition vocabOpen (fs : gmap string (list byte)) (name : string)
  : Fallible Vocab :=
  inr ["POINT(1 2)"; "junk"].

Definition words : list (string * bool) :=
  [("POINT(1 2)", false); ("junk", true)].

(** The sidecar of [words]: version 1, a point, an invalid literal. *)
Definition sidecar : list byte :=
  [x01; x00; x00; x00; x01; x07; x00; x00].

Definition vocabulary : GeoVocabulary :=
  {| literals_ := ["POINT(1 2)"; "junk"] : Vocab; geoInfoFile_ := sidecar |}.

Definition disk : gmap string (list byte) :=
  {[ "geo.geoinfo" := sidecar;
     "old.geoinfo" := [x00; x00; x00; x00; x01; x07] ]}.

Example sidecarOf_words :
  sidecarOf stride bytesOf parse version header words = sidecar.
Proof. reflexivity. Qed.

Example getGeoInfo_point :
  outcome (getGeoInfo stride castTo header vocabSize vocabulary [x00; x00] 0)
  = inr (Some x07).
Proof. reflexivity. Qed.

Example getGeoInfo_invalid :
  outcome (getGeoInfo stride castTo header vocabSize vocabulary [xff; xff] 1)
  = inr None.
Proof. reflexivity. Qed.

(** Two workers that finish in the wrong order: the record of word 1 is
    published first and waits in [results] until the record of word 0 has
    been written. *)
Definition outOfOrder : list Action :=
  [WriterStep; WriterStep; WriterStep;
   CallStore; CallPush; CallStore; CallPush;
   WorkerStep 0; WorkerStep 1;
   WorkerStep 1; WorkerStep 1].

Definition inOrderAgain : list Action :=
  [WriterStep; WriterStep; WriterStep;
   WorkerStep 0; WorkerStep 0;
   WriterStep; WriterStep; WriterStep; WriterStep; WriterStep;
   WriterStep; WriterStep; WriterStep;
   FinishClose; WorkerStep 0; WorkerStep 1;
   FinishJoinWorkers; FinishSetDone; FinishNotifyAll;
   WriterStep; WriterStep; WriterStep; WriterStep; FinishJoinWriter].

Example outOfOrder_results :
  (s ← run stride bytesOf parse areaValid outOfOrder
           (construct version header 2 words);
   Some (dom (results s), geoInfoFile s, next s))
  = Some ({[ 1 ]}, [x01; x00; x00; x00], 0).
Proof. vm_compute. reflexivity. Qed.

Example outOfOrder_sidecar :
  (s ← run stride bytesOf parse areaValid (outOfOrder ++ inOrderAgain)
           (construct version header 2 words);
   Some (caller s, returned s, geoInfoFile s, numInvalidGeometries_ s))
  = Some (Finished, [0; 1], sidecar, 1).
Proof. vm_compute. reflexivity. Qed.

(** The schedule of a caller that hands over two words and finishes, with
    no worker around. *)
Definition withoutWorkers : list Action :=
  [CallStore; CallPush; CallStore; CallPush;
   FinishClose; FinishJoinWorkers; FinishSetDone; FinishNotifyAll;
   WriterStep; WriterStep; WriterStep; WriterStep; FinishJoinWriter].

(** C1 fails where [std::thread::hardware_concurrency()] is 0: no worker
    is started, [finishImpl] returns all the same, and on every schedule
    the sidecar holds the header and not a single record, so that
    [getGeoInfo 0] does not find the geometry of the first word. *)
Lemma writer_without_workers_writes_no_record :
  (∃ s,
     run stride bytesOf parse areaValid withoutWorkers
         (construct version header 0 words) = Some s
     ∧ caller s = Finished ∧ returned s = [0; 1])
  ∧ ∀ schedule s,
      run stride bytesOf parse areaValid schedule
          (construct version header 0 words) = Some s →
      geoInfoFile s = [x01; x00; x00; x00]
      ∧ geoInfoFile s ≠ sidecarOf stride bytesOf parse version header words
      ∧ outcome (getGeoInfo stride castTo header vocabSize
                   {| literals_ := ["POINT(1 2)"; "junk"] : Vocab;
                      geoInfoFile_ := geoInfoFile s |}
                   [x00; x00] 0)
        ≠ inr (parse "POINT(1 2)").
Proof.
  split.
  - eexists. split; [vm_compute; reflexivity|]. split; reflexivity.
  - intros schedule s Hrun.
    apply (construct_no_worker stride bytesOf parse areaValid version header)
      in Hrun.
    rewrite Hrun. split; [reflexivity|]. split; [discriminate|].
    vm_compute. discriminate.
Qed.

Lemma writer_sidecar_in_index_order_witness :
  (∃ schedule s,
     run stride bytesOf parse areaValid schedule
         (construct version header 2 words) = Some s
     ∧ caller s = Finished)
  ∧ ∀ schedule s,
      run stride bytesOf parse areaValid schedule
          (construct version header 2 words) = Some s →
      caller s = Finished →
      returned s = N.of_nat <$> seq 0 (length words)
      ∧ geoInfoFile s = sidecarOf stride bytesOf parse version header words
      ∧ numInvalidGeometries_ s = countIf (invalidWkt parse) words
      ∧ ∀ i w,
          words !! i = Some w →
          outcome (getGeoInfo stride castTo header vocabSize
                     {| literals_ := ["POINT(1 2)"; "junk"] : Vocab;
                        geoInfoFile_ := geoInfoFile s |}
                     [x00; x00] (N.of_nat i))
          = inr (parse w.1).
Proof.
  apply (writer_sidecar_in_index_order stride bytesOf castTo parse areaValid
           version header vocabSize).
  - intros g. reflexivity.
  - intros g. reflexivity.
  - intros g. discriminate.
  - apply Nat.lt_0_succ.
  - reflexivity.
  - reflexivity.
  - reflexivity.
  - reflexivity.
Defined.

Lemma getGeoInfo_depends_on_record_witness :
  let record := recordAt stride header sidecar 0 in
  (record = replicate stride x00 →
   outcome (getGeoInfo stride castTo header vocabSize vocabulary
                       [x00; x00] 0) = inr None)
  ∧ (record ≠ replicate stride x00 →
     outcome (getGeoInfo stride castTo header vocabSize vocabulary
                         [x00; x00] 0) = inr (Some (castTo record)))
  ∧ ∀ v' uninit',
      0 < size vocabSize v' →
      length uninit' = stride →
      (header + (N.to_nat 0 + 1) * stride ≤ length (geoInfoFile_ v'))%nat →
      N.of_nat (length (geoInfoFile_ v')) < SIZE_WIDTH →
      recordAt stride header (geoInfoFile_ v') 0 = record →
      outcome (getGeoInfo stride castTo header vocabSize v' uninit' 0)
      = outcome (getGeoInfo stride castTo header vocabSize vocabulary
                            [x00; x00] 0).
Proof.
  apply (getGeoInfo_depends_on_record stride castTo header vocabSize
           vocabulary [x00; x00] 0).
  - reflexivity.
  - reflexivity.
  - vm_compute. repeat constructor.
  - reflexivity.
Defined.

Lemma getGeoInfo_contract_check_witness :
  (outcome (getGeoInfo stride castTo header vocabSize vocabulary [x00; x00] 2)
   = inl (ContractCheck "index < size()")
   ∧ reads (getGeoInfo stride castTo header vocabSize vocabulary
                       [x00; x00] 2) = [])
  ∧ (∀ e, outcome (getGeoInfo stride castTo header vocabSize vocabulary
                              [x00; x00] 1) ≠ inl e)
  ∧ reads (getGeoInfo stride castTo header vocabSize vocabulary [x00; x00] 1)
    = [(6, stride)].
Proof.
  split.
  - apply (proj1 (getGeoInfo_contract_check stride castTo header vocabSize
                    vocabulary [x00; x00] 2)).
    discriminate.
  - apply (proj2 (getGeoInfo_contract_check stride castTo header vocabSize
                    vocabulary [x00; x00] 1)).
    reflexivity.
Defined.

Lemma open_checks_version_witness :
  (∃ message,
     open version header vocabOpen disk "old" = inl (RuntimeError message)
     ∧ contains " is 0" message
     ∧ contains "incompatible with version 1" message
     ∧ contains "Please rebuild your index." message)
  ∧ open version header vocabOpen disk "geo"
    = inr {| literals_ := ["POINT(1 2)"; "junk"] : Vocab;
             geoInfoFile_ := sidecar |}.
Proof.
  split.
  - apply (proj1 (open_checks_version version header vocabOpen disk "old"
                    ["POINT(1 2)"; "junk"] [x00; x00; x00; x00; x01; x07]
                    eq_refl eq_refl)).
    discriminate.
  - apply (proj2 (open_checks_version version header vocabOpen disk "geo"
                    ["POINT(1 2)"; "junk"] sidecar eq_refl eq_refl)).
    reflexivity.
Defined.


(** A caller that has stored the first word and is about to push it. *)
Lemma work_queue_bounded_witness :
  ∃ s,
    run stride bytesOf parse areaValid [CallStore]
        (construct version header 2 words) = Some s
    ∧ (length (q (work_queue s)) ≤ 1000)%nat
    ∧ ∀ item,
        caller s = Pushing item →
        (exec stride bytesOf parse areaValid CallPush s = None
         ↔ length (q (work_queue s)) = 1000%nat).
Proof.
  eexists. split; [vm_compute; reflexivity|].
  apply (work_queue_bounded stride bytesOf parse areaValid version header 2
           words [CallStore]).
  vm_compute. reflexivity.
Defined.

(** Both words are stored, and the record of word 0 has reached the
    file while the one of word 1 has not. *)
Definition firstWritten : list Action :=
  outOfOrder
  ++ [WriterStep; WriterStep; WriterStep; WorkerStep 0; WorkerStep 0;
      WriterStep; WriterStep; WriterStep].

Lemma sidecar_is_prefix_witness :
  ∃ s,
    run stride bytesOf parse areaValid firstWritten
        (construct version header 2 words) = Some s
    ∧ geoInfoFile s
      = sidecarOf stride bytesOf parse version header
          (take (N.to_nat (next s)) words)
    ∧ (N.to_nat (next s) ≤ length (stored s))%nat
    ∧ stored s `prefix_of` words.
Proof.
  eexists. split; [vm_compute; reflexivity|].
  apply (sidecar_is_prefix stride bytesOf parse areaValid version header 2
           words firstWritten).
  - reflexivity.
  - vm_compute. reflexivity.
Defined.

Lemma finish_warnings_witness :
  ∃ s,
    run stride bytesOf parse areaValid (outOfOrder ++ inOrderAgain)
        (construct version header 2 words) = Some s
    ∧ numInvalidPolygonArea_ s = 0
    ∧ finishWarnings s
      = ["Geometry preprocessing skipped 1 invalid WKT literal"].
Proof.
  eexists. split; [vm_compute; reflexivity|].
  apply (finish_warnings stride bytesOf parse areaValid version header 2
           words (outOfOrder ++ inOrderAgain)).
  - apply Nat.lt_0_succ.
  - reflexivity.
  - vm_compute. reflexivity.
  - reflexivity.
Defined.

Lemma open_accepts_written_sidecar_witness :
  ∃ s,
    run stride bytesOf parse areaValid (outOfOrder ++ inOrderAgain)
        (construct version header 2 words) = Some s
    ∧ open version header vocabOpen disk "geo"
      = inr {| literals_ := ["POINT(1 2)"; "junk"] : Vocab;
               geoInfoFile_ := geoInfoFile s |}.
Proof.
  eexists. split; [vm_compute; reflexivity|].
  apply (open_accepts_written_sidecar stride bytesOf parse areaValid version
           header vocabOpen 2 words (outOfOrder ++ inOrderAgain)).
  - reflexivity.
  - reflexivity.
  - vm_compute. reflexivity.
  - reflexivity.
  - reflexivity.
Defined.

End GeoSample.

(** ** SPARQL variables, [src/parser/data/Variable.cpp] *)

(** [Variable]: a name that starts with [?]. *)
Record SparqlVariable := { _name : string }.

#[global] Instance SparqlVariable_eq_dec : EqDecision SparqlVariable.
Proof. solve_decision. Defined.

#[global] Instance SparqlVariable_countable : Countable SparqlVariable.
Proof.
  apply (inj_countable' _name (λ n, {| _name := n |})). by intros [].
Defined.

Module Variables.

(** [Variable::Variable] with the expensive checks disabled: the first
    character of the name is overwritten by [?].  The engine makes its
    variables from names that are not empty; for the empty name the write
    is outside the string, and the name stays empty here. *)
Definition mkVariable (name : string) : SparqlVariable :=
  {| _name :=
       match name with
       | String _ rest => String (Ascii.ascii_of_nat 63) rest
       | EmptyString => EmptyString
       end |}.

(** [name().substr(1)]: the name from its second character on.  On the
    empty name the position 1 is behind the end, and [std::string::substr]
    throws [std::out_of_range]. *)
Definition substr1 (s : string) : Fallible string :=
  match s with
  | String _ rest => mret rest
  | EmptyString => throw StdOutOfRange
  end.

(** [isalpha] in the "C" locale. *)
Definition isalpha (c : Ascii.ascii) : bool :=
  let n := Ascii.N_of_ascii c in
  ((65 <=? n) && (n <=? 90)) || ((97 <=? n) && (n <=? 122)).

(** A string literal of the knowledge graph, with its quotes. *)
Definition quoted (s : string) : string :=
  String (Ascii.ascii_of_nat 34) (s +:+ String (Ascii.ascii_of_nat 34) "").

(** [SCORE_VARIABLE_PREFIX] of [global/Constants.h], as the variable names
    in [TextIndexScanForEntityTest.cpp] show it. *)
Definition SCORE_VARIABLE_PREFIX : string := "?ql_score_".

(** [std::string_view::remove_suffix(1)]; on an empty view the behaviour
    is undefined, which is [None]. *)
Fixpoint remove_suffix1 (word : string) : option string :=
  match word with
  | EmptyString => None
  | String c EmptyString => Some EmptyString
  | String c rest => String c <$> remove_suffix1 rest
  end.

Fixpoint forall_chars (P : Ascii.ascii → bool) (s : string) : bool :=
  match s with
  | EmptyString => true
  | String c rest => P c && forall_chars P rest
  end.

Definition isdigit (c : Ascii.ascii) : bool :=
  let n := Ascii.N_of_ascii c in (48 <=? n) && (n <=? 57).

Definition underscore : Ascii.ascii := Ascii.ascii_of_nat 95.
Definition minus : Ascii.ascii := Ascii.ascii_of_nat 45.

Definition isascii (c : Ascii.ascii) : bool := Ascii.N_of_ascii c <? 128.

(** The characters of a variable name that the escaping produces. *)
Definition isalnum_ (c : Ascii.ascii) : bool :=
  isalpha c || isdigit c || bool_decide (c = underscore).

Section Escaping.

(** Whether plain [char] is signed is up to the platform: it is on
    x86-64 and it is not on 64-bit ARM Linux, and the engine is built for
    both. *)
Variable char_is_signed : bool.

(** [std::to_string(c)] for a [char]: the character is promoted to [int],
    so that a byte above 127 is printed as a negative number where [char]
    is signed and as itself where it is not. *)
Definition to_string_char (c : Ascii.ascii) : string :=
  let n := Ascii.N_of_ascii c in
  if char_is_signed && (128 <=? n) then "-" +:+ decimal (256 - n)
  else decimal n.

(** [Variable::appendEscapedWord]. *)
Fixpoint appendEscapedWord (word target : string) : string :=
  match word with
  | EmptyString => target
  | String c rest =>
      appendEscapedWord rest
        (if isalpha c then target +:+ String c EmptyString
         else target +:+ "_" +:+ to_string_char c +:+ "_")
  end.

(** [Variable::getEntityScoreVariable]. *)
Definition getEntityScoreVariable (this : SparqlVariable)
    (varOrEntity : SparqlVariable + string) : Fallible SparqlVariable :=
  '(type, entity) ←
    match varOrEntity with
    | inl var => entity ← substr1 (_name var); mret ("_var_", entity)
    | inr fixedEntity =>
        mret ("_fixedEntity_", appendEscapedWord fixedEntity "")
    end;
  name ← substr1 (_name this);
  mret (mkVariable (SCORE_VARIABLE_PREFIX +:+ name +:+ type +:+ entity)).

(** [Variable::getWordScoreVariable].  [None] is the undefined behaviour
    of [remove_suffix]; it comes before [name().substr(1)] is reached. *)
Definition getWordScoreVariable (this : SparqlVariable) (word : string)
    (isPrefix : bool) : option (Fallible SparqlVariable) :=
  '(word, type) ←
    (if isPrefix then word' ← remove_suffix1 word; Some (word', "prefix_")
     else Some (word, "word_"));
  let convertedWord := appendEscapedWord word "_" in
  Some (name ← substr1 (_name this);
        mret (mkVariable (SCORE_VARIABLE_PREFIX +:+ type +:+ name
                          +:+ convertedWord))).

(** [MATCHINGWORD_VARIABLE_PREFIX] of [global/Constants.h]. *)
Variable MATCHINGWORD_VARIABLE_PREFIX : string.

(** [Variable::getMatchingWordVariable]. *)
Definition getMatchingWordVariable (this : SparqlVariable) (term : string)
  : Fallible SparqlVariable :=
  name ← substr1 (_name this);
  mret (mkVariable (MATCHINGWORD_VARIABLE_PREFIX +:+ name +:+ "_" +:+ term)).

(** What [appendEscapedWord] appends for one character. *)
Definition escaped (c : Ascii.ascii) : string :=
  if isalpha c then String c EmptyString
  else "_" +:+ to_string_char c +:+ "_".

Lemma forall_chars_app P s t :
  forall_chars P (s +:+ t) = forall_chars P s && forall_chars P t.
Proof.
  induction s as [|c s IH]; [done|].
  change (P c && forall_chars P (s +:+ t)
          = P c && forall_chars P s && forall_chars P t).
  by rewrite IH, andb_assoc.
Qed.

Lemma forall_chars_impl (P Q : Ascii.ascii → bool) s :
  (∀ c, P c = true → Q c = true) →
  forall_chars P s = true → forall_chars Q s = true.
Proof.
  intros HPQ. induction s as [|c s IH]; [done|]. simpl.
  rewrite !andb_true_iff. intros [??]. auto.
Qed.

Lemma string_of_uint_digits d :
  forall_chars isdigit (NilEmpty.string_of_uint d) = true.
Proof. induction d; simpl; auto. Qed.

Lemma decimal_digits n : forall_chars isdigit (decimal n) = true.
Proof. apply string_of_uint_digits. Qed.

Lemma decimal_inj n m : decimal n = decimal m → n = m.
Proof.
  unfold decimal. intros H. apply DecimalN.Unsigned.to_uint_inj.
  assert (Some (N.to_uint n) = Some (N.to_uint m)) as [= ->]; [|done].
  by rewrite <- !NilEmpty.usu, H.
Qed.

Lemma append_nil_r (s : string) : s +:+ "" = s.
Proof.
  induction s as [|c s IH]; [done|].
  change (String c (s +:+ "") = String c s). by rewrite IH.
Qed.

Lemma append_cons c (s t : string) : String c s +:+ t = String c (s +:+ t).
Proof. done. Qed.

(** [appendEscapedWord] only appends, one character after the other. *)
Lemma appendEscapedWord_cons c word target :
  appendEscapedWord (String c word) target
  = appendEscapedWord word (target +:+ escaped c).
Proof. unfold escaped. simpl. by destruct (isalpha c). Qed.

Lemma appendEscapedWord_target word target :
  appendEscapedWord word target = target +:+ appendEscapedWord word "".
Proof.
  revert target. induction word as [|c word IH]; intros target.
  - simpl. by rewrite append_nil_r.
  - rewrite !appendEscapedWord_cons, IH, (IH ("" +:+ escaped c)).
    by rewrite append_assoc.
Qed.

Lemma appendEscapedWord_escaped c word :
  appendEscapedWord (String c word) "" = escaped c +:+ appendEscapedWord word "".
Proof. by rewrite appendEscapedWord_cons, appendEscapedWord_target. Qed.

Lemma to_string_char_chars c :
  forall_chars (λ x, isdigit x || bool_decide (x = minus)) (to_string_char c)
  = true.
Proof.
  unfold to_string_char. destruct (_ && _).
  - change (forall_chars (λ x, isdigit x || bool_decide (x = minus))
              (decimal (256 - Ascii.N_of_ascii c)) = true).
    eapply forall_chars_impl; [|apply decimal_digits].
    intros x ->. done.
  - eapply forall_chars_impl; [|apply decimal_digits].
    intros x ->. done.
Qed.

Lemma to_string_char_ascii c :
  isascii c = true → forall_chars isdigit (to_string_char c) = true.
Proof.
  unfold isascii, to_string_char. intros Hc%N.ltb_lt.
  rewrite (proj2 (N.leb_gt _ _) Hc), andb_false_r. apply decimal_digits.
Qed.

Lemma to_string_char_inj c1 c2 :
  to_string_char c1 = to_string_char c2 → c1 = c2.
Proof.
  unfold to_string_char. intros H.
  rewrite <- (Ascii.ascii_N_embedding c1), <- (Ascii.ascii_N_embedding c2).
  f_equal.
  pose proof (Ascii.N_ascii_bounded c1) as Hb1.
  pose proof (Ascii.N_ascii_bounded c2) as Hb2.
  destruct (char_is_signed && (128 <=? Ascii.N_of_ascii c1)) eqn:H1,
           (char_is_signed && (128 <=? Ascii.N_of_ascii c2)) eqn:H2.
  - injection H as H. apply decimal_inj in H.
    apply andb_true_iff in H1 as [_ H1%N.leb_le].
    apply andb_true_iff in H2 as [_ H2%N.leb_le]. lia.
  - pose proof (decimal_digits (Ascii.N_of_ascii c2)) as Hd.
    rewrite <- H in Hd. done.
  - pose proof (decimal_digits (Ascii.N_of_ascii c1)) as Hd.
    rewrite H in Hd. done.
  - by apply decimal_inj.
Qed.

(** A string is cut in one way only at the first occurrence of a
    separator. *)
Lemma cut_unique sep (t1 t2 r1 r2 : string) :
  forall_chars (λ x, negb (bool_decide (x = sep))) t1 = true →
  forall_chars (λ x, negb (bool_decide (x = sep))) t2 = true →
  t1 +:+ String sep r1 = t2 +:+ String sep r2 → t1 = t2 ∧ r1 = r2.
Proof.
  revert t2. induction t1 as [|c t1 IH]; intros [|d t2]; simpl.
  - intros _ _ [= ->]. done.
  - rewrite andb_true_iff, negb_true_iff, bool_decide_eq_false.
    intros _ [Hd _] [= <- _]. done.
  - rewrite andb_true_iff, negb_true_iff, bool_decide_eq_false.
    intros [Hc _] _ [= -> _]. done.
  - rewrite !andb_true_iff. intros [_ H1] [_ H2] [= -> H].
    destruct (IH _ H1 H2 H) as [-> ->]. done.
Qed.

Lemma to_string_char_no_underscore c :
  forall_chars (λ x, negb (bool_decide (x = underscore))) (to_string_char c)
  = true.
Proof.
  eapply forall_chars_impl; [|apply to_string_char_chars].
  intros x Hx. apply negb_true_iff, bool_decide_eq_false. intros ->. done.
Qed.

Lemma escaped_inj c1 c2 r1 r2 :
  escaped c1 +:+ r1 = escaped c2 +:+ r2 → c1 = c2 ∧ r1 = r2.
Proof.
  unfold escaped.
  destruct (isalpha c1) eqn:H1, (isalpha c2) eqn:H2.
  - intros H. change (String c1 r1 = String c2 r2) in H.
    by injection H as -> ->.
  - intros [= -> _]. done.
  - intros [= <- _]. done.
  - rewrite (append_assoc "_" _ r1), (append_assoc "_" _ r2),
      (append_assoc (to_string_char c1)), (append_assoc (to_string_char c2)).
    change (String underscore (to_string_char c1 +:+ String underscore r1)
            = String underscore (to_string_char c2 +:+ String underscore r2)
            → c1 = c2 ∧ r1 = r2).
    intros [= H].
    apply cut_unique in H as [H ->];
      [|apply to_string_char_no_underscore..].
    by apply to_string_char_inj in H as ->.
Qed.

Lemma appendEscapedWord_inj w1 w2 :
  appendEscapedWord w1 "" = appendEscapedWord w2 "" → w1 = w2.
Proof.
  revert w2. induction w1 as [|c1 w1 IH]; intros [|c2 w2].
  - done.
  - rewrite appendEscapedWord_escaped. unfold escaped.
    destruct (isalpha c2); done.
  - rewrite appendEscapedWord_escaped. unfold escaped.
    destruct (isalpha c1); done.
  - rewrite !appendEscapedWord_escaped.
    intros [-> H]%escaped_inj. by rewrite (IH _ H).
Qed.

Lemma mkVariable_score rest :
  mkVariable (SCORE_VARIABLE_PREFIX +:+ rest)
  = {| _name := SCORE_VARIABLE_PREFIX +:+ rest |}.
Proof. done. Qed.

Lemma score_name_inj r1 r2 :
  mkVariable (SCORE_VARIABLE_PREFIX +:+ r1)
  = mkVariable (SCORE_VARIABLE_PREFIX +:+ r2) → r1 = r2.
Proof.
  rewrite !mkVariable_score. intros [= H]. by apply String.app_inj in H.
Qed.

Lemma substr1_inr s rest : substr1 s = inr rest ↔ ∃ c, s = String c rest.
Proof.
  destruct s as [|c s]; simpl.
  - split; [done|]. by intros [c ?].
  - split; [intros [= ->]; by exists c|]. by intros [d [= _ ->]].
Qed.

Lemma substr1_inl s e : substr1 s = inl e ↔ s = "" ∧ e = StdOutOfRange.
Proof.
  destruct s as [|c s]; simpl.
  - split; [by intros [= <-]|]. by intros [_ ->].
  - split; [done|]. by intros [].
Qed.

(** When [getEntityScoreVariable] returns, and what. *)
Lemma getEntityScoreVariable_inr this varOrEntity variable :
  getEntityScoreVariable this varOrEntity = inr variable
  ↔ ∃ name,
      substr1 (_name this) = inr name
      ∧ match varOrEntity with
        | inl var =>
            ∃ entity,
              substr1 (_name var) = inr entity
              ∧ variable
                = mkVariable (SCORE_VARIABLE_PREFIX +:+ name +:+ "_var_"
                              +:+ entity)
        | inr fixedEntity =>
            variable
            = mkVariable (SCORE_VARIABLE_PREFIX +:+ name +:+ "_fixedEntity_"
                          +:+ appendEscapedWord fixedEntity "")
        end.
Proof.
  unfold getEntityScoreVariable.
  destruct varOrEntity as [var|fixedEntity]; cbn [mbind Fallible_bind mret
                                                   Fallible_ret].
  - destruct (substr1 (_name var)) as [e|entity]; cbn.
    + split; [done|]. by intros (name & _ & entity & [=] & _).
    + destruct (substr1 (_name this)) as [e|name]; cbn.
      * split; [done|]. by intros (name & [=] & _).
      * split.
        -- intros [= <-]. exists name. split; [done|]. by exists entity.
        -- by intros (? & [= <-] & ? & [= <-] & ->).
  - destruct (substr1 (_name this)) as [e|name]; cbn.
    + split; [done|]. by intros (name & [=] & _).
    + split.
      * intros [= <-]. by exists name.
      * by intros (? & [= <-] & ->).
Qed.


Lemma escaped_chars_ascii c :
  isascii c = true → forall_chars isalnum_ (escaped c) = true.
Proof.
  intros Hc. unfold escaped. destruct (isalpha c) eqn:Ha.
  - simpl. unfold isalnum_. by rewrite Ha.
  - rewrite !forall_chars_app. rewrite !andb_true_iff. split; [done|].
    split; [|done].
    eapply forall_chars_impl; [|by apply to_string_char_ascii].
    intros x. unfold isalnum_. rewrite !orb_true_iff. tauto.
Qed.

Lemma appendEscapedWord_ascii word :
  forall_chars isascii word = true →
  forall_chars isalnum_ (appendEscapedWord word "") = true.
Proof.
  induction word as [|c word IH]; [done|]. intros H.
  change (isascii c && forall_chars isascii word = true) in H.
  apply andb_true_iff in H as [Hc Hw].
  rewrite appendEscapedWord_escaped, forall_chars_app, IH by done.
  by rewrite escaped_chars_ascii.
Qed.

(** X6: for a text variable whose name is not empty and consists, after
    its first character, of letters, digits and underscores, and for a
    fixed entity made of ASCII characters, [getEntityScoreVariable]
    returns a proper variable name: a [?] followed by letters, digits and
    underscores only. *)
Theorem getEntityScoreVariable_name this first name entity :
  _name this = String first name →
  forall_chars isalnum_ name = true →
  forall_chars isascii entity = true →
  ∃ rest,
    getEntityScoreVariable this (inr entity)
    = inr {| _name := String (Ascii.ascii_of_nat 63) rest |}
    ∧ forall_chars isalnum_ rest = true.
Proof.
  intros Hthis Hn He. unfold getEntityScoreVariable. rewrite Hthis. cbn.
  exists ("ql_score_" +:+ name +:+ "_fixedEntity_"
          +:+ appendEscapedWord entity "").
  split; [reflexivity|].
  rewrite !forall_chars_app, Hn, appendEscapedWord_ascii by done. done.
Qed.

Lemma remove_suffix1_None word : remove_suffix1 word = None ↔ word = "".
Proof.
  split; [|by intros ->].
  induction word as [|c [|d word] IH]; [done..|].
  intros H. change (String c <$> remove_suffix1 (String d word) = None) in H.
  destruct (remove_suffix1 (String d word)); [done|]. by discriminate IH.
Qed.

Lemma word_score_inj n w1 w2 :
  n +:+ appendEscapedWord w1 "_" = n +:+ appendEscapedWord w2 "_" → w1 = w2.
Proof.
  intros H%String.app_inj.
  rewrite (appendEscapedWord_target w1), (appendEscapedWord_target w2) in H.
  by apply String.app_inj, appendEscapedWord_inj in H.
Qed.

(** When [getWordScoreVariable] returns, and what. *)
Lemma getWordScoreVariable_inr this word isPrefix variable :
  getWordScoreVariable this word isPrefix = Some (inr variable)
  ↔ ∃ name searched,
      substr1 (_name this) = inr name
      ∧ (if isPrefix then remove_suffix1 word else Some word) = Some searched
      ∧ variable
        = mkVariable (SCORE_VARIABLE_PREFIX
                      +:+ (if isPrefix then "prefix_" else "word_")
                      +:+ name +:+ appendEscapedWord searched "_").
Proof.
  unfold getWordScoreVariable. destruct isPrefix; cbn.
  - destruct (remove_suffix1 word) as [searched|]; cbn.
    + destruct (substr1 (_name this)) as [e|name]; cbn.
      * split; [done|]. by intros (? & ? & [=] & _).
      * split.
        -- intros [= <-]. by exists name, searched.
        -- by intros (? & ? & [= <-] & [= <-] & ->).
    + split; [done|]. by intros (? & ? & _ & [=] & _).
  - destruct (substr1 (_name this)) as [e|name]; cbn.
    + split; [done|]. by intros (? & ? & [=] & _).
    + split.
      * intros [= <-]. by exists name, word.
      * by intros (? & ? & [= <-] & [= <-] & ->).
Qed.


End Escaping.

(** The names expected by [TextIndexScanForEntityTest.cpp]; they hold no
    byte above 127. *)
Example score_variable_of_entity_variable signed :
  getEntityScoreVariable signed (mkVariable "?text2")
                         (inl (mkVariable "?entityVar2"))
  = inr (mkVariable "?ql_score_text2_var_entityVar2").
Proof. reflexivity. Qed.

Example score_variable_of_fixed_entity signed :
  getEntityScoreVariable signed (mkVariable "?text3")
                         (inr (quoted "some other sentence"))
  = inr (mkVariable
           "?ql_score_text3_fixedEntity__34_some_32_other_32_sentence_34_").
Proof. by destruct signed. Qed.

(** The variables of the searches [test*] and [test] in [?t]. *)
Example getWordScoreVariable_prefix signed :
  getWordScoreVariable signed (mkVariable "?t") "test*" true
  = Some (inr (mkVariable "?ql_score_prefix_t_test")).
Proof. reflexivity. Qed.

Example getWordScoreVariable_word signed :
  getWordScoreVariable signed (mkVariable "?t") "test" false
  = Some (inr (mkVariable "?ql_score_word_t_test")).
Proof. reflexivity. Qed.

(** A byte beyond ASCII: its escape carries a minus sign where [char] is
    signed, and is the byte where it is not. *)
Example appendEscapedWord_signed :
  appendEscapedWord true (String (Ascii.ascii_of_nat 195) "") "" = "_-61_"
  ∧ appendEscapedWord false (String (Ascii.ascii_of_nat 195) "") ""
    = "_195_".
Proof. split; reflexivity. Qed.

(** A variable without a name: [substr] throws. *)
Example getEntityScoreVariable_empty_name signed :
  getEntityScoreVariable signed {| _name := "" |} (inr "<e>")
  = inl StdOutOfRange.
Proof. reflexivity. Qed.

Lemma getEntityScoreVariable_name_witness :
  ∃ rest,
    getEntityScoreVariable true (mkVariable "?text3")
      (inr (quoted "some other sentence"))
    = inr {| _name := String (Ascii.ascii_of_nat 63) rest |}
    ∧ forall_chars isalnum_ rest = true.
Proof.
  apply (getEntityScoreVariable_name true (mkVariable "?text3")
           (Ascii.ascii_of_nat 63) "text3" (quoted "some other sentence"));
    reflexivity.
Defined.

End Variables.

(** ** [TransitivePathBase], [src/engine/TransitivePathBase.cpp] *)
Module TransitivePath.

(** [TripleComponent]: a variable or a fixed term. *)
Inductive TripleComponent :=
| TCVariable (variable : SparqlVariable)
| TCIri (iri : string)
| TCLiteral (literal : string)
| TCId (id : N).

#[global] Instance TripleComponent_eq_dec : EqDecision TripleComponent.
Proof. solve_decision. Defined.

Inductive Permutation := SPO | SOP | PSO | POS | OSP | OPS.

(** The active graphs of a scan: all of them, or a set of graph names. *)
Definition Graphs : Type := option (list string).

(** The execution trees that the operator is given or builds.  A tree
    planned elsewhere is opaque and stands for itself. *)
Inductive QueryExecutionTree :=
| Planned (cacheKey : string)
| IndexScan (permutation : Permutation) (s p o : TripleComponent)
            (graphs : Graphs) (selected : list SparqlVariable)
| Values (variables : list SparqlVariable) (rows : list (list TripleComponent))
| Join (left right : QueryExecutionTree) (leftCol rightCol : nat)
| Union (left right : QueryExecutionTree)
| Distinct (child : QueryExecutionTree) (columns : list nat).

(** A [QueryExecutionContext*] that is not null. *)
Inductive QueryExecutionContext := Context_ (index : string).

Inductive UndefStatus := AlwaysDefined | PossiblyUndefined.

Definition makeAlwaysDefinedColumn (column : nat) : nat * UndefStatus :=
  (column, AlwaysDefined).

(** Modelled from the spec: [TransitivePathSide] is declared in
    [TransitivePathBase.h], which is not among the sources.  The spec has
    each side "either a bound variable, a free variable, or a fixed term":
    a side carries its value and, once bound, the tree and column that
    deliver its values. *)
Record TransitivePathSide := {
  treeAndCol_ : option (QueryExecutionTree * nat);
  subCol_ : nat;
  value_ : TripleComponent;
  outputCol_ : nat;
}.

(** Modelled from the spec: [TransitivePathSide::isVariable]; the side is
    a variable and not a fixed term. *)
Definition isVariable (side : TransitivePathSide) : bool :=
  match value_ side with
  | TCVariable _ => true
  | _ => false
  end.

(** Modelled from the spec: [TransitivePathSide::isBoundVariable]; the side
    has a tree that delivers its values. *)
Definition isBoundVariable (side : TransitivePathSide) : bool :=
  bool_decide (is_Some (treeAndCol_ side)).

(** Modelled from the spec: [TransitivePathSide::isUnboundVariable]; a
    free variable. *)
Definition isUnboundVariable (side : TransitivePathSide) : bool :=
  isVariable side && negb (isBoundVariable side).

Definition with_treeAndCol (tree : QueryExecutionTree) (col : nat)
    (side : TransitivePathSide) : TransitivePathSide :=
  {| treeAndCol_ := Some (tree, col); subCol_ := subCol_ side;
     value_ := value_ side; outputCol_ := outputCol_ side |}.

Definition with_outputCol (col : nat) (side : TransitivePathSide)
  : TransitivePathSide :=
  {| treeAndCol_ := treeAndCol_ side; subCol_ := subCol_ side;
     value_ := value_ side; outputCol_ := col |}.

Definition makeInternalVariable (s : string) : SparqlVariable :=
  Variables.mkVariable ("?internal_property_path_variable_" +:+ s).

(** The two full scans that [joinWithIndexScan] and [makeEmptyPathSide]
    share: every subject and every object, bound to [x]. *)
Definition scanSubjects (x : SparqlVariable) (graphs : Graphs)
  : QueryExecutionTree :=
  IndexScan SPO (TCVariable x) (TCVariable (makeInternalVariable "y"))
            (TCVariable (makeInternalVariable "z")) graphs [x].

Definition scanObjects (x : SparqlVariable) (graphs : Graphs)
  : QueryExecutionTree :=
  IndexScan OPS (TCVariable (makeInternalVariable "z"))
            (TCVariable (makeInternalVariable "y")) (TCVariable x) graphs [x].

(** [TransitivePathBase::joinWithIndexScan]. *)
Definition joinWithIndexScan (activeGraphs : Graphs)
    (tripleComponent : TripleComponent) : QueryExecutionTree :=
  let x := makeInternalVariable "x" in
  let joinWithValues tree := Join tree (Values [x] [[tripleComponent]]) 0 0 in
  Distinct (Union (joinWithValues (scanSubjects x activeGraphs))
                  (joinWithValues (scanObjects x activeGraphs)))
           [0%nat].

(** [TransitivePathBase::makeEmptyPathSide]. *)
Definition makeEmptyPathSide (activeGraphs : Graphs)
    (variable : option SparqlVariable) : QueryExecutionTree :=
  let x := default (makeInternalVariable "x") variable in
  Distinct (Union (scanSubjects x activeGraphs) (scanObjects x activeGraphs))
           [0%nat].

Record TransitivePathBase := {
  executionContext : QueryExecutionContext;
  subtree_ : QueryExecutionTree;
  lhs_ : TransitivePathSide;
  rhs_ : TransitivePathSide;
  minDist_ : N;
  maxDist_ : N;
  activeGraphs_ : Graphs;
  variableColumns_ : gmap SparqlVariable (nat * UndefStatus);
  boundVariableIsForEmptyPath_ : bool;
  resultWidth_ : nat;
}.

(** [decideDirection] returns references to the two sides; the embedding
    returns which one comes first. *)
Inductive Direction := LeftToRight | RightToLeft.

Definition decideDirection (lhs rhs : TransitivePathSide) : Direction :=
  if isBoundVariable lhs then LeftToRight
  else if isBoundVariable rhs || negb (isVariable rhs) then RightToLeft
  else LeftToRight.

Definition bindColumn (side : TransitivePathSide) (column : nat)
    (columns : gmap SparqlVariable (nat * UndefStatus))
  : gmap SparqlVariable (nat * UndefStatus) :=
  match value_ side with
  | TCVariable v => <[v := makeAlwaysDefinedColumn column]> columns
  | _ => columns
  end.

(** The body of the constructor for [minDist_ == 0]: the new [lhs_],
    [rhs_], [minDist_] and [boundVariableIsForEmptyPath_]. *)
Definition zeroLength (activeGraphs : Graphs) (lhs rhs : TransitivePathSide)
  : TransitivePathSide * TransitivePathSide * N * bool :=
  if negb (isVariable lhs) && negb (isVariable rhs)
     && bool_decide (value_ lhs ≠ value_ rhs)
  then (lhs, rhs, 1, false)
  else if isUnboundVariable lhs && isUnboundVariable rhs
  then (with_treeAndCol (makeEmptyPathSide activeGraphs None) 0 lhs,
        rhs, 0, true)
  else
    match decideDirection lhs rhs with
    | LeftToRight =>
        if negb (isVariable lhs)
        then (with_treeAndCol (joinWithIndexScan activeGraphs (value_ lhs)) 0
                              lhs, rhs, 0, false)
        else (lhs, rhs, 0, false)
    | RightToLeft =>
        if negb (isVariable rhs)
        then (lhs,
              with_treeAndCol (joinWithIndexScan activeGraphs (value_ rhs)) 0
                              rhs, 0, false)
        else (lhs, rhs, 0, false)
    end.

(** [TransitivePathBase::TransitivePathBase].  [qec] and [child] are
    pointers and may be null. *)
Definition construct (qec : option QueryExecutionContext)
    (child : option QueryExecutionTree)
    (leftSide rightSide : TransitivePathSide) (minDist maxDist : N)
    (activeGraphs : Graphs) : Fallible TransitivePathBase :=
  match qec, child with
  | None, _ => throw (CorrectnessCheck "qec != nullptr")
  | Some _, None => throw (CorrectnessCheck "subtree_")
  | Some qec, Some subtree =>
      let columns := bindColumn rightSide 1 (bindColumn leftSide 0 ∅) in
      let '(lhs, rhs, minDist, forEmptyPath) :=
        if minDist =? 0 then zeroLength activeGraphs leftSide rightSide
        else (leftSide, rightSide, minDist, false) in
      mret {| executionContext := qec; subtree_ := subtree;
              lhs_ := with_outputCol 0 lhs; rhs_ := with_outputCol 1 rhs;
              minDist_ := minDist; maxDist_ := maxDist;
              activeGraphs_ := activeGraphs; variableColumns_ := columns;
              boundVariableIsForEmptyPath_ := forEmptyPath;
              resultWidth_ := 2 |}
  end.

Section Estimates.

(** [QueryExecutionTree::getSizeEstimate], a [size_t]. *)
Variable getSizeEstimate : QueryExecutionTree → N.

(** [TransitivePathBase::getSizeEstimateBeforeLimit]. *)
Definition getSizeEstimateBeforeLimit (tp : TransitivePathBase) : Fallible N :=
  if negb (isVariable (lhs_ tp)) || negb (isVariable (rhs_ tp)) then mret 1000
  else
    match treeAndCol_ (lhs_ tp), treeAndCol_ (rhs_ tp) with
    | Some (tree, _), _ => mret (getSizeEstimate tree)
    | None, Some (tree, _) => mret (getSizeEstimate tree)
    | None, None =>
        if isVariable (lhs_ tp) && isVariable (rhs_ tp)
        then mret (wrap64 (getSizeEstimate (subtree_ tp) * 10000))
        else throw (CorrectnessCheck "lhs_.isVariable() && rhs_.isVariable()")
    end.

(** The size estimate as the spec words it. *)
Definition specSizeEstimate (tp : TransitivePathBase) : N :=
  if negb (isVariable (lhs_ tp)) || negb (isVariable (rhs_ tp)) then 1000
  else 10000 * getSizeEstimate (subtree_ tp).

End Estimates.

Lemma isVariable_with_outputCol col side :
  isVariable (with_outputCol col side) = isVariable side.
Proof. reflexivity. Qed.

(** C2: with [minDist == 0] and two fixed, distinct sides the constructor
    succeeds (for a context and a child that are not null) and the operator
    it builds has [minDist_ == 1]. *)
Theorem construct_lifts_minDist qec child leftSide rightSide maxDist graphs :
  isVariable leftSide = false →
  isVariable rightSide = false →
  value_ leftSide ≠ value_ rightSide →
  (∀ context subtree,
     qec = Some context → child = Some subtree →
     ∃ tp, construct qec child leftSide rightSide 0 maxDist graphs = inr tp)
  ∧ ∀ tp, construct qec child leftSide rightSide 0 maxDist graphs = inr tp →
          minDist_ tp = 1.
Proof.
  intros Hl Hr Hne.
  assert (zeroLength graphs leftSide rightSide = (leftSide, rightSide, 1, false))
    as Hzero.
  { unfold zeroLength. rewrite Hl, Hr. simpl.
    by rewrite bool_decide_eq_true_2. }
  split.
  - intros context subtree -> ->. unfold construct. simpl.
    rewrite Hzero. eauto.
  - intros tp. unfold construct.
    destruct qec as [context|]; [|done].
    destruct child as [subtree|]; [|done].
    simpl. rewrite Hzero. intros [= <-]. done.
Qed.

(** C3, as amended: 1000 when a side is fixed; with two variables the
    estimate of the tree bound to the left side, else of the tree bound to
    the right side, and only when no side is bound 10000 times the estimate
    of the subtree, in [size_t] arithmetic.  The correctness check never
    fires. *)
Theorem getSizeEstimateBeforeLimit_cases getSizeEstimate tp :
  (isVariable (lhs_ tp) = false ∨ isVariable (rhs_ tp) = false →
   getSizeEstimateBeforeLimit getSizeEstimate tp = inr 1000)
  ∧ (isVariable (lhs_ tp) = true → isVariable (rhs_ tp) = true →
     (∀ tree col,
        treeAndCol_ (lhs_ tp) = Some (tree, col) →
        getSizeEstimateBeforeLimit getSizeEstimate tp
        = inr (getSizeEstimate tree))
     ∧ (∀ tree col,
          treeAndCol_ (lhs_ tp) = None →
          treeAndCol_ (rhs_ tp) = Some (tree, col) →
          getSizeEstimateBeforeLimit getSizeEstimate tp
          = inr (getSizeEstimate tree))
     ∧ (treeAndCol_ (lhs_ tp) = None → treeAndCol_ (rhs_ tp) = None →
        getSizeEstimateBeforeLimit getSizeEstimate tp
        = inr (wrap64 (getSizeEstimate (subtree_ tp) * 10000)))).
Proof.
  unfold getSizeEstimateBeforeLimit. split.
  - intros [->| ->]; simpl; [done|]. by rewrite orb_true_r.
  - intros -> ->. simpl. split; [|split].
    + by intros tree col ->.
    + by intros tree col -> ->.
    + by intros -> ->.
Qed.

(** The operator for [?x <p>* ?y]: both sides are free, so the constructor
    binds the left side to the empty-path scan. *)
Definition freeSide (name : string) : TransitivePathSide :=
  {| treeAndCol_ := None; subCol_ := 0;
     value_ := TCVariable (Variables.mkVariable name); outputCol_ := 0 |}.

Definition fixedSide (iri : string) : TransitivePathSide :=
  {| treeAndCol_ := None; subCol_ := 0; value_ := TCIri iri; outputCol_ := 0 |}.

Definition constantEstimate (n : N) (tree : QueryExecutionTree) : N := n.

(** [std::numeric_limits<size_t>::max()], the [maxDist] of [*] and [+]. *)
Definition unbounded : N := 18446744073709551615.

(** The operator for [?x <p>+ ?y], and the one for [<x> <p>+ ?y]. *)
Definition hullPath : TransitivePathBase :=
  {| executionContext := Context_ "index"; subtree_ := Planned "scan <p>";
     lhs_ := with_outputCol 0 (freeSide "?x");
     rhs_ := with_outputCol 1 (freeSide "?y");
     minDist_ := 1; maxDist_ := unbounded; activeGraphs_ := None;
     variableColumns_ :=
       {[ Variables.mkVariable "?x" := (0%nat, AlwaysDefined);
          Variables.mkVariable "?y" := (1%nat, AlwaysDefined) ]};
     boundVariableIsForEmptyPath_ := false; resultWidth_ := 2 |}.

Definition fromFixedPath : TransitivePathBase :=
  {| executionContext := Context_ "index"; subtree_ := Planned "scan <p>";
     lhs_ := with_outputCol 0 (fixedSide "<x>");
     rhs_ := with_outputCol 1 (freeSide "?y");
     minDist_ := 1; maxDist_ := unbounded; activeGraphs_ := None;
     variableColumns_ :=
       {[ Variables.mkVariable "?y" := (1%nat, AlwaysDefined) ]};
     boundVariableIsForEmptyPath_ := false; resultWidth_ := 2 |}.

Example construct_hullPath :
  construct (Some (Context_ "index")) (Some (Planned "scan <p>"))
            (freeSide "?x") (freeSide "?y") 1 unbounded None = inr hullPath.
Proof. vm_compute. reflexivity. Qed.

Example construct_fromFixedPath :
  construct (Some (Context_ "index")) (Some (Planned "scan <p>"))
            (fixedSide "<x>") (freeSide "?y") 1 unbounded None
  = inr fromFixedPath.
Proof. vm_compute. reflexivity. Qed.

(** C3 as stated fails: for [?x <p>* ?y] with every tree estimated at 5
    rows the estimate is 5, the estimate of the empty-path side, and not
    50000. *)
Lemma specSizeEstimate_counterexample :
  ∃ tp,
    construct (Some (Context_ "index")) (Some (Planned "scan <p>"))
              (freeSide "?x") (freeSide "?y") 0 unbounded None = inr tp
    ∧ getSizeEstimateBeforeLimit (constantEstimate 5) tp = inr 5
    ∧ specSizeEstimate (constantEstimate 5) tp = 50000
    ∧ getSizeEstimateBeforeLimit (constantEstimate 5) tp
      ≠ inr (specSizeEstimate (constantEstimate 5) tp).
Proof. eexists. split; [reflexivity|]. repeat split. discriminate. Qed.

Lemma construct_lifts_minDist_witness :
  (∀ context subtree,
     Some (Context_ "index") = Some context →
     Some (Planned "scan <p>") = Some subtree →
     ∃ tp, construct (Some (Context_ "index")) (Some (Planned "scan <p>"))
                     (fixedSide "<x>") (fixedSide "<y>") 0 5 None = inr tp)
  ∧ ∀ tp, construct (Some (Context_ "index")) (Some (Planned "scan <p>"))
                    (fixedSide "<x>") (fixedSide "<y>") 0 5 None = inr tp →
          minDist_ tp = 1.
Proof.
  apply (construct_lifts_minDist (Some (Context_ "index"))
           (Some (Planned "scan <p>")) (fixedSide "<x>") (fixedSide "<y>")
           5 None).
  - reflexivity.
  - reflexivity.
  - discriminate.
Defined.

Lemma getSizeEstimateBeforeLimit_cases_witness :
  getSizeEstimateBeforeLimit (constantEstimate 5) fromFixedPath = inr 1000
  ∧ getSizeEstimateBeforeLimit (constantEstimate 5) hullPath
    = inr (wrap64 (constantEstimate 5 (subtree_ hullPath) * 10000)).
Proof.
  split.
  - apply (proj1 (getSizeEstimateBeforeLimit_cases (constantEstimate 5)
                    fromFixedPath)).
    left. reflexivity.
  - apply (proj2 (getSizeEstimateBeforeLimit_cases (constantEstimate 5)
                    hullPath)); reflexivity.
Defined.

(** *** The remaining members of [TransitivePathBase] *)

(** [decideDirection().first], the side the computation starts from. *)
Definition startingSide (lhs rhs : TransitivePathSide) : TransitivePathSide :=
  match decideDirection lhs rhs with
  | LeftToRight => lhs
  | RightToLeft => rhs
  end.

(** [TransitivePathBase::isBoundOrId]. *)
Definition isBoundOrId (tp : TransitivePathBase) : bool :=
  negb (boundVariableIsForEmptyPath_ tp)
  && (negb (isUnboundVariable (lhs_ tp))
      || negb (isUnboundVariable (rhs_ tp))).

(** [TransitivePathBase::getChildren]. *)
Definition getChildren (tp : TransitivePathBase) : list QueryExecutionTree :=
  let addChildren (side : TransitivePathSide) :=
    match treeAndCol_ side with
    | Some (tree, _) => [tree]
    | None => []
    end in
  addChildren (lhs_ tp) ++ addChildren (rhs_ tp) ++ [subtree_ tp].

(** [TransitivePathBase::computeVariableToColumnMap]. *)
Definition computeVariableToColumnMap (tp : TransitivePathBase)
  : gmap SparqlVariable (nat * UndefStatus) :=
  variableColumns_ tp.

(** [TransitivePathBase::columnOriginatesFromGraphOrUndef].  The visible
    columns of the operator are those of [computeVariableToColumnMap]. *)
Definition columnOriginatesFromGraphOrUndef (tp : TransitivePathBase)
    (variable : SparqlVariable) : Fallible bool :=
  if bool_decide (is_Some (computeVariableToColumnMap tp !! variable)) then
    mret (bool_decide (TCVariable variable = value_ (lhs_ tp))
          || bool_decide (TCVariable variable = value_ (rhs_ tp)))
  else
    throw (ContractCheck
             "getExternallyVisibleVariableColumns().contains(variable)").

Section Trees.

(** What the operator asks of the trees it holds:
    [QueryExecutionTree::knownEmptyResult], [getSizeEstimate],
    [getCostEstimate] and [getCacheKey], and the cache key of a side,
    [TransitivePathSide::getCacheKey]. *)
Variable knownEmptyResultOf : QueryExecutionTree → bool.
Variable getSizeEstimate : QueryExecutionTree → N.
Variable getCostEstimateOf : QueryExecutionTree → N.
Variable getCacheKeyOf : QueryExecutionTree → string.
Variable getCacheKeyOfSide : TransitivePathSide → string.

(** [TransitivePathBase::knownEmptyResult]. *)
Definition knownEmptyResult (tp : TransitivePathBase) : bool :=
  let sideHasKnownEmptyResult :=
    match treeAndCol_ (startingSide (lhs_ tp) (rhs_ tp)) with
    | Some (tree, _) => knownEmptyResultOf tree
    | None => false
    end in
  (knownEmptyResultOf (subtree_ tp) && (0 <? minDist_ tp))
  || sideHasKnownEmptyResult.

(** [TransitivePathBase::getCostEstimate]; the sum is a [size_t]. *)
Definition getCostEstimate (tp : TransitivePathBase) : Fallible N :=
  costEstimate ← getSizeEstimateBeforeLimit getSizeEstimate tp;
  mret (foldl (λ costEstimate child,
                 wrap64 (costEstimate + getCostEstimateOf child))
              costEstimate (getChildren tp)).

Definition newline : string := String (Ascii.ascii_of_nat 10) "".

(** [TransitivePathBase::getCacheKeyImpl]. *)
Definition getCacheKeyImpl (tp : TransitivePathBase) : string :=
  "TRANSITIVE PATH "
  +:+ (if isVariable (lhs_ tp)
          && bool_decide (value_ (lhs_ tp) = value_ (rhs_ tp))
       then "symmetric " else "")
  +:+ "minDist " +:+ decimal (minDist_ tp)
  +:+ " maxDist " +:+ decimal (maxDist_ tp) +:+ newline
  +:+ "Left side:" +:+ newline +:+ getCacheKeyOfSide (lhs_ tp)
  +:+ "Right side:" +:+ newline +:+ getCacheKeyOfSide (rhs_ tp)
  +:+ "Subtree:" +:+ newline +:+ getCacheKeyOf (subtree_ tp) +:+ newline.

(** The key says [symmetric] when the same variable stands on both
    sides. *)
Definition symmetric (tp : TransitivePathBase) : bool :=
  isVariable (lhs_ tp) && bool_decide (value_ (lhs_ tp) = value_ (rhs_ tp)).

End Trees.
Lemma isUnboundVariable_with_outputCol col side :
  isUnboundVariable (with_outputCol col side) = isUnboundVariable side.
Proof. reflexivity. Qed.

Lemma isBoundVariable_with_outputCol col side :
  isBoundVariable (with_outputCol col side) = isBoundVariable side.
Proof. reflexivity. Qed.

Lemma decideDirection_with_outputCol c1 c2 lhs rhs :
  decideDirection (with_outputCol c1 lhs) (with_outputCol c2 rhs)
  = decideDirection lhs rhs.
Proof. reflexivity. Qed.

Lemma isUnboundVariable_with_treeAndCol tree col side :
  isUnboundVariable (with_treeAndCol tree col side) = false.
Proof. unfold isUnboundVariable. simpl. apply andb_false_r. Qed.

Lemma isUnboundVariable_fixed side :
  isVariable side = false → isUnboundVariable side = false.
Proof. unfold isUnboundVariable. by intros ->. Qed.

(** The constructor succeeds exactly for a context and a child that are
    not null, and then the operator is [built]. *)
Definition built (qec : QueryExecutionContext) (subtree : QueryExecutionTree)
    (leftSide rightSide : TransitivePathSide) (minDist maxDist : N)
    (activeGraphs : Graphs) : TransitivePathBase :=
  let '(lhs, rhs, minDist, forEmptyPath) :=
    if minDist =? 0 then zeroLength activeGraphs leftSide rightSide
    else (leftSide, rightSide, minDist, false) in
  {| executionContext := qec; subtree_ := subtree;
     lhs_ := with_outputCol 0 lhs; rhs_ := with_outputCol 1 rhs;
     minDist_ := minDist; maxDist_ := maxDist;
     activeGraphs_ := activeGraphs;
     variableColumns_ := bindColumn rightSide 1 (bindColumn leftSide 0 ∅);
     boundVariableIsForEmptyPath_ := forEmptyPath;
     resultWidth_ := 2 |}.

Lemma construct_built qec child leftSide rightSide minDist maxDist graphs tp :
  construct qec child leftSide rightSide minDist maxDist graphs = inr tp →
  ∃ context subtree,
    qec = Some context ∧ child = Some subtree
    ∧ tp = built context subtree leftSide rightSide minDist maxDist graphs.
Proof.
  unfold construct, built.
  destruct qec as [context|]; [|done]. destruct child as [subtree|]; [|done].
  intros H. exists context, subtree. split; [done|]. split; [done|].
  destruct (if minDist =? 0 then _ else _) as [[[l r] m] f].
  by injection H as <-.
Qed.

(** X8: The operator counts as bound exactly when one of the sides it was
    given is not a free variable: the tree that the constructor attaches
    to the left side for the empty path does not make it count. *)
Theorem construct_isBoundOrId
    qec child leftSide rightSide minDist maxDist graphs tp :
  construct qec child leftSide rightSide minDist maxDist graphs = inr tp →
  isBoundOrId tp
  = negb (isUnboundVariable leftSide && isUnboundVariable rightSide).
Proof.
  intros (context & subtree & _ & _ & ->)%construct_built.
  unfold built, isBoundOrId. destruct (minDist =? 0).
  - unfold zeroLength.
    destruct (negb (isVariable leftSide) && negb (isVariable rightSide)
              && bool_decide (value_ leftSide ≠ value_ rightSide)) eqn:H1.
    + apply andb_true_iff in H1 as [[Hl Hr]%andb_true_iff _].
      apply negb_true_iff in Hl, Hr. simpl.
      rewrite !isUnboundVariable_with_outputCol.
      by rewrite !isUnboundVariable_fixed.
    + destruct (isUnboundVariable leftSide && isUnboundVariable rightSide)
        eqn:H2; [done|].
      destruct (decideDirection leftSide rightSide).
      * destruct (isVariable leftSide) eqn:Hl; simpl;
          rewrite !isUnboundVariable_with_outputCol.
        -- by rewrite <- negb_andb, H2.
        -- rewrite isUnboundVariable_with_treeAndCol. done.
      * destruct (isVariable rightSide) eqn:Hr; simpl;
          rewrite !isUnboundVariable_with_outputCol.
        -- by rewrite <- negb_andb, H2.
        -- rewrite isUnboundVariable_with_treeAndCol. apply orb_true_r.
  - simpl. rewrite !isUnboundVariable_with_outputCol. by rewrite negb_andb.
Qed.

Lemma startingSide_with_outputCol c1 c2 lhs rhs :
  treeAndCol_ (startingSide (with_outputCol c1 lhs) (with_outputCol c2 rhs))
  = treeAndCol_ (startingSide lhs rhs).
Proof.
  unfold startingSide. rewrite decideDirection_with_outputCol.
  by destruct (decideDirection lhs rhs).
Qed.

(** The tree of the side that the computation of a [built] operator
    starts from. *)
Lemma zeroLength_startingSide graphs lhs rhs l r m f :
  zeroLength graphs lhs rhs = (l, r, m, f) →
  (m = 1 ∧ isVariable lhs = false ∧ isVariable rhs = false
   ∧ value_ lhs ≠ value_ rhs ∧ l = lhs ∧ r = rhs)
  ∨ (m = 0
     ∧ ((isUnboundVariable lhs = true ∧ isUnboundVariable rhs = true
         ∧ treeAndCol_ (startingSide l r)
           = Some (makeEmptyPathSide graphs None, 0%nat))
        ∨ (isVariable (startingSide lhs rhs) = false
           ∧ treeAndCol_ (startingSide l r)
             = Some (joinWithIndexScan graphs
                       (value_ (startingSide lhs rhs)), 0%nat))
        ∨ (isVariable (startingSide lhs rhs) = true
           ∧ is_Some (treeAndCol_ (startingSide lhs rhs))
           ∧ l = lhs ∧ r = rhs))).
Proof.
  unfold zeroLength.
  destruct (negb (isVariable lhs) && negb (isVariable rhs)
            && bool_decide (value_ lhs ≠ value_ rhs)) eqn:H1.
  { intros [= <- <- <- <-].
    apply andb_true_iff in H1 as [[Hl Hr]%andb_true_iff Hne].
    apply negb_true_iff in Hl, Hr. apply bool_decide_eq_true in Hne.
    by left. }
  destruct (isUnboundVariable lhs && isUnboundVariable rhs) eqn:H2.
  { intros [= <- <- <- <-]. apply andb_true_iff in H2 as [??].
    right. split; [done|]. left. done. }
  unfold startingSide.
  destruct (decideDirection lhs rhs) eqn:Hd.
  - destruct (isVariable lhs) eqn:Hl; simpl; intros [= <- <- <- <-];
      right; (split; [done|]); right.
    + right. split; [done|]. split; [|done].
      unfold decideDirection, isUnboundVariable, isBoundVariable in *.
      rewrite Hl in H2. simpl in H2.
      destruct (treeAndCol_ lhs); [by eexists|]. simpl in *.
      destruct (treeAndCol_ rhs); simpl in *; [done|].
      destruct (isVariable rhs); done.
    + left. split; [done|]. unfold decideDirection, isBoundVariable. done.
  - destruct (isVariable rhs) eqn:Hr; simpl; intros [= <- <- <- <-];
      right; (split; [done|]); right.
    + right. split; [done|]. split; [|done].
      unfold decideDirection, isBoundVariable in Hd.
      destruct (treeAndCol_ lhs); simpl in *; [done|].
      destruct (treeAndCol_ rhs); [by eexists|]. simpl in *.
      by rewrite Hr in Hd.
    + left. split; [done|].
      unfold decideDirection, isBoundVariable in *.
      destruct (treeAndCol_ lhs); simpl in *; done.
Qed.

(** X9: An operator that has to match paths of length zero always has a tree
    on the side its computation starts from: whenever the constructor
    leaves [minDist_] at 0, the starting side is bound. *)
Theorem construct_zero_length_start_bound
    qec child leftSide rightSide minDist maxDist graphs tp :
  construct qec child leftSide rightSide minDist maxDist graphs = inr tp →
  minDist_ tp = 0 →
  is_Some (treeAndCol_ (startingSide (lhs_ tp) (rhs_ tp))).
Proof.
  intros (context & subtree & _ & _ & ->)%construct_built.
  unfold built. destruct (minDist =? 0) eqn:Hm.
  - destruct (zeroLength graphs leftSide rightSide) as [[[l r] m] f] eqn:Hz.
    simpl. rewrite startingSide_with_outputCol. intros ->.
    apply zeroLength_startingSide in Hz
      as [[? _]|[_ [(_ & _ & ->)|[[_ ->]|(_ & ? & -> & ->)]]]];
      [done|by eexists..|done].
  - simpl. intros ->. done.
Qed.

(** X10: For sides that come without a tree: the operator is known to be
    empty when the subtree is, as long as paths of length zero do not
    count ([minDist] is positive, or it was lifted for two distinct fixed
    terms); with paths of length zero, what decides is the tree that the
    constructor has put on the starting side and not the subtree. *)
Theorem construct_knownEmptyResult knownEmptyResultOf
    qec child leftSide rightSide minDist maxDist graphs tp :
  construct qec child leftSide rightSide minDist maxDist graphs = inr tp →
  treeAndCol_ leftSide = None →
  treeAndCol_ rightSide = None →
  knownEmptyResult knownEmptyResultOf tp
  = if (0 <? minDist)
       || (negb (isVariable leftSide) && negb (isVariable rightSide)
           && bool_decide (value_ leftSide ≠ value_ rightSide))
    then knownEmptyResultOf (subtree_ tp)
    else if isVariable leftSide && isVariable rightSide
    then knownEmptyResultOf (makeEmptyPathSide graphs None)
    else knownEmptyResultOf
           (joinWithIndexScan graphs
              (value_ (if isVariable rightSide then leftSide
                       else rightSide))).
Proof.
  intros (context & subtree & _ & _ & ->)%construct_built Hl Hr.
  unfold built, knownEmptyResult.
  destruct (minDist =? 0) eqn:Hm.
  - apply N.eqb_eq in Hm as ->. simpl (0 <? 0). rewrite orb_false_l.
    unfold zeroLength, startingSide, decideDirection, isUnboundVariable,
      isBoundVariable.
    rewrite Hl, Hr.
    destruct (isVariable leftSide) eqn:Hvl, (isVariable rightSide) eqn:Hvr;
      repeat first [rewrite Hl | rewrite Hr | rewrite Hvl | rewrite Hvr
                   | progress simpl];
      try case_bool_decide;
      repeat first [rewrite Hl | rewrite Hr | rewrite Hvl | rewrite Hvr
                   | rewrite isVariable_with_outputCol | progress simpl];
      rewrite ?andb_false_r, ?andb_true_r, ?orb_false_r, ?orb_false_l; done.
  - assert ((0 <? minDist) = true) as Hpos.
    { apply N.eqb_neq in Hm. apply N.ltb_lt. lia. }
    unfold startingSide, decideDirection, isBoundVariable.
    destruct (isVariable rightSide) eqn:Hvr;
      repeat first [rewrite Hl | rewrite Hr | rewrite Hvr | rewrite Hpos
                   | rewrite isVariable_with_outputCol | progress simpl];
      rewrite ?andb_true_r, ?orb_false_r; done.
Qed.

Lemma decimal_without sep n :
  Variables.isdigit sep = false →
  Variables.forall_chars (λ x, negb (bool_decide (x = sep))) (decimal n)
  = true.
Proof.
  intros Hsep.
  eapply Variables.forall_chars_impl; [|apply Variables.decimal_digits].
  intros x Hx. apply negb_true_iff, bool_decide_eq_false. intros ->.
  congruence.
Qed.

(** Two numbers printed in front of the same text, which does not start
    with a digit. *)
Lemma decimal_cut sep text n1 n2 r1 r2 :
  Variables.isdigit sep = false →
  decimal n1 +:+ String sep text +:+ r1 = decimal n2 +:+ String sep text +:+ r2 →
  n1 = n2 ∧ r1 = r2.
Proof.
  intros Hsep H.
  change (decimal n1 +:+ String sep (text +:+ r1)
          = decimal n2 +:+ String sep (text +:+ r2)) in H.
  apply Variables.cut_unique in H as [H Hr];
    [|by apply decimal_without..].
  apply Variables.decimal_inj in H as ->.
  by apply String.app_inj in Hr as ->.
Qed.

(** X11: The cache key tells apart what the children's keys do not show:
    operators with equal keys agree on whether the same variable stands
    on both sides, on [minDist_] and on [maxDist_]. *)
Theorem getCacheKeyImpl_distinguishes getCacheKeyOf getCacheKeyOfSide tp1 tp2 :
  getCacheKeyImpl getCacheKeyOf getCacheKeyOfSide tp1
  = getCacheKeyImpl getCacheKeyOf getCacheKeyOfSide tp2 →
  symmetric tp1 = symmetric tp2
  ∧ minDist_ tp1 = minDist_ tp2
  ∧ maxDist_ tp1 = maxDist_ tp2.
Proof.
  unfold getCacheKeyImpl. fold (symmetric tp1). fold (symmetric tp2).
  intros H%String.app_inj.
  assert (symmetric tp1 = symmetric tp2) as Hs.
  { destruct (symmetric tp1), (symmetric tp2); done. }
  split; [done|]. rewrite Hs in H.
  apply String.app_inj, String.app_inj in H.
  apply decimal_cut in H as [Hmin H]; [|done].
  split; [done|].
  unfold newline in H. by apply decimal_cut in H as [Hmax _].
Qed.

(** X12: On an operator as the constructor leaves it,
    [columnOriginatesFromGraphOrUndef] answers [true] for the variables of
    the two sides and fails its contract check for every other variable;
    it never answers [false]. *)
Theorem construct_columnOriginatesFromGraphOrUndef
    qec child leftSide rightSide minDist maxDist graphs tp variable :
  construct qec child leftSide rightSide minDist maxDist graphs = inr tp →
  columnOriginatesFromGraphOrUndef tp variable
  = if bool_decide (value_ leftSide = TCVariable variable
                    ∨ value_ rightSide = TCVariable variable)
    then inr true
    else inl (ContractCheck
                "getExternallyVisibleVariableColumns().contains(variable)").
Proof.
  intros (context & subtree & _ & _ & ->)%construct_built.
  unfold columnOriginatesFromGraphOrUndef, computeVariableToColumnMap.
  assert (value_ (lhs_ (built context subtree leftSide rightSide minDist
                          maxDist graphs)) = value_ leftSide
          ∧ value_ (rhs_ (built context subtree leftSide rightSide minDist
                            maxDist graphs)) = value_ rightSide
          ∧ variableColumns_ (built context subtree leftSide rightSide minDist
                                maxDist graphs)
            = bindColumn rightSide 1 (bindColumn leftSide 0 ∅))
    as (-> & -> & ->).
  { unfold built. destruct (minDist =? 0); [|done].
    unfold zeroLength.
    repeat match goal with
           | |- context [if ?b then _ else _] => destruct b
           | |- context [match ?d with LeftToRight => _ | _ => _ end] =>
               destruct d
           end; done. }
  unfold bindColumn.
  destruct (value_ leftSide) as [vl| | |], (value_ rightSide) as [vr| | |];
    repeat case_bool_decide; simpl; try done;
    repeat match goal with
           | H : is_Some _ |- _ => destruct H as [? H]
           | H : _ ∨ _ |- _ => destruct H
           | H : ¬ (_ ∨ _) |- _ => apply Decidable.not_or in H as [??]
           | H : ¬ is_Some _ |- _ => rewrite <- eq_None_not_Some in H
           | H : _ !! _ = _ |- _ => apply lookup_insert_Some in H as [[??]|[??]]
           | H : _ !! _ = _ |- _ => apply lookup_insert_None in H as [??]
           | H : ∅ !! _ = Some _ |- _ => by rewrite lookup_empty in H
           end; simplify_eq; try done; try congruence.
Qed.

(** *** Filling the result table, [fillTableWithHull] *)

(** [Id], the 64-bit [ValueId]. *)
Definition Id : Type := N.

(** Modelled from the spec: [IdTable] is declared in [engine/idTable],
    which is not among the sources.  The spec has it as a "row-major
    table of ValueId" with a column count whose columns are "addressable
    by index": a table is its number of columns and its rows. *)
Record IdTable := {
  numColumns : nat;
  rows : list (list Id);
}.

(** What the table code throws: one of the checks of the engine, or the
    [std::out_of_range] of [at]. *)
Inductive Failure :=
| FailedCheck (e : Exception)
| OutOfRange.

(** An element of the hull, [NodeWithTargets]: a node, the nodes it is
    linked to, the local vocabulary that holds them, and the row of the
    input table (if there is one) that the node came from. *)
Record NodeWithTargets {LocalVocab : Type} := {
  node : Id;
  linkedNodes : list Id;
  localVocab : LocalVocab;
  idTable : option IdTable;
  inputRow : nat;
}.
Arguments NodeWithTargets : clear implicits.

Section Tables.

(** [LocalVocab] with its empty value and [mergeWith], and the content of
    a cell that [emplace_back] has made and nobody has written yet. *)
Context {LocalVocab : Type}.
Variable emptyVocab : LocalVocab.
Variable mergeWith : LocalVocab → LocalVocab → LocalVocab.
Variable uninitialized : Id.

(** Modelled from the spec: [IdTable::emplace_back()] adds a row. *)
Definition emplace_back (table : IdTable) : IdTable :=
  {| numColumns := numColumns table;
     rows := rows table ++ [replicate (numColumns table) uninitialized] |}.

(** Modelled from the spec: [table.at(row, column)], the checked read. *)
Definition at_ (table : IdTable) (row column : nat) : option Id :=
  cells ← rows table !! row; cells !! column.

(** Modelled from the spec: [table(row, column) = value], the unchecked
    write.  Outside the table the source has no defined behaviour; what
    is proved below about the cells written this way is for columns
    inside the table. *)
Definition setCell (table : IdTable) (row column : nat) (value : Id)
  : IdTable :=
  {| numColumns := numColumns table;
     rows := alter (<[column := value]>) row (rows table) |}.

(** The loop of [copyColumns]; [remaining] counts the columns of the
    input that are still to be copied. *)
Fixpoint copyColumnsLoop (remaining inCol outCol : nat)
    (inputTable outputTable : IdTable) (inputRow outputRow : nat)
  : Failure + IdTable :=
  match remaining with
  | O => inr outputTable
  | S remaining =>
      if decide (outCol < numColumns outputTable)%nat then
        match at_ inputTable inputRow inCol,
              at_ outputTable outputRow outCol with
        | Some value, Some _ =>
            copyColumnsLoop remaining (S inCol) (S outCol) inputTable
              (setCell outputTable outputRow outCol value) inputRow outputRow
        | _, _ => inl OutOfRange
        end
      else inr outputTable
  end.

(** [TransitivePathBase::copyColumns]. *)
Definition copyColumns (inputTable outputTable : IdTable)
    (inputRow outputRow : nat) : Failure + IdTable :=
  if decide (numColumns inputTable + 2 = numColumns outputTable)%nat then
    copyColumnsLoop (numColumns inputTable) 0 2 inputTable outputTable
                    inputRow outputRow
  else
    inl (FailedCheck (CorrectnessCheck
                  "inputTable.numColumns() + 2 == outputTable.numColumns()")).

(** The inner loop of [fillTableWithHullImpl]: one row per linked node. *)
Fixpoint fillRows (node : Id) (linkedNodes : list Id)
    (inputView : option IdTable) (inputRow : nat)
    (startSideCol targetSideCol : nat) (table : IdTable) (outputRow : nat)
  : Failure + (IdTable * nat) :=
  match linkedNodes with
  | [] => inr (table, outputRow)
  | linkedNode :: rest =>
      let table := emplace_back table in
      let table := setCell table outputRow startSideCol node in
      let table := setCell table outputRow targetSideCol linkedNode in
      match
        match inputView with
        | Some view => copyColumns view table inputRow outputRow
        | None => inr table
        end
      with
      | inl e => inl e
      | inr table =>
          fillRows node rest inputView inputRow startSideCol targetSideCol
                   table (S outputRow)
      end
  end.

(** What a generator has done when it stops: the values it has yielded,
    and the exception that has ended it, if one has. *)
Definition Generated (A : Type) : Type := list A * option Failure.

(** [TransitivePathBase::fillTableWithHullImpl], for tables whose widths
    are not fixed at compile time.  [width] is [getResultWidth()]. *)
Fixpoint fillTableWithHullLoop (width : nat)
    (hull : list (NodeWithTargets LocalVocab))
    (startSideCol targetSideCol : nat) (yieldOnce : bool)
    (table : IdTable) (outputRow : nat) (mergedVocab : LocalVocab)
  : Generated (IdTable * LocalVocab) :=
  match hull with
  | [] => if yieldOnce then ([(table, mergedVocab)], None) else ([], None)
  | element :: hull =>
      if bool_decide (linkedNodes element = []) then
        ([], Some (FailedCheck (ContractCheck "!linkedNodes.empty()")))
      else
        match fillRows (node element) (linkedNodes element) (idTable element)
                       (inputRow element) startSideCol targetSideCol
                       table outputRow with
        | inl e => ([], Some e)
        | inr (table, outputRow) =>
            if yieldOnce then
              fillTableWithHullLoop width hull startSideCol targetSideCol
                yieldOnce table outputRow
                (mergeWith mergedVocab (localVocab element))
            else
              let '(yielded, failure) :=
                fillTableWithHullLoop width hull startSideCol targetSideCol
                  yieldOnce {| numColumns := width; rows := [] |} 0
                  mergedVocab in
              ((table, localVocab element) :: yielded, failure)
        end
  end.

Definition fillTableWithHullImpl (width : nat)
    (hull : list (NodeWithTargets LocalVocab))
    (startSideCol targetSideCol : nat) (yieldOnce : bool)
  : Generated (IdTable * LocalVocab) :=
  fillTableWithHullLoop width hull startSideCol targetSideCol yieldOnce
    {| numColumns := width; rows := [] |} 0 emptyVocab.

(** The row that belongs to a node and one of its linked nodes: the two
    nodes in their columns, the row of the input from column 2 on. *)
Definition hullRow (width : nat) (startSideCol targetSideCol : nat)
    (node linkedNode : Id) (input : option (list Id)) : list Id :=
  let cells :=
    <[targetSideCol := linkedNode]>
      (<[startSideCol := node]> (replicate width uninitialized)) in
  match input with
  | Some inputCells => take 2 cells ++ inputCells
  | None => cells
  end.

End Tables.

Section TableFacts.

Context {LocalVocab : Type}.
Variable emptyVocab : LocalVocab.
Variable mergeWith : LocalVocab → LocalVocab → LocalVocab.
Variable uninitialized : Id.

(** The table with one row replaced. *)
Definition withRow (table : IdTable) (row : nat) (cells : list Id) : IdTable :=
  {| numColumns := numColumns table;
     rows := <[row := cells]> (rows table) |}.

Lemma setCell_withRow table row cells column value :
  rows table !! row = Some cells →
  setCell table row column value
  = withRow table row (<[column := value]> cells).
Proof.
  intros Hrow. unfold setCell, withRow. f_equal.
  apply list_eq. intros i. rewrite list_lookup_alter.
  destruct (decide (row = i)) as [<-|Hne].
  - rewrite Hrow. simpl. rewrite list_lookup_insert_eq; [done|].
    by eapply lookup_lt_Some.
  - by rewrite list_lookup_insert_ne.
Qed.

Lemma withRow_withRow table row cells cells' :
  withRow (withRow table row cells) row cells' = withRow table row cells'.
Proof. unfold withRow. simpl. f_equal. apply list_insert_insert_eq. Qed.

Lemma withRow_id table row cells :
  rows table !! row = Some cells → withRow table row cells = table.
Proof.
  intros Hrow. destruct table as [n rs]. unfold withRow. simpl in *.
  f_equal. by apply list_insert_id.
Qed.

Lemma copyColumnsLoop_copies remaining :
  ∀ inCol inputTable outputTable inputRow outputRow inputCells cells,
    rows inputTable !! inputRow = Some inputCells →
    length inputCells = numColumns inputTable →
    rows outputTable !! outputRow = Some cells →
    length cells = numColumns outputTable →
    (numColumns inputTable + 2 = numColumns outputTable)%nat →
    (remaining + inCol = numColumns inputTable)%nat →
    copyColumnsLoop remaining inCol (inCol + 2) inputTable outputTable
                    inputRow outputRow
    = inr (withRow outputTable outputRow
             (take (inCol + 2) cells ++ drop inCol inputCells)).
Proof.
  induction remaining as [|remaining IH];
    intros inCol inputTable outputTable inputRow outputRow inputCells cells
           Hin Hlin Hout Hlout Hwidth Hrem; simpl.
  - rewrite take_ge, drop_ge, app_nil_r by lia. by rewrite withRow_id.
  - rewrite decide_True by lia.
    destruct (lookup_lt_is_Some_2 inputCells inCol) as [value Hvalue]; [lia|].
    destruct (lookup_lt_is_Some_2 cells (inCol + 2)) as [old Hold]; [lia|].
    unfold at_ at 1 2. rewrite Hin, Hout. simpl. rewrite Hvalue, Hold.
    rewrite (setCell_withRow _ _ cells) by done.
    change (S (inCol + 2)) with (S inCol + 2)%nat.
    rewrite (IH (S inCol) _ _ _ _ inputCells (<[(inCol + 2)%nat := value]> cells));
      try done.
    + rewrite withRow_withRow. f_equal. f_equal.
      rewrite (drop_S inputCells value inCol) by done.
      change (S inCol + 2)%nat with (S (inCol + 2)).
      rewrite (take_S_r _ _ value).
      * rewrite take_insert_ge by lia. by rewrite <- app_assoc.
      * apply list_lookup_insert_eq. lia.
    + simpl. apply list_lookup_insert_eq. by eapply lookup_lt_Some.
    + by rewrite length_insert.
    + lia.
Qed.

Lemma copyColumns_row inputTable outputTable inputRow outputRow
    inputCells cells :
  (numColumns inputTable + 2 = numColumns outputTable)%nat →
  rows inputTable !! inputRow = Some inputCells →
  length inputCells = numColumns inputTable →
  rows outputTable !! outputRow = Some cells →
  length cells = numColumns outputTable →
  copyColumns inputTable outputTable inputRow outputRow
  = inr {| numColumns := numColumns outputTable;
           rows := <[outputRow := take 2 cells ++ inputCells]>
                     (rows outputTable) |}.
Proof.
  intros Heq Hin Hlin Hout Hlout. unfold copyColumns.
  rewrite decide_True by done.
  by rewrite (copyColumnsLoop_copies _ 0 _ _ _ _ inputCells cells).
Qed.

(** X13: [copyColumns] puts the row of the input behind the first two columns
    of the row of the output and touches no other row; tables whose
    widths do not differ by two fail the correctness check, and a row
    that the input does not have is out of range. *)
Theorem copyColumns_copies inputTable outputTable inputRow outputRow :
  ((numColumns inputTable + 2 ≠ numColumns outputTable)%nat →
   copyColumns inputTable outputTable inputRow outputRow
   = inl (FailedCheck (CorrectnessCheck
                   "inputTable.numColumns() + 2 == outputTable.numColumns()")))
  ∧ ((numColumns inputTable + 2 = numColumns outputTable)%nat →
     (0 < numColumns inputTable)%nat →
     rows inputTable !! inputRow = None →
     copyColumns inputTable outputTable inputRow outputRow = inl OutOfRange)
  ∧ ∀ inputCells cells,
      (numColumns inputTable + 2 = numColumns outputTable)%nat →
      rows inputTable !! inputRow = Some inputCells →
      length inputCells = numColumns inputTable →
      rows outputTable !! outputRow = Some cells →
      length cells = numColumns outputTable →
      copyColumns inputTable outputTable inputRow outputRow
      = inr {| numColumns := numColumns outputTable;
               rows := <[outputRow := take 2 cells ++ inputCells]>
                         (rows outputTable) |}.
Proof.
  unfold copyColumns. split; [|split].
  - intros Hne. by rewrite decide_False.
  - intros Heq Hpos Hnone. rewrite decide_True by done.
    destruct (numColumns inputTable) as [|n]; [lia|]. simpl.
    rewrite decide_True by lia. unfold at_ at 1. by rewrite Hnone.
  - intros inputCells cells Heq Hin Hlin Hout Hlout.
    fold (copyColumns inputTable outputTable inputRow outputRow).
    by apply copyColumns_row.
Qed.

(** A hull element that [fillTableWithHullImpl] can work on for a result
    of [width] columns: it has linked nodes, and its input table, if it
    has one, is two columns narrower than the result and has the row. *)
Definition fillable (width : nat) (element : NodeWithTargets LocalVocab)
  : Prop :=
  linkedNodes element ≠ []
  ∧ match idTable element with
    | Some view =>
        (numColumns view + 2 = width)%nat
        ∧ ∃ inputCells,
            rows view !! inputRow element = Some inputCells
            ∧ length inputCells = numColumns view
    | None => True
    end.

Definition inputCellsOf (element : NodeWithTargets LocalVocab)
  : option (list Id) :=
  view ← idTable element; rows view !! inputRow element.

(** The table of one hull element. *)
Definition tableOf (width startSideCol targetSideCol : nat)
    (element : NodeWithTargets LocalVocab) : IdTable :=
  {| numColumns := width;
     rows := (λ linkedNode,
                hullRow uninitialized width startSideCol targetSideCol
                        (node element) linkedNode (inputCellsOf element))
             <$> linkedNodes element |}.

Lemma fillRows_rows width startSideCol targetSideCol nodeId inputView inputRow
    linked :
  match inputView with
  | Some view =>
      (numColumns view + 2 = width)%nat
      ∧ ∃ inputCells,
          rows view !! inputRow = Some inputCells
          ∧ length inputCells = numColumns view
  | None => True
  end →
  ∀ table,
    numColumns table = width →
    fillRows uninitialized nodeId linked inputView inputRow
             startSideCol targetSideCol table (length (rows table))
    = inr ({| numColumns := width;
              rows := rows table
                      ++ ((λ linkedNode,
                             hullRow uninitialized width startSideCol
                               targetSideCol nodeId linkedNode
                               (view ← inputView; rows view !! inputRow))
                          <$> linked) |},
           (length (rows table) + length linked)%nat).
Proof.
  intros Hview. induction linked as [|linkedNode rest IH]; intros table Hw.
  - simpl. rewrite app_nil_r, Nat.add_0_r. by destruct table; simplify_eq/=.
  - cbn [fillRows].
    set (fresh := replicate (numColumns table) uninitialized).
    set (cells := <[targetSideCol := linkedNode]>
                    (<[startSideCol := nodeId]> fresh)).
    assert (setCell
              (setCell (emplace_back uninitialized table)
                       (length (rows table)) startSideCol nodeId)
              (length (rows table)) targetSideCol linkedNode
            = {| numColumns := width; rows := rows table ++ [cells] |})
      as ->.
    { unfold setCell, emplace_back. simpl. f_equal; [done|].
      rewrite <- (Nat.add_0_r (length (rows table))).
      by rewrite !alter_app_r. }
    assert (length cells = width) as Hcells.
    { unfold cells, fresh. by rewrite !length_insert, length_replicate. }
    assert (match inputView with
            | Some view =>
                copyColumns view
                  {| numColumns := width; rows := rows table ++ [cells] |}
                  inputRow (length (rows table))
            | None => inr {| numColumns := width;
                             rows := rows table ++ [cells] |}
            end
            = inr {| numColumns := width;
                     rows := rows table
                             ++ [hullRow uninitialized width startSideCol
                                   targetSideCol nodeId linkedNode
                                   (view ← inputView; rows view !! inputRow)] |})
      as ->.
    { unfold hullRow. rewrite <- Hw. fold fresh. fold cells.
      destruct inputView as [view|]; simpl; [|done].
      destruct Hview as (Hwidth & inputCells & Hin & Hlin).
      rewrite Hin.
      rewrite (copyColumns_row view _ inputRow (length (rows table))
                 inputCells cells); simpl; try done; try lia.
      - f_equal. f_equal.
        rewrite <- (Nat.add_0_r (length (rows table))).
        by rewrite insert_app_r.
      - rewrite lookup_app_r, Nat.sub_diag by lia. done. }
    set (row := hullRow _ _ _ _ _ _ _).
    pose proof (IH {| numColumns := width; rows := rows table ++ [row] |}
                  eq_refl) as IH'.
    simpl in IH'. rewrite length_app in IH'. simpl in IH'.
    rewrite Nat.add_1_r in IH'. rewrite IH'. simpl.
    rewrite <- app_assoc. do 2 f_equal. lia.
Qed.

Lemma fillRows_element width startSideCol targetSideCol element table :
  fillable width element →
  numColumns table = width →
  fillRows uninitialized (node element) (linkedNodes element)
           (idTable element) (inputRow element) startSideCol targetSideCol
           table (length (rows table))
  = inr ({| numColumns := width;
            rows := rows table
                    ++ rows (tableOf width startSideCol targetSideCol
                                     element) |},
         (length (rows table) + length (linkedNodes element))%nat).
Proof. intros [_ Hview] Hw. by apply fillRows_rows. Qed.

Lemma fillTableWithHullLoop_each width startSideCol targetSideCol hull vocab :
  Forall (fillable width) hull →
  fillTableWithHullLoop mergeWith uninitialized width hull startSideCol
    targetSideCol false {| numColumns := width; rows := [] |} 0 vocab
  = ((λ element, (tableOf width startSideCol targetSideCol element,
                  localVocab element)) <$> hull,
     None).
Proof.
  induction 1 as [|element hull Hfill _ IH]; [done|]. simpl.
  rewrite bool_decide_eq_false_2 by apply Hfill.
  rewrite (fillRows_element width _ _ _ {| numColumns := width; rows := [] |})
    by done.
  by rewrite IH.
Qed.

Lemma fillTableWithHullLoop_once width startSideCol targetSideCol hull :
  Forall (fillable width) hull →
  ∀ table outputRow vocab,
    numColumns table = width →
    outputRow = length (rows table) →
    fillTableWithHullLoop mergeWith uninitialized width hull startSideCol
      targetSideCol true table outputRow vocab
    = ([({| numColumns := width;
            rows := rows table
                    ++ concat ((λ element,
                                  rows (tableOf width startSideCol
                                                targetSideCol element))
                               <$> hull) |},
         foldl mergeWith vocab (localVocab <$> hull))],
       None).
Proof.
  induction 1 as [|element hull Hfill _ IH]; intros table outputRow vocab Hw ->.
  - simpl. rewrite app_nil_r. by destruct table; simplify_eq/=.
  - simpl. rewrite bool_decide_eq_false_2 by apply Hfill.
    rewrite (fillRows_element width) by done.
    rewrite IH; [|done|simpl; by rewrite length_app, length_fmap].
    simpl. by rewrite <- app_assoc.
Qed.

(** X14: The rows of the result: with the two columns inside the table
    and a hull whose elements all have linked nodes and fitting input
    rows, the generator yields one table per element, with one row per
    linked node that holds the node, the linked node and the columns of
    the input row; with [yieldOnce] it yields a single table instead,
    which is these tables one after the other, together with the merged
    local vocabularies. *)
Theorem fillTableWithHullImpl_tables width startSideCol targetSideCol hull :
  (startSideCol < width)%nat →
  (targetSideCol < width)%nat →
  Forall (fillable width) hull →
  fillTableWithHullImpl emptyVocab mergeWith uninitialized width hull
    startSideCol targetSideCol false
  = ((λ element, (tableOf width startSideCol targetSideCol element,
                  localVocab element)) <$> hull,
     None)
  ∧ fillTableWithHullImpl emptyVocab mergeWith uninitialized width hull
      startSideCol targetSideCol true
    = ([({| numColumns := width;
            rows := concat ((λ element,
                               rows (tableOf width startSideCol
                                             targetSideCol element))
                            <$> hull) |},
         foldl mergeWith emptyVocab (localVocab <$> hull))],
       None).
Proof.
  intros _ _ Hhull. unfold fillTableWithHullImpl. split.
  - by apply fillTableWithHullLoop_each.
  - by rewrite (fillTableWithHullLoop_once width _ _ hull Hhull
                  {| numColumns := width; rows := [] |} 0%nat).
Qed.

Lemma fillTableWithHullLoop_unlinked width startSideCol targetSideCol
    good bad rest :
  Forall (fillable width) good →
  linkedNodes bad = [] →
  (∀ vocab,
     fillTableWithHullLoop mergeWith uninitialized width
       (good ++ bad :: rest) startSideCol targetSideCol false
       {| numColumns := width; rows := [] |} 0 vocab
     = ((λ element, (tableOf width startSideCol targetSideCol element,
                     localVocab element)) <$> good,
        Some (FailedCheck (ContractCheck "!linkedNodes.empty()"))))
  ∧ ∀ table outputRow vocab,
      numColumns table = width →
      outputRow = length (rows table) →
      fillTableWithHullLoop mergeWith uninitialized width
        (good ++ bad :: rest) startSideCol targetSideCol true
        table outputRow vocab
      = ([], Some (FailedCheck (ContractCheck "!linkedNodes.empty()"))).
Proof.
  intros Hgood Hbad.
  induction Hgood as [|element good Hfill _ [IH1 IH2]]; simpl.
  - rewrite bool_decide_eq_true_2 by done. done.
  - rewrite bool_decide_eq_false_2 by apply Hfill. split.
    + intros vocab.
      rewrite (fillRows_element width _ _ _
                 {| numColumns := width; rows := [] |}) by done.
      by rewrite IH1.
    + intros table outputRow vocab Hw ->.
      rewrite (fillRows_element width) by done.
      apply IH2; [done|]. simpl. by rewrite length_app, length_fmap.
Qed.

(** X15: A hull element without linked nodes fails the contract check.  The
    tables of the elements before it have been yielded by then; with
    [yieldOnce] nothing is yielded at all. *)
Theorem fillTableWithHullImpl_unlinked
    width startSideCol targetSideCol good bad rest :
  (startSideCol < width)%nat →
  (targetSideCol < width)%nat →
  Forall (fillable width) good →
  linkedNodes bad = [] →
  fillTableWithHullImpl emptyVocab mergeWith uninitialized width
    (good ++ bad :: rest) startSideCol targetSideCol false
  = ((λ element, (tableOf width startSideCol targetSideCol element,
                  localVocab element)) <$> good,
     Some (FailedCheck (ContractCheck "!linkedNodes.empty()")))
  ∧ fillTableWithHullImpl emptyVocab mergeWith uninitialized width
      (good ++ bad :: rest) startSideCol targetSideCol true
    = ([], Some (FailedCheck (ContractCheck "!linkedNodes.empty()"))).
Proof.
  intros _ _ Hgood Hbad. unfold fillTableWithHullImpl.
  destruct (fillTableWithHullLoop_unlinked width startSideCol targetSideCol
              good bad rest Hgood Hbad) as [H1 H2].
  split; [apply H1|].
  by apply (H2 {| numColumns := width; rows := [] |} 0%nat).
Qed.

End TableFacts.

(** *** Binding a side, [bindLeftSide] and [bindRightSide] *)

(** The two classes that derive from [TransitivePathBase]. *)
Inductive Implementation := BinSearch | HashMap.

Record TransitivePath := {
  implementation : Implementation;
  base : TransitivePathBase;
}.

(** Modelled from the spec: [TransitivePathBase::makeTransitivePath] makes
    a [TransitivePathBinSearch] or a [TransitivePathHashMap]; their
    constructors are not among the sources.  By the spec the two
    "satisfy the same contract and are chosen by a runtime flag": the
    object is the base object that [TransitivePathBase]'s constructor
    builds from the same arguments, tagged with its class. *)
Definition makeTransitivePath (qec : option QueryExecutionContext)
    (child : option QueryExecutionTree)
    (leftSide rightSide : TransitivePathSide) (minDist maxDist : N)
    (useBinSearch : bool) (activeGraphs : Graphs) : Fallible TransitivePath :=
  path ← construct qec child leftSide rightSide minDist maxDist activeGraphs;
  mret {| implementation := if useBinSearch then BinSearch else HashMap;
          base := path |}.

Definition without_treeAndCol (side : TransitivePathSide)
  : TransitivePathSide :=
  {| treeAndCol_ := None; subCol_ := subCol_ side;
     value_ := value_ side; outputCol_ := outputCol_ side |}.

(** The two sides of the copy that [bindLeftOrRightSide] makes: the tree
    goes to one side, and a tree that only stood in for it leaves the
    other. *)
Definition rebind (tp : TransitivePathBase) (leftOrRightOp : QueryExecutionTree)
    (inputCol : nat) (isLeft : bool)
  : TransitivePathSide * TransitivePathSide :=
  let lhs := lhs_ tp in
  let rhs := rhs_ tp in
  if isLeft then
    (with_treeAndCol leftOrRightOp inputCol lhs,
     if negb (isVariable rhs) then without_treeAndCol rhs else rhs)
  else
    (if boundVariableIsForEmptyPath_ tp || negb (isVariable lhs)
     then without_treeAndCol lhs else lhs,
     with_treeAndCol leftOrRightOp inputCol rhs).

(** One round of the loop over the columns of the bound tree. *)
Definition addColumn (inputCol : nat)
    (columns : Fallible (gmap SparqlVariable (nat * UndefStatus)))
    (entry : SparqlVariable * (nat * UndefStatus))
  : Fallible (gmap SparqlVariable (nat * UndefStatus)) :=
  columns ← columns;
  let '(variable, (columnIndex, undef)) := entry in
  if bool_decide (columnIndex = inputCol) then mret columns
  else if bool_decide (is_Some (columns !! variable)) then
    throw (CorrectnessCheck "!p->variableColumns_.contains(variable)")
  else
    mret (<[variable :=
              ((columnIndex + if inputCol <? columnIndex then 1 else 2)%nat,
               undef)]> columns).

(** [ql::ranges::min_element]: the first of the cheapest. *)
Fixpoint min_element {A} (best : N * A) (rest : list (N * A)) : A :=
  match rest with
  | [] => best.2
  | candidate :: rest =>
      min_element (if candidate.1 <? best.1 then candidate else best) rest
  end.

Section Binding.

(** What the operator asks of the tree it is bound to, all of
    [QueryExecutionTree] and [Operation]: the variable and the type of a
    column, the column of a variable, all columns, the width, whether a
    column is known to come from the graph; and how a [Filter] with the
    expression [BOUND(?x)] and a sorted tree are made. *)
Variable getVariableAndInfoByColumnIndex
  : QueryExecutionTree → nat → Fallible (SparqlVariable * (nat * UndefStatus)).
Variable getVariableColumn : QueryExecutionTree → SparqlVariable → Fallible nat.
Variable getVariableColumns
  : QueryExecutionTree → gmap SparqlVariable (nat * UndefStatus).
Variable getResultWidthOf : QueryExecutionTree → nat.
Variable originatesFromGraphOrUndef
  : QueryExecutionTree → SparqlVariable → Fallible bool.
Variable makeBoundFilter
  : QueryExecutionContext → QueryExecutionTree → SparqlVariable → string →
    QueryExecutionTree.
Variable createSortedTree : QueryExecutionTree → list nat → QueryExecutionTree.
Variable getSizeEstimate : QueryExecutionTree → N.
Variable getCostEstimateOf : QueryExecutionTree → N.

(** [alternativeSubtrees()] is virtual; each class has its own. *)
Variable alternativeSubtrees : TransitivePath → list QueryExecutionTree.

(** [TransitivePathBase::matchWithKnowledgeGraph]; the new value of
    [inputCol] comes first. *)
Definition matchWithKnowledgeGraph (tp : TransitivePathBase) (inputCol : nat)
    (leftOrRightOp : QueryExecutionTree) : Fallible (nat * QueryExecutionTree) :=
  '(originalVar, info) ← getVariableAndInfoByColumnIndex leftOrRightOp inputCol;
  if 0 <? minDist_ tp then mret (inputCol, leftOrRightOp)
  else
    leftOrRightOp ←
      match info.2 with
      | PossiblyUndefined =>
          let filtered :=
            makeBoundFilter (executionContext tp) leftOrRightOp originalVar
              ("BOUND(" +:+ _name originalVar +:+ ")") in
          column ← getVariableColumn filtered originalVar;
          if bool_decide (inputCol = column) then mret filtered
          else throw (CorrectnessCheck
                        "inputCol == leftOrRightOp->getVariableColumn(originalVar)")
      | AlwaysDefined => mret leftOrRightOp
      end;
    fromGraph ← originatesFromGraphOrUndef leftOrRightOp originalVar;
    if negb fromGraph then
      let joined :=
        Join leftOrRightOp
             (makeEmptyPathSide (activeGraphs_ tp) (Some originalVar))
             inputCol 0 in
      column ← getVariableColumn joined originalVar;
      mret (column, joined)
    else mret (inputCol, leftOrRightOp).

(** [TransitivePathBase::bindLeftOrRightSide], from the copy of the two
    sides on: [leftOrRightOp] has been matched with the graph and
    sorted.  The candidates are in the order of [candidates]; the loop
    over [getVariableColumns()], a hash map, is a fold over its entries
    (their keys differ, so that the order does not show).  The new width
    is [resultWidth_ + (getResultWidth() - 1)] in [size_t]; the
    constructor has set [resultWidth_] to 2, and the sum is taken before
    the 1 is subtracted, which is the same number for widths below
    [2^64 - 2]. *)
Definition bindSorted (this : TransitivePath)
    (leftOrRightOp : QueryExecutionTree) (inputCol : nat) (isLeft : bool)
  : Fallible TransitivePath :=
  let tp := base this in
  let '(lhs, rhs) := rebind tp leftOrRightOp inputCol isLeft in
  let useBinSearch :=
    match implementation this with BinSearch => true | HashMap => false end in
  let candidate subtree :=
    makeTransitivePath (Some (executionContext tp)) (Some subtree)
      lhs rhs (minDist_ tp) (maxDist_ tp) useBinSearch None in
  let withCost (candidate : TransitivePath) :=
    cost ← getCostEstimate getSizeEstimate getCostEstimateOf (base candidate);
    mret (cost, candidate) in
  first ← candidate (subtree_ tp);
  others ← mapM candidate (alternativeSubtrees this);
  first ← withCost first;
  others ← mapM withCost others;
  let p := min_element first others in
  columns ←
    foldl (addColumn inputCol) (mret (variableColumns_ (base p)))
          (map_to_list (getVariableColumns leftOrRightOp));
  mret {| implementation := implementation p;
          base :=
            {| executionContext := executionContext (base p);
               subtree_ := subtree_ (base p);
               lhs_ := lhs_ (base p); rhs_ := rhs_ (base p);
               minDist_ := minDist_ (base p);
               maxDist_ := maxDist_ (base p);
               activeGraphs_ := activeGraphs_ (base p);
               variableColumns_ := columns;
               boundVariableIsForEmptyPath_ :=
                 boundVariableIsForEmptyPath_ (base p);
               resultWidth_ :=
                 (resultWidth_ (base p) + getResultWidthOf leftOrRightOp
                  - 1)%nat |} |}.

(** [TransitivePathBase::bindLeftOrRightSide]. *)
Definition bindLeftOrRightSide (this : TransitivePath)
    (leftOrRightOp : QueryExecutionTree) (inputCol : nat) (isLeft : bool)
  : Fallible TransitivePath :=
  '(inputCol, leftOrRightOp) ←
    matchWithKnowledgeGraph (base this) inputCol leftOrRightOp;
  bindSorted this (createSortedTree leftOrRightOp [inputCol]) inputCol isLeft.

(** [bindLeftSide] and [bindRightSide]. *)
Definition bindLeftSide (this : TransitivePath) (leftop : QueryExecutionTree)
    (inputCol : nat) : Fallible TransitivePath :=
  bindLeftOrRightSide this leftop inputCol true.

Definition bindRightSide (this : TransitivePath) (rightop : QueryExecutionTree)
    (inputCol : nat) : Fallible TransitivePath :=
  bindLeftOrRightSide this rightop inputCol false.

End Binding.

Section BindingFacts.

Variable getVariableColumns
  : QueryExecutionTree → gmap SparqlVariable (nat * UndefStatus).
Variable getResultWidthOf : QueryExecutionTree → nat.
Variable getSizeEstimate : QueryExecutionTree → N.
Variable getCostEstimateOf : QueryExecutionTree → N.
Variable alternativeSubtrees : TransitivePath → list QueryExecutionTree.

Local Abbreviation Columns := (gmap SparqlVariable (nat * UndefStatus)).

(** Where a column of the bound tree goes: behind the two columns of the
    path, without the input column. *)
Definition shifted (inputCol columnIndex : nat) : nat :=
  (columnIndex + if inputCol <? columnIndex then 1 else 2)%nat.

Lemma addColumn_step inputCol (columns : Columns) v c u :
  addColumn inputCol (inr columns) (v, (c, u))
  = if bool_decide (c = inputCol) then inr columns
    else if bool_decide (is_Some (columns !! v)) then
      inl (CorrectnessCheck "!p->variableColumns_.contains(variable)")
    else inr (<[v := (shifted inputCol c, u)]> columns).
Proof. done. Qed.

Lemma addColumn_failed inputCol e l :
  foldl (addColumn inputCol) (inl e) l = inl e.
Proof. induction l as [|[v [c u]] l IH]; [done|]. simpl. apply IH. Qed.

Lemma addColumn_clash inputCol (l : list (SparqlVariable * (nat * UndefStatus)))
    (columns : Columns) v c u :
  (v, (c, u)) ∈ l → c ≠ inputCol → is_Some (columns !! v) →
  foldl (addColumn inputCol) (inr columns) l
  = inl (CorrectnessCheck "!p->variableColumns_.contains(variable)").
Proof.
  revert columns. induction l as [|[v' [c' u']] l IH]; intros columns Hin Hc Hv.
  { by apply elem_of_nil in Hin. }
  cbn [foldl]. rewrite addColumn_step.
  apply elem_of_cons in Hin as [[= <- <- <-]|Hin].
  - rewrite bool_decide_eq_false_2, bool_decide_eq_true_2 by done.
    apply addColumn_failed.
  - case_bool_decide; [by apply IH|].
    case_bool_decide; [apply addColumn_failed|].
    apply IH; [done..|].
    destruct (decide (v' = v)) as [->|Hne].
    + rewrite lookup_insert_eq. by eexists.
    + by rewrite lookup_insert_ne.
Qed.

Lemma addColumn_columns inputCol (l : list (SparqlVariable * (nat * UndefStatus))) :
  NoDup l.*1 →
  ∀ columns : Columns,
    (∀ v c u, (v, (c, u)) ∈ l → c ≠ inputCol → columns !! v = None) →
    ∃ columns' : Columns,
      foldl (addColumn inputCol) (inr columns) l = inr columns'
      ∧ ∀ v x,
          columns' !! v = Some x
          ↔ columns !! v = Some x
            ∨ ∃ c u, (v, (c, u)) ∈ l ∧ c ≠ inputCol
                     ∧ x = (shifted inputCol c, u).
Proof.
  induction l as [|[v' [c' u']] l IH]; intros Hnodup columns Hfree.
  { exists columns. split; [done|]. intros v x. split; [by left|].
    intros [?|(c & u & []%elem_of_nil & _)]. done. }
  apply NoDup_cons in Hnodup as [Hv' Hnodup]. simpl in Hv'.
  cbn [foldl]. rewrite addColumn_step.
  case_bool_decide as Hc.
  - destruct (IH Hnodup columns) as (columns' & -> & Hspec).
    { intros v c u Hin. apply (Hfree v c u). by right. }
    exists columns'. split; [done|]. intros v x. rewrite Hspec.
    split; (intros [?|(c & u & Hin & Hne & ->)]; [by left|right]);
      exists c, u.
    + split; [by right|done].
    + apply elem_of_cons in Hin as [[= -> -> ->]|Hin]; done.
  - rewrite bool_decide_eq_false_2.
    2:{ rewrite (Hfree v' c' u'); [by intros []|by left|done]. }
    destruct (IH Hnodup (<[v' := (shifted inputCol c', u')]> columns))
      as (columns' & -> & Hspec).
    { intros v c u Hin Hne. rewrite lookup_insert_ne.
      - apply (Hfree v c u); [by right|done].
      - intros ->. apply Hv'. apply list_elem_of_fmap. by exists (v, (c, u)). }
    exists columns'. split; [done|]. intros v x. rewrite Hspec.
    split.
    + intros [Hl|(c & u & Hin & Hne & ->)].
      * apply lookup_insert_Some in Hl as [[<- <-]|[_ Hl]]; [|by left].
        right. exists c', u'. split; [by left|done].
      * right. exists c, u. split; [by right|done].
    + intros [Hl|(c & u & Hin & Hne & ->)].
      * left. rewrite lookup_insert_ne; [done|]. intros <-.
        rewrite (Hfree v' c' u') in Hl; [done|by left|done].
      * apply elem_of_cons in Hin as [[= -> -> ->]|Hin].
        -- left. by rewrite lookup_insert_eq.
        -- right. by exists c, u.
Qed.

Lemma Fallible_bind_inr {A B} (x : A) (f : A → Fallible B) :
  (inr x ≫= f) = f x.
Proof. done. Qed.

Lemma Fallible_bind_mret {A B} (x : A) (f : A → Fallible B) :
  (mret x ≫= f) = f x.
Proof. done. Qed.

Lemma mapM_total {A B} (f : A → Fallible B) (g : A → B) l :
  (∀ x, f x = inr (g x)) → mapM f l = inr (g <$> l).
Proof.
  intros Hf. induction l as [|x l IH]; [done|].
  simpl. rewrite Hf. simpl. rewrite IH. done.
Qed.

Lemma getSizeEstimateBeforeLimit_total tp :
  ∃ n, getSizeEstimateBeforeLimit getSizeEstimate tp = inr n.
Proof.
  unfold getSizeEstimateBeforeLimit.
  destruct (isVariable (lhs_ tp)), (isVariable (rhs_ tp)); simpl;
    try by eexists.
  destruct (treeAndCol_ (lhs_ tp)) as [[]|]; [by eexists|].
  destruct (treeAndCol_ (rhs_ tp)) as [[]|]; by eexists.
Qed.

(** The cost estimate as a number: no check fires. *)
Definition costOf (tp : TransitivePathBase) : N :=
  match getCostEstimate getSizeEstimate getCostEstimateOf tp with
  | inr cost => cost
  | inl _ => 0
  end.

Lemma getCostEstimate_costOf tp :
  getCostEstimate getSizeEstimate getCostEstimateOf tp = inr (costOf tp).
Proof.
  unfold costOf, getCostEstimate.
  by destruct (getSizeEstimateBeforeLimit_total tp) as [n ->].
Qed.

Lemma min_element_cheapest {A} (best : N * A) rest :
  ∃ cost,
    (cost, min_element best rest) ∈ best :: rest
    ∧ ∀ candidate, candidate ∈ best :: rest → cost ≤ candidate.1.
Proof.
  revert best. induction rest as [|next rest IH]; intros [cost x].
  { exists cost. split; [by left|]. intros c ->%list_elem_of_singleton.
    simpl. lia. }
  simpl. destruct (next.1 <? cost) eqn:Hlt.
  - destruct (IH next) as (least & Hin & Hmin). exists least.
    split; [by right|].
    intros c [->|Hc]%elem_of_cons; [|by apply Hmin].
    apply N.ltb_lt in Hlt. simpl. specialize (Hmin next). 
    assert (least ≤ next.1) by (apply Hmin; by left). lia.
  - destruct (IH (cost, x)) as (least & Hin & Hmin). exists least. split.
    + apply elem_of_cons in Hin as [Hin|Hin]; [|by do 2 right].
      rewrite Hin. by left.
    + intros c [->|[->|Hc]%elem_of_cons]%elem_of_cons.
      * apply Hmin. by left.
      * apply N.ltb_ge in Hlt.
        assert (least ≤ (cost, x).1) by (apply Hmin; by left).
        simpl in *. lia.
      * apply Hmin. by right.
Qed.

(** The copy that [bindSorted] makes over the subtree [subtree]. *)
Definition candidateOver (this : TransitivePath)
    (leftOrRightOp : QueryExecutionTree) (inputCol : nat) (isLeft : bool)
    (subtree : QueryExecutionTree) : TransitivePath :=
  let tp := base this in
  {| implementation := implementation this;
     base := built (executionContext tp) subtree
               (rebind tp leftOrRightOp inputCol isLeft).1
               (rebind tp leftOrRightOp inputCol isLeft).2
               (minDist_ tp) (maxDist_ tp) None |}.

Lemma bindSorted_cases this leftOrRightOp inputCol isLeft :
  ∃ subtree,
    subtree ∈ subtree_ (base this) :: alternativeSubtrees this
    ∧ (∀ other,
         other ∈ subtree_ (base this) :: alternativeSubtrees this →
         costOf (base (candidateOver this leftOrRightOp inputCol isLeft
                                     subtree))
         ≤ costOf (base (candidateOver this leftOrRightOp inputCol isLeft
                                       other)))
    ∧ bindSorted getVariableColumns getResultWidthOf getSizeEstimate
        getCostEstimateOf alternativeSubtrees this leftOrRightOp inputCol
        isLeft
      = (columns ←
           foldl (addColumn inputCol)
             (inr (variableColumns_
                     (base (candidateOver this leftOrRightOp inputCol isLeft
                                          subtree))))
             (map_to_list (getVariableColumns leftOrRightOp));
         let p := base (candidateOver this leftOrRightOp inputCol isLeft
                                      subtree) in
         mret {| implementation := implementation this;
                 base :=
                   {| executionContext := executionContext p;
                      subtree_ := subtree_ p;
                      lhs_ := lhs_ p; rhs_ := rhs_ p;
                      minDist_ := minDist_ p; maxDist_ := maxDist_ p;
                      activeGraphs_ := activeGraphs_ p;
                      variableColumns_ := columns;
                      boundVariableIsForEmptyPath_ :=
                        boundVariableIsForEmptyPath_ p;
                      resultWidth_ :=
                        (resultWidth_ p + getResultWidthOf leftOrRightOp
                         - 1)%nat |} |}).
Proof.
  unfold bindSorted.
  destruct (rebind (base this) leftOrRightOp inputCol isLeft)
    as [lhs rhs] eqn:Hrebind.
  cbv beta iota zeta.
  set (candidate := candidateOver this leftOrRightOp inputCol isLeft).
  assert (∀ subtree,
            makeTransitivePath (Some (executionContext (base this)))
              (Some subtree) lhs rhs (minDist_ (base this))
              (maxDist_ (base this))
              match implementation this with
              | BinSearch => true
              | HashMap => false
              end None
            = inr (candidate subtree)) as Hmake.
  { intros subtree. unfold candidate, candidateOver, makeTransitivePath.
    rewrite Hrebind. simpl. unfold built.
    destruct (if minDist_ (base this) =? 0 then _ else _) as [[[l r] m] f].
    simpl. by destruct (implementation this). }
  rewrite Hmake, Fallible_bind_inr.
  rewrite (mapM_total _ candidate), Fallible_bind_inr by done.
  rewrite getCostEstimate_costOf, Fallible_bind_inr, Fallible_bind_mret.
  rewrite (mapM_total _ (λ c, (costOf (base c), c))), Fallible_bind_inr.
  2:{ intros c. by rewrite getCostEstimate_costOf. }
  set (first := (costOf (base (candidate (subtree_ (base this)))),
                 candidate (subtree_ (base this)))).
  set (others := (λ c, (costOf (base c), c))
                 <$> (candidate <$> alternativeSubtrees this)).
  destruct (min_element_cheapest first others) as (least & Hin & Hmin).
  assert (∀ entry,
            entry ∈ first :: others
            ↔ ∃ subtree,
                subtree ∈ subtree_ (base this) :: alternativeSubtrees this
                ∧ entry = (costOf (base (candidate subtree)),
                           candidate subtree)) as Hentries.
  { intros entry. unfold first, others. split.
    - intros [->|Hin']%elem_of_cons.
      + exists (subtree_ (base this)). split; [by left|done].
      + apply list_elem_of_fmap in Hin' as (c & -> & Hc).
        apply list_elem_of_fmap in Hc as (subtree & -> & Hs).
        exists subtree. split; [by right|done].
    - intros (subtree & [->|Hs]%elem_of_cons & ->); [by left|right].
      apply list_elem_of_fmap. exists (candidate subtree). split; [done|].
      apply list_elem_of_fmap. by exists subtree. }
  apply Hentries in Hin as (subtree & Hsubtree & Heq).
  pose proof (f_equal fst Heq) as Hleast. pose proof (f_equal snd Heq) as Hp.
  cbn [fst snd] in Hleast, Hp.
  exists subtree. split; [done|]. split.
  - intros other Hother. rewrite <- Hleast.
    apply (Hmin (costOf (base (candidate other)), candidate other)).
    apply Hentries. by exists other.
  - rewrite Hp. done.
Qed.

(** The columns that the constructor gives to the variables of the two
    sides. *)
Definition sideColumns (lhs rhs : TransitivePathSide) : Columns :=
  bindColumn rhs 1 (bindColumn lhs 0 ∅).

Lemma sideColumns_lookup lhs rhs v x :
  sideColumns lhs rhs !! v = Some x
  ↔ (value_ rhs = TCVariable v ∧ x = (1%nat, AlwaysDefined))
    ∨ (value_ lhs = TCVariable v ∧ value_ rhs ≠ TCVariable v
       ∧ x = (0%nat, AlwaysDefined)).
Proof.
  unfold sideColumns, bindColumn, makeAlwaysDefinedColumn.
  destruct (value_ lhs) as [vl| | |], (value_ rhs) as [vr| | |];
    rewrite ?lookup_insert_Some, ?lookup_empty;
    split; intros H;
    repeat match goal with
           | H : _ ∨ _ |- _ => destruct H
           | H : _ ∧ _ |- _ => destruct H
           end; simplify_eq; try done; auto.
  - right. split; [done|]. split; [congruence|done].
  - right. split; [congruence|]. by left.
Qed.

Lemma rebind_values tp leftOrRightOp inputCol isLeft :
  value_ (rebind tp leftOrRightOp inputCol isLeft).1 = value_ (lhs_ tp)
  ∧ value_ (rebind tp leftOrRightOp inputCol isLeft).2 = value_ (rhs_ tp).
Proof.
  unfold rebind. destruct isLeft; simpl.
  - by destruct (negb _).
  - by destruct (_ || _).
Qed.

Lemma bindColumn_value side side' column columns :
  value_ side = value_ side' →
  bindColumn side column columns = bindColumn side' column columns.
Proof. unfold bindColumn. by intros ->. Qed.

Lemma candidateOver_columns this leftOrRightOp inputCol isLeft subtree :
  variableColumns_ (base (candidateOver this leftOrRightOp inputCol isLeft
                                        subtree))
  = sideColumns (lhs_ (base this)) (rhs_ (base this))
  ∧ resultWidth_ (base (candidateOver this leftOrRightOp inputCol isLeft
                                      subtree)) = 2%nat.
Proof.
  unfold candidateOver, built. simpl.
  destruct (rebind_values (base this) leftOrRightOp inputCol isLeft)
    as [Hl Hr].
  destruct (if minDist_ (base this) =? 0 then _ else _) as [[[l r] m] f].
  simpl. split; [|done]. unfold sideColumns.
  by rewrite (bindColumn_value _ _ _ _ Hr), (bindColumn_value _ _ _ _ Hl).
Qed.

(** What [bindSorted] returns, when it returns. *)
Lemma bindSorted_result this leftOrRightOp inputCol isLeft result :
  bindSorted getVariableColumns getResultWidthOf getSizeEstimate
    getCostEstimateOf alternativeSubtrees this leftOrRightOp inputCol isLeft
  = inr result →
  ∃ subtree columns,
    subtree ∈ subtree_ (base this) :: alternativeSubtrees this
    ∧ (∀ other,
         other ∈ subtree_ (base this) :: alternativeSubtrees this →
         costOf (base (candidateOver this leftOrRightOp inputCol isLeft
                                     subtree))
         ≤ costOf (base (candidateOver this leftOrRightOp inputCol isLeft
                                       other)))
    ∧ foldl (addColumn inputCol)
        (inr (sideColumns (lhs_ (base this)) (rhs_ (base this))))
        (map_to_list (getVariableColumns leftOrRightOp)) = inr columns
    ∧ implementation result = implementation this
    ∧ variableColumns_ (base result) = columns
    ∧ resultWidth_ (base result) = (getResultWidthOf leftOrRightOp + 1)%nat
    ∧ subtree_ (base result) = subtree
    ∧ lhs_ (base result)
      = lhs_ (base (candidateOver this leftOrRightOp inputCol isLeft subtree))
    ∧ rhs_ (base result)
      = rhs_ (base (candidateOver this leftOrRightOp inputCol isLeft subtree))
    ∧ minDist_ (base result)
      = minDist_ (base (candidateOver this leftOrRightOp inputCol isLeft
                                      subtree))
    ∧ boundVariableIsForEmptyPath_ (base result)
      = boundVariableIsForEmptyPath_
          (base (candidateOver this leftOrRightOp inputCol isLeft subtree)).
Proof.
  destruct (bindSorted_cases this leftOrRightOp inputCol isLeft)
    as (subtree & Hsubtree & Hcheap & ->).
  destruct (candidateOver_columns this leftOrRightOp inputCol isLeft subtree)
    as [-> Hwidth].
  destruct (foldl _ _ _) as [e|columns] eqn:Hfold; [done|].
  rewrite Fallible_bind_inr. intros [= <-].
  exists subtree, columns.
  split; [done|]. split; [done|]. split; [done|]. split; [done|].
  split; [done|]. split.
  { cbn [base resultWidth_].
    change (built _ _ _ _ _ _ _)
      with (base (candidateOver this leftOrRightOp inputCol isLeft subtree)).
    rewrite Hwidth. lia. }
  split; [|done]. unfold candidateOver, built. simpl.
  by destruct (if minDist_ (base this) =? 0 then _ else _) as [[[l r] m] f].
Qed.

Lemma columns_of_map_to_list inputCol (columns0 : Columns) (m : Columns) :
  (∀ v c u, m !! v = Some (c, u) → c ≠ inputCol → columns0 !! v = None) →
  ∃ columns' : Columns,
    foldl (addColumn inputCol) (inr columns0) (map_to_list m) = inr columns'
    ∧ ∀ v x,
        columns' !! v = Some x
        ↔ columns0 !! v = Some x
          ∨ ∃ c u, m !! v = Some (c, u) ∧ c ≠ inputCol
                   ∧ x = (shifted inputCol c, u).
Proof.
  intros Hfree.
  destruct (addColumn_columns inputCol (map_to_list m)
              (NoDup_fst_map_to_list m) columns0)
    as (columns' & Hfold & Hspec).
  { intros v c u Hin%elem_of_map_to_list. by apply (Hfree v c u). }
  exists columns'. split; [done|]. intros v x. rewrite Hspec.
  split; (intros [?|(c & u & Hin & ?)]; [by left|right]); exists c, u.
  - by apply elem_of_map_to_list in Hin.
  - split; [|done]. by apply elem_of_map_to_list.
Qed.

Lemma columns_clash_or_free inputCol (columns0 m : Columns) :
  (∃ v c u, m !! v = Some (c, u) ∧ c ≠ inputCol ∧ is_Some (columns0 !! v))
  ∨ (∀ v c u, m !! v = Some (c, u) → c ≠ inputCol → columns0 !! v = None).
Proof.
  induction m as [|v [c u] m Hv IH] using map_ind.
  { right. intros v c u. by rewrite lookup_empty. }
  destruct IH as [(v' & c' & u' & Hl & Hc & Hsome)|Hfree].
  { left. exists v', c', u'. split; [|done].
    rewrite lookup_insert_ne; [done|]. intros ->. by rewrite Hv in Hl. }
  destruct (decide (c = inputCol)) as [->|Hc].
  { right. intros v' c' u' [[-> [= <- <-]]|[_ Hl]]%lookup_insert_Some Hne;
      [done|by apply (Hfree v' c' u')]. }
  destruct (columns0 !! v) as [x|] eqn:Hx.
  - left. exists v, c, u. rewrite lookup_insert_eq, Hx. by eauto.
  - right. intros v' c' u' [[-> [= <- <-]]|[_ Hl]]%lookup_insert_Some Hne;
      [done|by apply (Hfree v' c' u')].
Qed.

(* The column map of a bound operator: the variable of the left side in
    column 0, the one of the right side in column 1, and every other
    column of the bound tree behind them in the order of the tree, the
    input column left out.  The result is one column narrower than the
    tree plus the two of the path.  The operator forgets the columns of a
    tree that was bound before. *)
Lemma bindSorted_columns this leftOrRightOp inputCol isLeft result :
  bindSorted getVariableColumns getResultWidthOf getSizeEstimate
    getCostEstimateOf alternativeSubtrees this leftOrRightOp inputCol isLeft
  = inr result →
  resultWidth_ (base result) = (getResultWidthOf leftOrRightOp + 1)%nat
  ∧ ∀ v x,
      variableColumns_ (base result) !! v = Some x
      ↔ (value_ (rhs_ (base this)) = TCVariable v
         ∧ x = (1%nat, AlwaysDefined))
        ∨ (value_ (lhs_ (base this)) = TCVariable v
           ∧ value_ (rhs_ (base this)) ≠ TCVariable v
           ∧ x = (0%nat, AlwaysDefined))
        ∨ ∃ c u,
            getVariableColumns leftOrRightOp !! v = Some (c, u)
            ∧ c ≠ inputCol
            ∧ x = ((c + if inputCol <? c then 1 else 2)%nat, u).
Proof.
  intros (subtree & columns & _ & _ & Hfold & _ & Hcolumns & Hwidth & _)
    %bindSorted_result.
  split; [done|]. rewrite Hcolumns.
  destruct (columns_clash_or_free inputCol
              (sideColumns (lhs_ (base this)) (rhs_ (base this)))
              (getVariableColumns leftOrRightOp))
    as [(v & c & u & Hl & Hc & Hsome)|Hfree].
  { apply elem_of_map_to_list in Hl.
    by rewrite (addColumn_clash _ _ _ v c u) in Hfold. }
  destruct (columns_of_map_to_list inputCol _ _ Hfree)
    as (columns' & Hfold' & Hspec).
  rewrite Hfold' in Hfold. injection Hfold as <-.
  intros v x. rewrite Hspec, sideColumns_lookup. unfold shifted. tauto.
Qed.

(* Binding fails when the tree has, besides its input column, a column
    for the variable of one of the two sides: the copy has that variable
    already, and the correctness check says so. *)
Lemma bindSorted_clash this leftOrRightOp inputCol isLeft v c u :
  getVariableColumns leftOrRightOp !! v = Some (c, u) →
  c ≠ inputCol →
  value_ (lhs_ (base this)) = TCVariable v
  ∨ value_ (rhs_ (base this)) = TCVariable v →
  bindSorted getVariableColumns getResultWidthOf getSizeEstimate
    getCostEstimateOf alternativeSubtrees this leftOrRightOp inputCol isLeft
  = inl (CorrectnessCheck "!p->variableColumns_.contains(variable)").
Proof.
  intros Hl Hc Hside.
  destruct (bindSorted_cases this leftOrRightOp inputCol isLeft)
    as (subtree & _ & _ & ->).
  destruct (candidateOver_columns this leftOrRightOp inputCol isLeft subtree)
    as [-> _].
  rewrite (addColumn_clash _ _ _ v c u); [done| |done|].
  - by apply elem_of_map_to_list.
  - destruct (decide (value_ (rhs_ (base this)) = TCVariable v)) as [Hr|Hr].
    + exists (1%nat, AlwaysDefined). apply sideColumns_lookup. by left.
    + exists (0%nat, AlwaysDefined). apply sideColumns_lookup. right.
      destruct Hside; done.
Qed.

(* Binding keeps the column map sound: if the tree gives different
    variables different columns, all inside its width, then so does the
    bound operator. *)
Lemma bindSorted_layout this leftOrRightOp inputCol isLeft result :
  (inputCol < getResultWidthOf leftOrRightOp)%nat →
  (∀ v c u, getVariableColumns leftOrRightOp !! v = Some (c, u) →
            (c < getResultWidthOf leftOrRightOp)%nat) →
  (∀ v1 v2 c u1 u2,
     getVariableColumns leftOrRightOp !! v1 = Some (c, u1) →
     getVariableColumns leftOrRightOp !! v2 = Some (c, u2) → v1 = v2) →
  bindSorted getVariableColumns getResultWidthOf getSizeEstimate
    getCostEstimateOf alternativeSubtrees this leftOrRightOp inputCol isLeft
  = inr result →
  (∀ v c u, variableColumns_ (base result) !! v = Some (c, u) →
            (c < resultWidth_ (base result))%nat)
  ∧ ∀ v1 v2 c u1 u2,
      variableColumns_ (base result) !! v1 = Some (c, u1) →
      variableColumns_ (base result) !! v2 = Some (c, u2) → v1 = v2.
Proof.
  intros Hinput Hrange Hinj
    (subtree & columns & _ & _ & Hfold & _ & Hcolumns & Hwidth & _)
    %bindSorted_result.
  rewrite Hcolumns, Hwidth.
  destruct (columns_clash_or_free inputCol
              (sideColumns (lhs_ (base this)) (rhs_ (base this)))
              (getVariableColumns leftOrRightOp))
    as [(v & c & u & Hl & Hc & Hsome)|Hfree].
  { apply elem_of_map_to_list in Hl.
    by rewrite (addColumn_clash _ _ _ v c u) in Hfold. }
  destruct (columns_of_map_to_list inputCol _ _ Hfree)
    as (columns' & Hfold' & Hspec).
  rewrite Hfold' in Hfold. injection Hfold as <-.
  assert (∀ v c u,
            columns' !! v = Some (c, u) →
            ((c = 1%nat ∧ value_ (rhs_ (base this)) = TCVariable v)
             ∨ (c = 0%nat ∧ value_ (lhs_ (base this)) = TCVariable v
                ∧ value_ (rhs_ (base this)) ≠ TCVariable v))
            ∨ ∃ c', getVariableColumns leftOrRightOp !! v = Some (c', u)
                    ∧ c' ≠ inputCol ∧ c = shifted inputCol c'
                    ∧ (2 ≤ c)%nat) as Hcases.
  { intros v c u [Hside|(c' & u' & Hl & Hne & [= -> ->])]%Hspec.
    - apply sideColumns_lookup in Hside
        as [[? [= -> _]]|(? & ? & [= -> _])]; left; auto.
    - right. exists c'. repeat split; try done. unfold shifted.
      destruct (Nat.ltb_spec inputCol c'); lia. }
  split.
  - intros v c u [[[-> _]|[-> _]]|(c' & Hl & Hne & -> & _)]%Hcases;
      [lia..|].
    apply Hrange in Hl. unfold shifted.
    destruct (Nat.ltb_spec inputCol c'); lia.
  - intros v1 v2 c u1 u2 H1%Hcases H2%Hcases.
    destruct H1 as [[[-> H1]|(-> & H1 & H1')]|(c1 & Hl1 & Hne1 & -> & Hge1)],
             H2 as [[[E2 H2]|(E2 & H2 & H2')]|(c2 & Hl2 & Hne2 & E2 & Hge2)];
      try lia; try congruence.
    apply (Hinj v1 v2 c1 u1 u2); [done|].
    replace c1 with c2; [done|]. unfold shifted in E2.
    destruct (Nat.ltb_spec inputCol c1), (Nat.ltb_spec inputCol c2); lia.
Qed.

Lemma isVariable_without_treeAndCol side :
  isVariable (without_treeAndCol side) = isVariable side.
Proof. done. Qed.

Lemma isVariable_with_treeAndCol tree col side :
  isVariable (with_treeAndCol tree col side) = isVariable side.
Proof. done. Qed.

(** The constructor adds nothing to two sides of which one is a variable
    with a tree, if the other is not a fixed term with a tree. *)
Lemma built_bound context subtree lhs rhs minDist maxDist graphs :
  (isVariable lhs = true ∧ is_Some (treeAndCol_ lhs)
   ∧ (isVariable rhs = false → treeAndCol_ rhs = None))
  ∨ (isVariable rhs = true ∧ is_Some (treeAndCol_ rhs)
     ∧ (isVariable lhs = false → treeAndCol_ lhs = None)) →
  built context subtree lhs rhs minDist maxDist graphs
  = {| executionContext := context; subtree_ := subtree;
       lhs_ := with_outputCol 0 lhs; rhs_ := with_outputCol 1 rhs;
       minDist_ := minDist; maxDist_ := maxDist; activeGraphs_ := graphs;
       variableColumns_ := sideColumns lhs rhs;
       boundVariableIsForEmptyPath_ := false; resultWidth_ := 2 |}.
Proof.
  intros Hbound. unfold built.
  destruct (minDist =? 0) eqn:Hm; [|done].
  apply N.eqb_eq in Hm as ->.
  assert (zeroLength graphs lhs rhs = (lhs, rhs, 0, false)) as ->; [|done].
  unfold zeroLength, isUnboundVariable, decideDirection, isBoundVariable.
  destruct Hbound as [(Hv & [t Ht] & Hother)|(Hv & [t Ht] & Hother)];
    rewrite Hv, Ht; simpl.
  - done.
  - rewrite !andb_false_r.
    destruct (isVariable lhs) eqn:Hl; simpl.
    + by destruct (bool_decide (is_Some (treeAndCol_ lhs))).
    + by rewrite Hother.
Qed.

(* Binding a side that is a variable puts the tree on that side and
    nowhere else: the other side keeps a tree only if it is a variable
    that was bound before, a tree that stood in for a fixed term or for
    the empty path is gone, and the new constructor call adds none.  The
    subtree is the cheapest of the subtree and its alternatives. *)
Lemma bindSorted_sides this leftOrRightOp inputCol (isLeft : bool) result :
  isVariable (if isLeft then lhs_ (base this) else rhs_ (base this)) = true →
  bindSorted getVariableColumns getResultWidthOf getSizeEstimate
    getCostEstimateOf alternativeSubtrees this leftOrRightOp inputCol isLeft
  = inr result →
  let bound := if isLeft then lhs_ (base result) else rhs_ (base result) in
  let other := if isLeft then rhs_ (base result) else lhs_ (base result) in
  let before := if isLeft then rhs_ (base this) else lhs_ (base this) in
  treeAndCol_ bound = Some (leftOrRightOp, inputCol)
  ∧ treeAndCol_ other
    = (if isVariable before
          && negb (negb isLeft && boundVariableIsForEmptyPath_ (base this))
       then treeAndCol_ before else None)
  ∧ boundVariableIsForEmptyPath_ (base result) = false
  ∧ minDist_ (base result) = minDist_ (base this)
  ∧ subtree_ (base result) ∈ subtree_ (base this) :: alternativeSubtrees this
  ∧ ∀ subtree,
      subtree ∈ subtree_ (base this) :: alternativeSubtrees this →
      costOf (base (candidateOver this leftOrRightOp inputCol isLeft
                                  (subtree_ (base result))))
      ≤ costOf (base (candidateOver this leftOrRightOp inputCol isLeft
                                    subtree)).
Proof.
  intros Hvar
    (subtree & columns & Hsubtree & Hcheap & _ & _ & _ & _ & Hs & Hlhs & Hrhs
     & Hmin & Hflag)%bindSorted_result.
  assert (base (candidateOver this leftOrRightOp inputCol isLeft subtree)
          = {| executionContext := executionContext (base this);
               subtree_ := subtree;
               lhs_ := with_outputCol 0
                         (rebind (base this) leftOrRightOp inputCol isLeft).1;
               rhs_ := with_outputCol 1
                         (rebind (base this) leftOrRightOp inputCol isLeft).2;
               minDist_ := minDist_ (base this);
               maxDist_ := maxDist_ (base this); activeGraphs_ := None;
               variableColumns_ :=
                 sideColumns
                   (rebind (base this) leftOrRightOp inputCol isLeft).1
                   (rebind (base this) leftOrRightOp inputCol isLeft).2;
               boundVariableIsForEmptyPath_ := false; resultWidth_ := 2 |})
    as Hcandidate.
  { unfold candidateOver. cbn [base]. apply built_bound.
    unfold rebind. destruct isLeft; cbn [fst snd].
    - left. rewrite isVariable_with_treeAndCol. split; [done|].
      split; [by eexists|].
      by destruct (isVariable (rhs_ (base this))) eqn:Hother; simpl;
        [rewrite Hother|].
    - right. rewrite isVariable_with_treeAndCol. split; [done|].
      split; [by eexists|].
      destruct (boundVariableIsForEmptyPath_ (base this)); [done|].
      by destruct (isVariable (lhs_ (base this))) eqn:Hother; simpl;
        [rewrite Hother|]. }
  rewrite Hcandidate in Hlhs, Hrhs, Hmin, Hflag. cbn in Hlhs, Hrhs, Hmin, Hflag.
  rewrite Hs. simpl.
  split; [|split; [|split; [done|split; [done|split; [done|done]]]]].
  - destruct isLeft; [rewrite Hlhs|rewrite Hrhs]; unfold rebind; done.
  - destruct isLeft; [rewrite Hrhs|rewrite Hlhs]; unfold rebind; simpl.
    + destruct (isVariable (rhs_ (base this))); done.
    + destruct (boundVariableIsForEmptyPath_ (base this)),
               (isVariable (lhs_ (base this))); done.
Qed.

Variable getVariableAndInfoByColumnIndex
  : QueryExecutionTree → nat → Fallible (SparqlVariable * (nat * UndefStatus)).
Variable getVariableColumn : QueryExecutionTree → SparqlVariable → Fallible nat.
Variable originatesFromGraphOrUndef
  : QueryExecutionTree → SparqlVariable → Fallible bool.
Variable makeBoundFilter
  : QueryExecutionContext → QueryExecutionTree → SparqlVariable → string →
    QueryExecutionTree.
Variable createSortedTree : QueryExecutionTree → list nat → QueryExecutionTree.

Lemma bindLeftOrRightSide_matched this leftOrRightOp inputCol isLeft column tree :
  matchWithKnowledgeGraph getVariableAndInfoByColumnIndex
    getVariableColumn originatesFromGraphOrUndef makeBoundFilter
    (base this) inputCol leftOrRightOp
  = inr (column, tree) →
  bindLeftOrRightSide getVariableAndInfoByColumnIndex getVariableColumn
    getVariableColumns getResultWidthOf originatesFromGraphOrUndef
    makeBoundFilter createSortedTree getSizeEstimate getCostEstimateOf
    alternativeSubtrees this leftOrRightOp inputCol isLeft
  = bindSorted getVariableColumns getResultWidthOf getSizeEstimate
      getCostEstimateOf alternativeSubtrees this
      (createSortedTree tree [column]) column isLeft.
Proof. unfold bindLeftOrRightSide. by intros ->. Qed.

Lemma bindLeftOrRightSide_inr this leftOrRightOp inputCol isLeft result :
  bindLeftOrRightSide getVariableAndInfoByColumnIndex getVariableColumn
    getVariableColumns getResultWidthOf originatesFromGraphOrUndef
    makeBoundFilter createSortedTree getSizeEstimate getCostEstimateOf
    alternativeSubtrees this leftOrRightOp inputCol isLeft
  = inr result →
  ∃ column tree,
    matchWithKnowledgeGraph getVariableAndInfoByColumnIndex
      getVariableColumn originatesFromGraphOrUndef makeBoundFilter
      (base this) inputCol leftOrRightOp
    = inr (column, tree)
    ∧ bindSorted getVariableColumns getResultWidthOf getSizeEstimate
        getCostEstimateOf alternativeSubtrees this
        (createSortedTree tree [column]) column isLeft = inr result.
Proof.
  unfold bindLeftOrRightSide.
  destruct (matchWithKnowledgeGraph _ _ _ _ _ _ _) as [e|[column tree]];
    [done|].
  intros Hbound. by exists column, tree.
Qed.

(** X16: [bindLeftOrRightSide], the columns of the result.  With [tree] and
    [column] what [matchWithKnowledgeGraph] makes of the arguments, and
    [sorted] the tree sorted on that column: the variable of the left side
    is in column 0, the one of the right side in column 1, and every
    other column of [sorted] follows in the order of [sorted], the input
    column left out (a column before it moves by two, one behind it by
    one).  The result is one column wider than [sorted].  Columns of a
    tree bound before are not in the map. *)
Theorem bindLeftOrRightSide_columns this leftOrRightOp inputCol isLeft result :
  bindLeftOrRightSide getVariableAndInfoByColumnIndex getVariableColumn
    getVariableColumns getResultWidthOf originatesFromGraphOrUndef
    makeBoundFilter createSortedTree getSizeEstimate getCostEstimateOf
    alternativeSubtrees this leftOrRightOp inputCol isLeft
  = inr result →
  ∃ column tree,
    matchWithKnowledgeGraph getVariableAndInfoByColumnIndex
      getVariableColumn originatesFromGraphOrUndef makeBoundFilter
      (base this) inputCol leftOrRightOp
    = inr (column, tree)
    ∧ resultWidth_ (base result)
      = (getResultWidthOf (createSortedTree tree [column]) + 1)%nat
    ∧ ∀ v x,
        variableColumns_ (base result) !! v = Some x
        ↔ (value_ (rhs_ (base this)) = TCVariable v
           ∧ x = (1%nat, AlwaysDefined))
          ∨ (value_ (lhs_ (base this)) = TCVariable v
             ∧ value_ (rhs_ (base this)) ≠ TCVariable v
             ∧ x = (0%nat, AlwaysDefined))
          ∨ ∃ c u,
              getVariableColumns (createSortedTree tree [column]) !! v
              = Some (c, u)
              ∧ c ≠ column
              ∧ x = ((c + if column <? c then 1 else 2)%nat, u).
Proof.
  intros (column & tree & Hmatched & Hbound)%bindLeftOrRightSide_inr.
  exists column, tree. split; [done|].
  by apply bindSorted_columns with isLeft.
Qed.

(** X17: [bindLeftOrRightSide] fails its correctness check when the sorted
    tree has, besides the input column, a column for the variable of one
    of the two sides of the path. *)
Theorem bindLeftOrRightSide_clash this leftOrRightOp inputCol isLeft
    column tree v c u :
  matchWithKnowledgeGraph getVariableAndInfoByColumnIndex
    getVariableColumn originatesFromGraphOrUndef makeBoundFilter
    (base this) inputCol leftOrRightOp
  = inr (column, tree) →
  getVariableColumns (createSortedTree tree [column]) !! v = Some (c, u) →
  c ≠ column →
  value_ (lhs_ (base this)) = TCVariable v
  ∨ value_ (rhs_ (base this)) = TCVariable v →
  bindLeftOrRightSide getVariableAndInfoByColumnIndex getVariableColumn
    getVariableColumns getResultWidthOf originatesFromGraphOrUndef
    makeBoundFilter createSortedTree getSizeEstimate getCostEstimateOf
    alternativeSubtrees this leftOrRightOp inputCol isLeft
  = inl (CorrectnessCheck "!p->variableColumns_.contains(variable)").
Proof.
  intros Hmatched Hl Hc Hside.
  rewrite (bindLeftOrRightSide_matched _ _ _ _ _ _ Hmatched).
  by apply bindSorted_clash with v c u.
Qed.

(** X18: [bindLeftOrRightSide] keeps the column map sound.  If the sorted
    tree gives different variables different columns, all of them inside
    its width, then so does the result. *)
Theorem bindLeftOrRightSide_layout this leftOrRightOp inputCol isLeft
    column tree result :
  matchWithKnowledgeGraph getVariableAndInfoByColumnIndex
    getVariableColumn originatesFromGraphOrUndef makeBoundFilter
    (base this) inputCol leftOrRightOp
  = inr (column, tree) →
  (column < getResultWidthOf (createSortedTree tree [column]))%nat →
  (∀ v c u,
     getVariableColumns (createSortedTree tree [column]) !! v = Some (c, u) →
     (c < getResultWidthOf (createSortedTree tree [column]))%nat) →
  (∀ v1 v2 c u1 u2,
     getVariableColumns (createSortedTree tree [column]) !! v1 = Some (c, u1) →
     getVariableColumns (createSortedTree tree [column]) !! v2 = Some (c, u2) →
     v1 = v2) →
  bindLeftOrRightSide getVariableAndInfoByColumnIndex getVariableColumn
    getVariableColumns getResultWidthOf originatesFromGraphOrUndef
    makeBoundFilter createSortedTree getSizeEstimate getCostEstimateOf
    alternativeSubtrees this leftOrRightOp inputCol isLeft
  = inr result →
  (∀ v c u, variableColumns_ (base result) !! v = Some (c, u) →
            (c < resultWidth_ (base result))%nat)
  ∧ ∀ v1 v2 c u1 u2,
      variableColumns_ (base result) !! v1 = Some (c, u1) →
      variableColumns_ (base result) !! v2 = Some (c, u2) → v1 = v2.
Proof.
  intros Hmatched Hcolumn Hrange Hinj.
  rewrite (bindLeftOrRightSide_matched _ _ _ _ _ _ Hmatched).
  by apply bindSorted_layout.
Qed.

(** X19: [bindLeftOrRightSide] on a side that is a variable.  That side of
    the result has the sorted tree and its column.  The other side keeps
    its tree only if it is a variable that was bound before: the tree
    that stood in for a fixed term or for the empty path is removed, and
    the constructor adds none.  The flag for the empty path is off, the
    distances are kept, and the subtree is the cheapest of the subtree
    and its alternatives. *)
Theorem bindLeftOrRightSide_sides this leftOrRightOp inputCol (isLeft : bool)
    result :
  isVariable (if isLeft then lhs_ (base this) else rhs_ (base this)) = true →
  bindLeftOrRightSide getVariableAndInfoByColumnIndex getVariableColumn
    getVariableColumns getResultWidthOf originatesFromGraphOrUndef
    makeBoundFilter createSortedTree getSizeEstimate getCostEstimateOf
    alternativeSubtrees this leftOrRightOp inputCol isLeft
  = inr result →
  ∃ column tree,
    matchWithKnowledgeGraph getVariableAndInfoByColumnIndex
      getVariableColumn originatesFromGraphOrUndef makeBoundFilter
      (base this) inputCol leftOrRightOp
    = inr (column, tree)
    ∧ treeAndCol_ (if isLeft then lhs_ (base result) else rhs_ (base result))
      = Some (createSortedTree tree [column], column)
    ∧ treeAndCol_ (if isLeft then rhs_ (base result) else lhs_ (base result))
      = (if isVariable (if isLeft then rhs_ (base this)
                        else lhs_ (base this))
            && negb (negb isLeft && boundVariableIsForEmptyPath_ (base this))
         then treeAndCol_ (if isLeft then rhs_ (base this)
                           else lhs_ (base this))
         else None)
    ∧ boundVariableIsForEmptyPath_ (base result) = false
    ∧ minDist_ (base result) = minDist_ (base this)
    ∧ subtree_ (base result) ∈ subtree_ (base this) :: alternativeSubtrees this
    ∧ ∀ subtree,
        subtree ∈ subtree_ (base this) :: alternativeSubtrees this →
        costOf (base (candidateOver this (createSortedTree tree [column])
                                    column isLeft (subtree_ (base result))))
        ≤ costOf (base (candidateOver this (createSortedTree tree [column])
                                      column isLeft subtree)).
Proof.
  intros Hvar (column & tree & Hmatched & Hbound)%bindLeftOrRightSide_inr.
  exists column, tree. split; [done|].
  by apply bindSorted_sides.
Qed.

End BindingFacts.


(** *** The members at work on [?x <p>+ ?y] and [<x> <p>+ ?y] *)

Lemma construct_isBoundOrId_witness :
  isBoundOrId fromFixedPath
  = negb (isUnboundVariable (fixedSide "<x>")
          && isUnboundVariable (freeSide "?y"))
  ∧ isBoundOrId fromFixedPath = true
  ∧ isBoundOrId hullPath = false.
Proof.
  split; [|split; reflexivity].
  apply (construct_isBoundOrId (Some (Context_ "index"))
           (Some (Planned "scan <p>")) (fixedSide "<x>") (freeSide "?y")
           1 unbounded None fromFixedPath).
  vm_compute. reflexivity.
Defined.

Lemma construct_zero_length_start_bound_witness :
  ∃ tp,
    construct (Some (Context_ "index")) (Some (Planned "scan <p>"))
              (fixedSide "<x>") (freeSide "?y") 0 unbounded None = inr tp
    ∧ is_Some (treeAndCol_ (startingSide (lhs_ tp) (rhs_ tp))).
Proof.
  eexists. split; [vm_compute; reflexivity|].
  apply (construct_zero_length_start_bound (Some (Context_ "index"))
           (Some (Planned "scan <p>")) (fixedSide "<x>") (freeSide "?y")
           0 unbounded None).
  - vm_compute. reflexivity.
  - reflexivity.
Defined.

(** A subtree is known to be empty when the planner says so. *)
Definition plannedEmpty (tree : QueryExecutionTree) : bool :=
  match tree with
  | Planned key => String.eqb key "empty"
  | _ => false
  end.

Lemma construct_knownEmptyResult_witness :
  ∃ tp,
    construct (Some (Context_ "index")) (Some (Planned "empty"))
              (fixedSide "<x>") (freeSide "?y") 0 unbounded None = inr tp
    ∧ knownEmptyResult plannedEmpty tp = false.
Proof.
  eexists. split; [vm_compute; reflexivity|].
  apply (construct_knownEmptyResult plannedEmpty (Some (Context_ "index"))
           (Some (Planned "empty")) (fixedSide "<x>") (freeSide "?y")
           0 unbounded None).
  - vm_compute. reflexivity.
  - reflexivity.
  - reflexivity.
Defined.

(** Two operators over different scans of the same predicate, which have
    the same cache key. *)
Definition keyOfTree (tree : QueryExecutionTree) : string := "scan <p>".

Definition keyOfSide (side : TransitivePathSide) : string :=
  if isVariable side then "variable" else "fixed".

Definition hullPathByObject : TransitivePathBase :=
  {| executionContext := Context_ "index";
     subtree_ := Planned "scan <p> by object";
     lhs_ := lhs_ hullPath; rhs_ := rhs_ hullPath;
     minDist_ := 1; maxDist_ := unbounded; activeGraphs_ := None;
     variableColumns_ := variableColumns_ hullPath;
     boundVariableIsForEmptyPath_ := false; resultWidth_ := 2 |}.

Lemma getCacheKeyImpl_distinguishes_witness :
  symmetric hullPath = symmetric hullPathByObject
  ∧ minDist_ hullPath = minDist_ hullPathByObject
  ∧ maxDist_ hullPath = maxDist_ hullPathByObject.
Proof.
  apply (getCacheKeyImpl_distinguishes keyOfTree keyOfSide hullPath
           hullPathByObject).
  vm_compute. reflexivity.
Defined.

Lemma construct_columnOriginatesFromGraphOrUndef_witness :
  columnOriginatesFromGraphOrUndef fromFixedPath (Variables.mkVariable "?y")
  = inr true
  ∧ columnOriginatesFromGraphOrUndef fromFixedPath (Variables.mkVariable "?z")
    = inl (ContractCheck
             "getExternallyVisibleVariableColumns().contains(variable)").
Proof.
  split.
  - apply (construct_columnOriginatesFromGraphOrUndef
             (Some (Context_ "index")) (Some (Planned "scan <p>"))
             (fixedSide "<x>") (freeSide "?y") 1 unbounded None
             fromFixedPath (Variables.mkVariable "?y")).
    vm_compute. reflexivity.
  - apply (construct_columnOriginatesFromGraphOrUndef
             (Some (Context_ "index")) (Some (Planned "scan <p>"))
             (fixedSide "<x>") (freeSide "?y") 1 unbounded None
             fromFixedPath (Variables.mkVariable "?z")).
    vm_compute. reflexivity.
Defined.

(** *** A hull of two nodes *)

(** Node 10 reaches 11 and 12 and comes from row 1 of a table with one
    column; node 20 reaches 21 and has no input row.  A local vocabulary
    is the list of its words, an unwritten cell holds 0. *)
Definition inputOfHull : IdTable :=
  {| numColumns := 1; rows := [[7]; [8]] |}.

Definition hullOfTwo : list (NodeWithTargets (list string)) :=
  [ {| node := 10; linkedNodes := [11; 12]; localVocab := ["a"];
       idTable := Some inputOfHull; inputRow := 1 |};
    {| node := 20; linkedNodes := [21]; localVocab := ["b"];
       idTable := None; inputRow := 0 |} ].

Definition unlinkedNode : NodeWithTargets (list string) :=
  {| node := 30; linkedNodes := []; localVocab := ["c"];
     idTable := None; inputRow := 0 |}.

Lemma hullOfTwo_fillable : Forall (fillable 3) hullOfTwo.
Proof.
  repeat constructor; try done.
  exists [8]. by split.
Qed.

Lemma fillTableWithHullImpl_tables_witness :
  fillTableWithHullImpl [] app 0 3 hullOfTwo 0 1 false
  = ([({| numColumns := 3; rows := [[10; 11; 8]; [10; 12; 8]] |}, ["a"]);
      ({| numColumns := 3; rows := [[20; 21; 0]] |}, ["b"])],
     None)
  ∧ fillTableWithHullImpl [] app 0 3 hullOfTwo 0 1 true
    = ([({| numColumns := 3;
            rows := [[10; 11; 8]; [10; 12; 8]; [20; 21; 0]] |},
         ["a"; "b"])],
       None).
Proof.
  apply (fillTableWithHullImpl_tables [] app 0 3 0 1 hullOfTwo).
  - lia.
  - lia.
  - apply hullOfTwo_fillable.
Defined.

Lemma fillTableWithHullImpl_unlinked_witness :
  fillTableWithHullImpl [] app 0 3 (hullOfTwo ++ unlinkedNode :: hullOfTwo)
    0 1 false
  = ([({| numColumns := 3; rows := [[10; 11; 8]; [10; 12; 8]] |}, ["a"]);
      ({| numColumns := 3; rows := [[20; 21; 0]] |}, ["b"])],
     Some (FailedCheck (ContractCheck "!linkedNodes.empty()")))
  ∧ fillTableWithHullImpl [] app 0 3 (hullOfTwo ++ unlinkedNode :: hullOfTwo)
      0 1 true
    = ([], Some (FailedCheck (ContractCheck "!linkedNodes.empty()"))).
Proof.
  apply (fillTableWithHullImpl_unlinked [] app 0 3 0 1 hullOfTwo unlinkedNode
           hullOfTwo).
  - lia.
  - lia.
  - apply hullOfTwo_fillable.
  - reflexivity.
Defined.

(** *** Binding the left side of [?x <p>+ ?y] *)

(** The tree that is bound has [?x] in column 0 and [?z] in column 1;
    [?x] is always defined and comes from the graph, so that
    [matchWithKnowledgeGraph] leaves the tree as it is.  Sorting and
    filtering are not looked into, every tree is estimated at 5 rows and
    at a cost of 5, and there is one alternative to the subtree. *)
Definition boundTree : QueryExecutionTree := Planned "?x ?z".

Definition columnsOfBoundTree (tree : QueryExecutionTree)
  : gmap SparqlVariable (nat * UndefStatus) :=
  {[ Variables.mkVariable "?x" := (0%nat, AlwaysDefined);
     Variables.mkVariable "?z" := (1%nat, PossiblyUndefined) ]}.

(** The same with [?y], the variable of the right side, in column 1. *)
Definition columnsOfClashingTree (tree : QueryExecutionTree)
  : gmap SparqlVariable (nat * UndefStatus) :=
  {[ Variables.mkVariable "?x" := (0%nat, AlwaysDefined);
     Variables.mkVariable "?y" := (1%nat, PossiblyUndefined) ]}.

Definition widthOfBoundTree (tree : QueryExecutionTree) : nat := 2.

Definition columnOfBoundTree (tree : QueryExecutionTree) (column : nat)
  : Fallible (SparqlVariable * (nat * UndefStatus)) :=
  inr (Variables.mkVariable "?x", (0%nat, AlwaysDefined)).

Definition variableColumnOfBoundTree (tree : QueryExecutionTree)
    (variable : SparqlVariable) : Fallible nat :=
  inr 0%nat.

Definition fromGraph (tree : QueryExecutionTree) (variable : SparqlVariable)
  : Fallible bool :=
  inr true.

Definition unfiltered (context : QueryExecutionContext)
    (tree : QueryExecutionTree) (variable : SparqlVariable)
    (descriptor : string) : QueryExecutionTree :=
  tree.

Definition alreadySorted (tree : QueryExecutionTree) (columns : list nat)
  : QueryExecutionTree :=
  tree.

Definition oneAlternative (this : TransitivePath)
  : list QueryExecutionTree :=
  [Planned "scan <p> by object"].

Definition hullOperator : TransitivePath :=
  {| implementation := HashMap; base := hullPath |}.

Lemma bindLeftOrRightSide_columns_witness :
  ∃ result,
    bindLeftSide columnOfBoundTree variableColumnOfBoundTree
      columnsOfBoundTree widthOfBoundTree fromGraph unfiltered alreadySorted
      (constantEstimate 5) (constantEstimate 5) oneAlternative
      hullOperator boundTree 0
    = inr result
    ∧ ∃ column tree,
        matchWithKnowledgeGraph columnOfBoundTree variableColumnOfBoundTree
          fromGraph unfiltered hullPath 0 boundTree
        = inr (column, tree)
        ∧ resultWidth_ (base result)
          = (widthOfBoundTree (alreadySorted tree [column]) + 1)%nat
        ∧ ∀ v x,
            variableColumns_ (base result) !! v = Some x
            ↔ (value_ (rhs_ hullPath) = TCVariable v
               ∧ x = (1%nat, AlwaysDefined))
              ∨ (value_ (lhs_ hullPath) = TCVariable v
                 ∧ value_ (rhs_ hullPath) ≠ TCVariable v
                 ∧ x = (0%nat, AlwaysDefined))
              ∨ ∃ c u,
                  columnsOfBoundTree (alreadySorted tree [column]) !! v
                  = Some (c, u)
                  ∧ c ≠ column
                  ∧ x = ((c + if column <? c then 1 else 2)%nat, u).
Proof.
  eexists. split; [vm_compute; reflexivity|].
  apply (bindLeftOrRightSide_columns columnsOfBoundTree widthOfBoundTree
           (constantEstimate 5) (constantEstimate 5) oneAlternative
           columnOfBoundTree variableColumnOfBoundTree fromGraph unfiltered
           alreadySorted hullOperator boundTree 0 true).
  vm_compute. reflexivity.
Defined.

Lemma bindLeftOrRightSide_clash_witness :
  bindLeftSide columnOfBoundTree variableColumnOfBoundTree
    columnsOfClashingTree widthOfBoundTree fromGraph unfiltered alreadySorted
    (constantEstimate 5) (constantEstimate 5) oneAlternative
    hullOperator boundTree 0
  = inl (CorrectnessCheck "!p->variableColumns_.contains(variable)").
Proof.
  apply (bindLeftOrRightSide_clash columnsOfClashingTree widthOfBoundTree
           (constantEstimate 5) (constantEstimate 5) oneAlternative
           columnOfBoundTree variableColumnOfBoundTree fromGraph unfiltered
           alreadySorted hullOperator boundTree 0 true 0 boundTree
           (Variables.mkVariable "?y") 1 PossiblyUndefined).
  - reflexivity.
  - vm_compute. reflexivity.
  - discriminate.
  - right. reflexivity.
Defined.

Lemma columnsOfBoundTree_lookup tree v c u :
  columnsOfBoundTree tree !! v = Some (c, u) →
  (v = Variables.mkVariable "?x" ∧ c = 0%nat)
  ∨ (v = Variables.mkVariable "?z" ∧ c = 1%nat).
Proof.
  unfold columnsOfBoundTree.
  intros [[<- [= <- _]]|[_ [<- [= <- _]]%lookup_singleton_Some]]
    %lookup_insert_Some; auto.
Qed.

Lemma bindLeftOrRightSide_layout_witness :
  ∃ result,
    bindLeftSide columnOfBoundTree variableColumnOfBoundTree
      columnsOfBoundTree widthOfBoundTree fromGraph unfiltered alreadySorted
      (constantEstimate 5) (constantEstimate 5) oneAlternative
      hullOperator boundTree 0
    = inr result
    ∧ (∀ v c u, variableColumns_ (base result) !! v = Some (c, u) →
                (c < resultWidth_ (base result))%nat)
    ∧ ∀ v1 v2 c u1 u2,
        variableColumns_ (base result) !! v1 = Some (c, u1) →
        variableColumns_ (base result) !! v2 = Some (c, u2) → v1 = v2.
Proof.
  eexists. split; [vm_compute; reflexivity|].
  apply (bindLeftOrRightSide_layout columnsOfBoundTree widthOfBoundTree
           (constantEstimate 5) (constantEstimate 5) oneAlternative
           columnOfBoundTree variableColumnOfBoundTree fromGraph unfiltered
           alreadySorted hullOperator boundTree 0 true 0 boundTree).
  - reflexivity.
  - unfold widthOfBoundTree. lia.
  - intros v c u [[_ ->]|[_ ->]]%columnsOfBoundTree_lookup;
      unfold widthOfBoundTree; lia.
  - intros v1 v2 c u1 u2 [[-> ->]|[-> ->]]%columnsOfBoundTree_lookup
      [[-> E]|[-> E]]%columnsOfBoundTree_lookup; done.
  - vm_compute. reflexivity.
Defined.

Lemma bindLeftOrRightSide_sides_witness :
  ∃ result,
    bindLeftSide columnOfBoundTree variableColumnOfBoundTree
      columnsOfBoundTree widthOfBoundTree fromGraph unfiltered alreadySorted
      (constantEstimate 5) (constantEstimate 5) oneAlternative
      hullOperator boundTree 0
    = inr result
    ∧ ∃ column tree,
        matchWithKnowledgeGraph columnOfBoundTree variableColumnOfBoundTree
          fromGraph unfiltered hullPath 0 boundTree
        = inr (column, tree)
        ∧ treeAndCol_ (lhs_ (base result))
          = Some (alreadySorted tree [column], column)
        ∧ treeAndCol_ (rhs_ (base result)) = None
        ∧ boundVariableIsForEmptyPath_ (base result) = false
        ∧ minDist_ (base result) = 1
        ∧ subtree_ (base result)
          ∈ Planned "scan <p>" :: oneAlternative hullOperator
        ∧ ∀ subtree,
            subtree ∈ Planned "scan <p>" :: oneAlternative hullOperator →
            costOf (constantEstimate 5) (constantEstimate 5)
              (base (candidateOver hullOperator (alreadySorted tree [column])
                                   column true (subtree_ (base result))))
            ≤ costOf (constantEstimate 5) (constantEstimate 5)
                (base (candidateOver hullOperator
                                     (alreadySorted tree [column])
                                     column true subtree)).
Proof.
  eexists. split; [vm_compute; reflexivity|].
  apply (bindLeftOrRightSide_sides columnsOfBoundTree widthOfBoundTree
           (constantEstimate 5) (constantEstimate 5) oneAlternative
           columnOfBoundTree variableColumnOfBoundTree fromGraph unfiltered
           alreadySorted hullOperator boundTree 0 true).
  - reflexivity.
  - vm_compute. reflexivity.
Defined.

End TransitivePath.

(** ** The invariance filter of materialized views,
    [src/engine/MaterializedViewsQueryAnalysis.{h,cpp}] *)
Module MaterializedViews.
Import TransitivePath.

(** The predicate of a triple: a variable, an IRI or a property path. *)
Inductive Predicate :=
| PVariable (variable : SparqlVariable)
| PIri (iri : string)
| PPath (path : string).

Record SparqlTriple := {
  s_ : TripleComponent;
  p_ : Predicate;
  o_ : TripleComponent;
}.

Definition getPredicateVariable (triple : SparqlTriple) : option SparqlVariable :=
  match p_ triple with
  | PVariable v => Some v
  | _ => None
  end.

Set Warnings "-register-all".

(** [parsedQuery::GraphPatternOperation], a variant.  The alternatives that
    the filter does not single out are gathered in [Other]. *)
Inductive GraphPatternOperation :=
| Optional (child : list GraphPatternOperation)
| Bind (expression : string) (_target : SparqlVariable)
| Values (_variables : list SparqlVariable)
         (_values : list (list TripleComponent))
| BasicGraphPattern (_triples : list SparqlTriple)
| Other (alternative : string).

Definition variableOf (component : TripleComponent) : gset SparqlVariable :=
  match component with
  | TCVariable v => {[ v ]}
  | _ => ∅
  end.

Definition variablesOfTriple (triple : SparqlTriple) : gset SparqlVariable :=
  variableOf (s_ triple) ∪ variableOf (o_ triple)
  ∪ match getPredicateVariable triple with
    | Some v => {[ v ]}
    | None => ∅
    end.

(** [getVariablesPresentInBasicGraphPatterns]. *)
Fixpoint getVariablesPresentInBasicGraphPatterns
    (graphPatterns : list GraphPatternOperation) : gset SparqlVariable :=
  match graphPatterns with
  | [] => ∅
  | BasicGraphPattern triples :: rest =>
      ⋃ (variablesOfTriple <$> triples)
      ∪ getVariablesPresentInBasicGraphPatterns rest
  | _ :: rest => getVariablesPresentInBasicGraphPatterns rest
  end.

(** [BasicGraphPatternsInvariantTo]. *)
Record BasicGraphPatternsInvariantTo := {
  variables_ : gset SparqlVariable;
}.

(** [std::visit(invariantCheck, pattern)]: the three overloads of
    [operator()] and the template that answers [false] for every other
    alternative. *)
Definition invariantTo (check : BasicGraphPatternsInvariantTo)
    (pattern : GraphPatternOperation) : bool :=
  match pattern with
  | Optional _ => false
  | Bind _ target => negb (bool_decide (target ∈ variables_ check))
  | Values variables _ =>
      negb (existsb (λ var, bool_decide (var ∈ variables_ check)) variables)
  | BasicGraphPattern _ => false
  | Other _ => false
  end.

(** The filter of [QueryPatternCache::analyzeView]: the patterns that are
    not invariant stay. *)
Definition graphPatternsFiltered (graphPatterns : list GraphPatternOperation)
  : list GraphPatternOperation :=
  let invariantCheck :=
    {| variables_ := getVariablesPresentInBasicGraphPatterns graphPatterns |} in
  List.filter (λ pattern, negb (invariantTo invariantCheck pattern))
              graphPatterns.

Lemma existsb_bool_decide (P : SparqlVariable → Prop) `{!∀ x, Decision (P x)}
    (l : list SparqlVariable) :
  existsb (λ x, bool_decide (P x)) l = false ↔ ∀ x, x ∈ l → ¬ P x.
Proof.
  induction l as [|y l IH]; simpl.
  - split; [|done]. intros _ x Hx. by apply elem_of_nil in Hx.
  - rewrite orb_false_iff, IH, bool_decide_eq_false. split.
    + intros [Hy Hl] x [->|Hx]%elem_of_cons; auto.
    + intros Hall. split; [apply Hall; by left|].
      intros x Hx. apply Hall. by right.
Qed.

(** C9: a [Bind] is invariant exactly when its target is not among the
    referenced variables, a [Values] exactly when none of its variables is,
    and an [Optional] never. *)
Theorem invariantTo_classifies check :
  (∀ expression target,
     invariantTo check (Bind expression target) = true
     ↔ target ∉ variables_ check)
  ∧ (∀ variables values,
       invariantTo check (Values variables values) = true
       ↔ ∀ var, var ∈ variables → var ∉ variables_ check)
  ∧ (∀ child, invariantTo check (Optional child) = false).
Proof.
  split; [|split].
  - intros expression target. simpl.
    by rewrite negb_true_iff, bool_decide_eq_false.
  - intros variables values. simpl.
    by rewrite negb_true_iff, existsb_bool_decide.
  - done.
Qed.

(** A view [?s <p> ?o . BIND(1 AS ?b) . BIND(2 AS ?o) . VALUES ?c { 3 }]:
    only the triple and the [BIND] of [?o] stay. *)
Definition var (name : string) : SparqlVariable := Variables.mkVariable name.

Definition viewPatterns : list GraphPatternOperation :=
  [ BasicGraphPattern
      [{| s_ := TCVariable (var "?s"); p_ := PIri "<p>";
          o_ := TCVariable (var "?o") |}];
    Bind "1" (var "?b");
    Bind "2" (var "?o");
    Values [var "?c"] [[TCId 3]];
    Optional [] ].

Example graphPatternsFiltered_view :
  graphPatternsFiltered viewPatterns
  = [ BasicGraphPattern
        [{| s_ := TCVariable (var "?s"); p_ := PIri "<p>";
            o_ := TCVariable (var "?o") |}];
      Bind "2" (var "?o");
      Optional [] ].
Proof. vm_compute. reflexivity. Qed.

(** *** What the filter keeps *)

(** [variable] occurs in a triple of a basic graph pattern at the top
    level of [graphPatterns]. *)
Definition occursInTriples (variable : SparqlVariable)
    (graphPatterns : list GraphPatternOperation) : Prop :=
  ∃ triples triple,
    BasicGraphPattern triples ∈ graphPatterns ∧ triple ∈ triples
    ∧ (s_ triple = TCVariable variable ∨ o_ triple = TCVariable variable
       ∨ p_ triple = PVariable variable).

Lemma elem_of_variableOf v component :
  v ∈ variableOf component ↔ component = TCVariable v.
Proof.
  destruct component; simpl; rewrite ?elem_of_singleton, ?elem_of_empty;
    split; try done; congruence.
Qed.

Lemma elem_of_variablesOfTriple v triple :
  v ∈ variablesOfTriple triple
  ↔ s_ triple = TCVariable v ∨ o_ triple = TCVariable v
    ∨ p_ triple = PVariable v.
Proof.
  unfold variablesOfTriple, getPredicateVariable.
  rewrite !elem_of_union, !elem_of_variableOf.
  destruct (p_ triple); rewrite ?elem_of_singleton, ?elem_of_empty;
    split; intros H; repeat destruct H as [H|H]; subst; auto; try done;
    try (injection H as ->; auto).
Qed.

Lemma elem_of_getVariablesPresentInBasicGraphPatterns v graphPatterns :
  v ∈ getVariablesPresentInBasicGraphPatterns graphPatterns
  ↔ occursInTriples v graphPatterns.
Proof.
  unfold occursInTriples.
  induction graphPatterns as [|pattern rest IH].
  { simpl. rewrite elem_of_empty. split; [done|].
    intros (? & ? & []%elem_of_nil & _). }
  assert ((∃ triples triple,
             BasicGraphPattern triples ∈ rest ∧ triple ∈ triples
             ∧ (s_ triple = TCVariable v ∨ o_ triple = TCVariable v
                ∨ p_ triple = PVariable v))
          → ∃ triples triple,
              BasicGraphPattern triples ∈ pattern :: rest ∧ triple ∈ triples
              ∧ (s_ triple = TCVariable v ∨ o_ triple = TCVariable v
                 ∨ p_ triple = PVariable v)) as Hrest.
  { intros (triples & triple & ? & ?). exists triples, triple.
    split; [by apply list_elem_of_further|done]. }
  destruct pattern as [| | |triples|]; simpl;
    try (rewrite IH; split; [done|];
         intros (triples' & triple & [[=]|?]%elem_of_cons & ?); by eauto).
  rewrite elem_of_union, IH, elem_of_union_list. split.
  - intros [(X & (triple & -> & Ht)%list_elem_of_fmap & Hv)|?]; [|by auto].
    exists triples, triple. split; [apply list_elem_of_here|].
    split; [done|]. by apply elem_of_variablesOfTriple.
  - intros (triples' & triple & [[= ->]|?]%elem_of_cons & Ht & Hv);
      [|by eauto 10].
    left. exists (variablesOfTriple triple).
    split; [|by apply elem_of_variablesOfTriple].
    apply list_elem_of_fmap. eauto.
Qed.

(** The filter looks at the top level only and never drops a basic graph
    pattern, so the variables it goes by are the same after it. *)
Lemma getVariables_filter (keep : GraphPatternOperation → bool) graphPatterns :
  (∀ triples, keep (BasicGraphPattern triples) = true) →
  getVariablesPresentInBasicGraphPatterns (List.filter keep graphPatterns)
  = getVariablesPresentInBasicGraphPatterns graphPatterns.
Proof.
  intros Hkeep. induction graphPatterns as [|pattern rest IH]; [done|].
  simpl. destruct (keep pattern) eqn:Hk.
  - destruct pattern; simpl; by rewrite IH.
  - destruct pattern; simpl; try done. by rewrite Hkeep in Hk.
Qed.

(** X20: The invariance filter keeps a pattern of the query exactly when it is
    not a [BIND] or [VALUES] that leaves the triples alone: every basic
    graph pattern, [OPTIONAL] and other operation stays, a [BIND] stays
    when its target occurs in a triple at the top level, a [VALUES] when
    one of its variables does. *)
Theorem graphPatternsFiltered_keeps graphPatterns pattern :
  pattern ∈ graphPatternsFiltered graphPatterns
  ↔ pattern ∈ graphPatterns
    ∧ match pattern with
      | Bind _ target => occursInTriples target graphPatterns
      | Values variables _ =>
          ∃ variable,
            variable ∈ variables ∧ occursInTriples variable graphPatterns
      | _ => True
      end.
Proof.
  unfold graphPatternsFiltered.
  rewrite list_elem_of_In, filter_In, <- !list_elem_of_In.
  apply and_iff_compat_l.
  destruct pattern as [|expression target|variables values| |]; simpl;
    try done.
  - rewrite negb_involutive, bool_decide_eq_true.
    apply elem_of_getVariablesPresentInBasicGraphPatterns.
  - rewrite negb_involutive, existsb_exists. split.
    + intros (variable & Hin%list_elem_of_In & Hv%bool_decide_eq_true).
      exists variable. split; [done|].
      by apply elem_of_getVariablesPresentInBasicGraphPatterns.
    + intros (variable & Hin & Hv). exists variable.
      split; [by apply list_elem_of_In|]. apply bool_decide_eq_true.
      by apply elem_of_getVariablesPresentInBasicGraphPatterns.
Qed.

(** X21: Filtering a second time changes nothing. *)
Theorem graphPatternsFiltered_idempotent graphPatterns :
  graphPatternsFiltered (graphPatternsFiltered graphPatterns)
  = graphPatternsFiltered graphPatterns.
Proof.
  unfold graphPatternsFiltered at 1 3.
  unfold graphPatternsFiltered at 1. rewrite getVariables_filter by done.
  assert (∀ (keep : GraphPatternOperation → bool) l,
            List.filter keep (List.filter keep l) = List.filter keep l)
    as Hidem.
  { intros keep l. induction l as [|x l IHl]; [done|]. simpl.
    destruct (keep x) eqn:Hx; simpl; rewrite ?Hx, IHl; done. }
  apply Hidem.
Qed.

(** *** The pattern cache, [QueryPatternCache] *)

(** [IndexScan], as far as [checkSimpleChain] looks at it: the three
    components of the scanned triple. *)
Record IndexScan := {
  subject : TripleComponent;
  predicate : TripleComponent;
  object : TripleComponent;
}.

(** [ChainedPredicates], the key of the cache for simple chains. *)
Abbreviation ChainedPredicates := (string * string)%type.

Section QueryPatternCache.

(** [MaterializedView] and the parser are not among the sources: a view
    has its [originalQuery()], and [SparqlParser::parseQuery] delivers the
    graph patterns of the root of the query or throws.  The same holds
    for the two accessors of [SparqlTriple] that classify a predicate,
    [getSimplePredicate] and [getSimple]. *)
Context {MaterializedView : Type}.
Variable originalQuery : MaterializedView → option string.
Variable parseQuery : string → Fallible (list GraphPatternOperation).
Variable getSimplePredicate : SparqlTriple → option string.
Variable getSimple
  : SparqlTriple → Fallible (TripleComponent * TripleComponent * TripleComponent).

Record ChainInfo := {
  subject_ : SparqlVariable;
  chain_ : SparqlVariable;
  object_ : SparqlVariable;
  view_ : MaterializedView;
}.

(** [UserQueryChain].  [chainInfos_] is a shared pointer to the vector
    that the cache holds for a pair of predicates; the cache creates one
    vector per pair and never replaces it, so the pointer is the pair. *)
Record UserQueryChain := {
  chainSubject_ : TripleComponent;
  chainVariable_ : SparqlVariable;
  chainObject_ : SparqlVariable;
  chainInfos_ : ChainedPredicates;
}.

Record QueryPatternCache := {
  simpleChainCache_ : gmap ChainedPredicates (list ChainInfo);
  predicateInView_ : gmap string (list MaterializedView);
}.

(** The vector that [chainInfos_] points to. *)
Definition chainInfosOf (cache : QueryPatternCache) (chain : UserQueryChain)
  : list ChainInfo :=
  default [] (simpleChainCache_ cache !! chainInfos_ chain).

(** [QueryPatternCache::checkSimpleChain]; a null pointer is [None]. *)
Definition checkSimpleChain (cache : QueryPatternCache)
    (leftScan rightScan : option IndexScan) : option UserQueryChain :=
  match leftScan, rightScan with
  | Some scan1, Some scan2 =>
      match predicate scan1, predicate scan2 with
      | TCIri iri1, TCIri iri2 =>
          if bool_decide (object scan1 = subject scan2)
             && bool_decide (subject scan1 ≠ object scan2)
             && bool_decide (subject scan1 ≠ object scan1)
             && bool_decide (subject scan2 ≠ object scan2)
          then
            match object scan1, object scan2 with
            | TCVariable chain, TCVariable obj =>
                let preds := (iri1, iri2) in
                if bool_decide (is_Some (simpleChainCache_ cache !! preds))
                then Some {| chainSubject_ := subject scan1;
                             chainVariable_ := chain;
                             chainObject_ := obj;
                             chainInfos_ := preds |}
                else None
            | _, _ => None
            end
          else None
      | _, _ => None
      end
  | _, _ => None
  end.

(** [QueryPatternCache::analyzeSimpleChain]. *)
Definition analyzeSimpleChain (view : MaterializedView) (a b : SparqlTriple)
    (cache : QueryPatternCache) : bool * QueryPatternCache :=
  match getSimplePredicate a, getSimplePredicate b with
  | Some aPred, Some bPred =>
      match s_ a, o_ a, s_ b, o_ b with
      | TCVariable aSubj, TCVariable chainVar, TCVariable bSubj,
        TCVariable bObj =>
          if bool_decide (chainVar = aSubj) then (false, cache)
          else if bool_decide (bSubj ≠ chainVar) then (false, cache)
          else if bool_decide (bObj = chainVar) || bool_decide (bObj = aSubj)
          then (false, cache)
          else
            let preds := (aPred, bPred) in
            let infos := default [] (simpleChainCache_ cache !! preds) in
            (true,
             {| simpleChainCache_ :=
                  <[preds := infos ++ [{| subject_ := aSubj;
                                          chain_ := chainVar;
                                          object_ := bObj;
                                          view_ := view |}]]>
                    (simpleChainCache_ cache);
                predicateInView_ := predicateInView_ cache |})
      | _, _, _, _ => (false, cache)
      end
  | _, _ => (false, cache)
  end.

(** The loop of [QueryPatternCache::analyzeStar]: [Some usedObjects] as
    long as no triple has made the function return. *)
Fixpoint analyzeStarLoop (subject : SparqlVariable) (triples : list SparqlTriple)
    (usedObjects : gset SparqlVariable)
  : Fallible (option (gset SparqlVariable)) :=
  match triples with
  | [] => mret (Some usedObjects)
  | triple :: rest =>
      match s_ triple, o_ triple, getSimplePredicate triple with
      | TCVariable s, TCVariable o, Some _ =>
          if bool_decide (s ≠ subject) || bool_decide (o ∈ usedObjects)
          then mret None
          else
            simpleTriple ← getSimple triple;
            match simpleTriple.1.2 with
            | TCIri p => analyzeStarLoop subject rest ({[ o ]} ∪ usedObjects)
            | _ => mret None
            end
      | _, _, _ => mret None
      end
  end.

(** [QueryPatternCache::analyzeStar]. *)
Definition analyzeStar (view : MaterializedView) (triples : list SparqlTriple)
  : Fallible bool :=
  match triples with
  | first :: _ :: _ =>
      match s_ first with
      | TCVariable subject =>
          usedObjects ← analyzeStarLoop subject triples ∅;
          match usedObjects with
          | None => mret false
          | Some _ => mret false
          end
      | _ => mret false
      end
  | _ => mret false
  end.

(** The end of [analyzeView]: the view is remembered for the simple
    predicate of every triple. *)
Fixpoint rememberPredicates (view : MaterializedView)
    (triples : list SparqlTriple)
    (predicateInView : gmap string (list MaterializedView))
  : gmap string (list MaterializedView) :=
  match triples with
  | [] => predicateInView
  | triple :: rest =>
      rememberPredicates view rest
        match getSimplePredicate triple with
        | Some p =>
            <[p := default [] (predicateInView !! p) ++ [view]]> predicateInView
        | None => predicateInView
        end
  end.

(** [QueryPatternCache::analyzeView], from the point where the triples of
    the one basic graph pattern are at hand. *)
Definition analyzeTriples (view : MaterializedView)
    (triples : list SparqlTriple) (cache : QueryPatternCache)
  : Fallible (bool * QueryPatternCache) :=
  if bool_decide (length triples = 0%nat) then mret (false, cache)
  else
    let '(patternFound, cache) :=
      match triples with
      | [a; b] =>
          let '(found, cache) := analyzeSimpleChain view a b cache in
          if negb found then analyzeSimpleChain view b a cache
          else (true, cache)
      | _ => (false, cache)
      end in
    (if patternFound then mret true else analyzeStar view triples)
    ≫= λ patternFound : bool,
    if patternFound then
      mret (true,
            {| simpleChainCache_ := simpleChainCache_ cache;
               predicateInView_ :=
                 rememberPredicates view triples (predicateInView_ cache) |})
    else mret (false, cache).

(** [QueryPatternCache::analyzeView]. *)
Definition analyzeView (view : MaterializedView) (cache : QueryPatternCache)
  : Fallible (bool * QueryPatternCache) :=
  match originalQuery view with
  | None => mret (false, cache)
  | Some query =>
      graphPatterns ← parseQuery query;
      match graphPatternsFiltered graphPatterns with
      | [BasicGraphPattern triples] => analyzeTriples view triples cache
      | _ => mret (false, cache)
      end
  end.

End QueryPatternCache.

Section QueryPatternCacheFacts.

Context {MaterializedView : Type}.
Variable originalQuery : MaterializedView → option string.
Variable parseQuery : string → Fallible (list GraphPatternOperation).
Variable getSimplePredicate : SparqlTriple → option string.
Variable getSimple
  : SparqlTriple → Fallible (TripleComponent * TripleComponent * TripleComponent).

Local Abbreviation Cache := (@QueryPatternCache MaterializedView).

(** [a] and [b] form the chain [?s <p1> ?m . ?m <p2> ?o] with three
    distinct variables. *)
Definition isSimpleChain (a b : SparqlTriple) (p1 p2 : string)
    (s m o : SparqlVariable) : Prop :=
  getSimplePredicate a = Some p1 ∧ getSimplePredicate b = Some p2
  ∧ s_ a = TCVariable s ∧ o_ a = TCVariable m
  ∧ s_ b = TCVariable m ∧ o_ b = TCVariable o
  ∧ m ≠ s ∧ o ≠ m ∧ o ≠ s.

(** The cache after the chain of [view] has been entered. *)
Definition withChain (view : MaterializedView) (p1 p2 : string)
    (s m o : SparqlVariable) (cache : Cache) : Cache :=
  {| simpleChainCache_ :=
       <[(p1, p2) :=
           default [] (simpleChainCache_ cache !! (p1, p2))
           ++ [{| subject_ := s; chain_ := m; object_ := o; view_ := view |}]]>
         (simpleChainCache_ cache);
     predicateInView_ := predicateInView_ cache |}.

Lemma analyzeSimpleChain_found view a b cache p1 p2 s m o :
  isSimpleChain a b p1 p2 s m o →
  analyzeSimpleChain getSimplePredicate view a b cache
  = (true, withChain view p1 p2 s m o cache).
Proof.
  intros (Ha & Hb & Hsa & Hoa & Hsb & Hob & Hms & Hom & Hos).
  unfold analyzeSimpleChain. rewrite Ha, Hb, Hsa, Hoa, Hsb, Hob.
  rewrite (bool_decide_eq_false_2 (m = s)) by done.
  rewrite (bool_decide_eq_false_2 (m ≠ m)) by (by intros []).
  rewrite (bool_decide_eq_false_2 (o = m)) by done.
  rewrite (bool_decide_eq_false_2 (o = s)) by done.
  done.
Qed.

Lemma analyzeSimpleChain_cases view a b cache :
  (∃ p1 p2 s m o,
     isSimpleChain a b p1 p2 s m o
     ∧ analyzeSimpleChain getSimplePredicate view a b cache
       = (true, withChain view p1 p2 s m o cache))
  ∨ ((∀ p1 p2 s m o, ¬ isSimpleChain a b p1 p2 s m o)
     ∧ analyzeSimpleChain getSimplePredicate view a b cache = (false, cache)).
Proof.
  unfold analyzeSimpleChain, isSimpleChain.
  destruct (getSimplePredicate a) as [p1|];
    [|right; split; [intros ????? (? & _)|]; done].
  destruct (getSimplePredicate b) as [p2|];
    [|right; split; [intros ????? (_ & ? & _)|]; done].
  destruct (s_ a) as [s| | |];
    try (right; split; [intros ????? (_ & _ & ? & _)|]; done).
  destruct (o_ a) as [m| | |];
    try (right; split; [intros ????? (_ & _ & _ & ? & _)|]; done).
  destruct (s_ b) as [m'| | |];
    try (right; split; [intros ????? (_ & _ & _ & _ & ? & _)|]; done).
  destruct (o_ b) as [o| | |];
    try (right; split; [intros ????? (_ & _ & _ & _ & _ & ? & _)|]; done).
  case_bool_decide as H1.
  { right. split; [|done]. intros ????? (_&_&?&?&_&_&?&_). congruence. }
  case_bool_decide as H2.
  { right. split; [|done]. intros ????? (_&_&?&?&?&_). congruence. }
  subst m'.
  case_bool_decide as H3.
  { right. split; [|done]. intros ????? (_&_&?&?&?&?&?&?&_). congruence. }
  case_bool_decide as H4.
  { right. split; [|done]. intros ????? (_&_&?&?&?&?&?&?&?). congruence. }
  left. exists p1, p2, s, m, o. done.
Qed.

(** A chain runs in one direction only. *)
Lemma isSimpleChain_one_way a b p1 p2 s m o q1 q2 s' m' o' :
  isSimpleChain a b p1 p2 s m o → ¬ isSimpleChain b a q1 q2 s' m' o'.
Proof.
  intros (_&_&Hsa&Hoa&Hsb&Hob&?&?&?) (_&_&Hsb'&Hob'&Hsa'&Hoa'&?&?&?).
  congruence.
Qed.

(** [analyzeStar] finds nothing: it answers [false], unless [getSimple]
    throws. *)
Lemma analyzeStar_false (view : MaterializedView) triples found :
  analyzeStar getSimplePredicate getSimple view triples = inr found →
  found = false.
Proof.
  unfold analyzeStar.
  destruct triples as [|first [|second rest]]; try by intros [= <-].
  destruct (s_ first); try by intros [= <-].
  destruct (analyzeStarLoop _ _ _ _ _) as [e|[used|]]; simpl;
    [done|by intros [= <-]..].
Qed.

Lemma analyzeStar_total (view : MaterializedView) triples :
  (∀ triple, is_Some (getSimplePredicate triple) →
             ∃ simple, getSimple triple = inr simple) →
  analyzeStar getSimplePredicate getSimple view triples = inr false.
Proof.
  intros Htotal. unfold analyzeStar.
  destruct triples as [|first [|second rest]]; try done.
  destruct (s_ first) as [subject| | |]; try done.
  assert (∀ l used, ∃ r,
            analyzeStarLoop getSimplePredicate getSimple subject l used
            = inr r) as Hloop.
  { induction l as [|t l IH]; intros used; simpl; [by eexists|].
    destruct (s_ t); try by eexists.
    destruct (o_ t); try by eexists.
    destruct (getSimplePredicate t) eqn:Hp; try by eexists.
    destruct (_ || _); [by eexists|].
    destruct (Htotal t) as [[[ts tp] to] ->]; [by rewrite Hp|]. simpl.
    destruct tp; try by eexists. apply IH. }
  destruct (Hloop (first :: second :: rest) ∅) as [[r|] ->]; done.
Qed.

Lemma rememberPredicates_lookup (view : MaterializedView) triples m p l :
  m !! p = Some l →
  ∃ more,
    rememberPredicates getSimplePredicate view triples m !! p
    = Some (l ++ more).
Proof.
  revert m l. induction triples as [|t triples IH]; intros m l Hl; simpl.
  - exists []. by rewrite app_nil_r.
  - destruct (getSimplePredicate t) as [q|]; [|by apply IH].
    destruct (decide (q = p)) as [->|Hne].
    + rewrite Hl. simpl.
      destruct (IH (<[p := l ++ [view]]> m) (l ++ [view])) as [more Hmore];
        [by rewrite lookup_insert_eq|].
      exists ([view] ++ more). by rewrite app_assoc.
    + apply IH. by rewrite lookup_insert_ne.
Qed.

Lemma rememberPredicates_remembers (view : MaterializedView) triples m t p :
  t ∈ triples → getSimplePredicate t = Some p →
  ∃ l,
    rememberPredicates getSimplePredicate view triples m !! p = Some l
    ∧ view ∈ l.
Proof.
  revert m. induction triples as [|t' triples IH]; intros m Ht Hp;
    [by apply elem_of_nil in Ht|].
  apply elem_of_cons in Ht as [<-|Ht]; simpl.
  - rewrite Hp.
    destruct (rememberPredicates_lookup view triples
                (<[p := default [] (m !! p) ++ [view]]> m) p
                (default [] (m !! p) ++ [view])) as [more ->];
      [by rewrite lookup_insert_eq|].
    eexists. split; [done|].
    apply elem_of_app. left. apply elem_of_app. right.
    by apply list_elem_of_singleton.
  - by apply IH.
Qed.

(** What [analyzeTriples] can answer. *)
Lemma analyzeTriples_cases (view : MaterializedView) triples cache found cache' :
  analyzeTriples getSimplePredicate getSimple view triples cache
  = inr (found, cache') →
  (found = false ∧ cache' = cache)
  ∨ (found = true
     ∧ ∃ a b p1 p2 s m o,
         (triples = [a; b] ∨ triples = [b; a])
         ∧ isSimpleChain a b p1 p2 s m o
         ∧ cache'
           = {| simpleChainCache_ :=
                  simpleChainCache_ (withChain view p1 p2 s m o cache);
                predicateInView_ :=
                  rememberPredicates getSimplePredicate view triples
                    (predicateInView_ cache) |}).
Proof.
  unfold analyzeTriples. case_bool_decide as Hlen.
  { intros [= <- <-]. by left. }
  assert (∀ c : Cache,
            (analyzeStar getSimplePredicate getSimple view triples
             ≫= λ patternFound : bool,
               if patternFound
               then mret (true,
                          {| simpleChainCache_ := simpleChainCache_ c;
                             predicateInView_ :=
                               rememberPredicates getSimplePredicate view
                                 triples (predicateInView_ c) |})
               else mret (false, c)) = inr (found, cache') →
            found = false ∧ cache' = c) as Hstar.
  { intros c.
    destruct (analyzeStar _ _ _ _) as [e|f] eqn:Hs; simpl; [done|].
    apply analyzeStar_false in Hs as ->. by intros [= <- <-]. }
  destruct triples as [|a [|b [|c rest]]];
    try (intros H%Hstar; by left).
  destruct (analyzeSimpleChain_cases view a b cache)
    as [(p1 & p2 & s & m & o & Hchain & ->)|[Hno ->]]; simpl.
  { intros [= <- <-]. right. split; [done|].
    exists a, b, p1, p2, s, m, o. auto. }
  destruct (analyzeSimpleChain_cases view b a cache)
    as [(p1 & p2 & s & m & o & Hchain & ->)|[Hno' ->]]; simpl.
  { intros [= <- <-]. right. split; [done|].
    exists b, a, p1, p2, s, m, o. auto. }
  intros H%Hstar. by left.
Qed.

(** [analyzeView] answers [true] only for a view whose query, once the
    invariant patterns are filtered out, is one basic graph pattern of two
    triples that form a chain [?s <p1> ?m . ?m <p2> ?o] in one of the two
    orders; it then enters the chain under [(p1, p2)] and remembers the
    view for the predicates of the triples.  When it answers [false] the
    cache is as it was. *)
Lemma analyzeView_cases (view : MaterializedView) cache found cache' :
  analyzeView originalQuery parseQuery getSimplePredicate getSimple view cache
  = inr (found, cache') →
  (found = false ∧ cache' = cache)
  ∨ (found = true
     ∧ ∃ query graphPatterns triples a b p1 p2 s m o,
         originalQuery view = Some query
         ∧ parseQuery query = inr graphPatterns
         ∧ graphPatternsFiltered graphPatterns = [BasicGraphPattern triples]
         ∧ (triples = [a; b] ∨ triples = [b; a])
         ∧ isSimpleChain a b p1 p2 s m o
         ∧ cache'
           = {| simpleChainCache_ :=
                  simpleChainCache_ (withChain view p1 p2 s m o cache);
                predicateInView_ :=
                  rememberPredicates getSimplePredicate view triples
                    (predicateInView_ cache) |}).
Proof.
  unfold analyzeView.
  destruct (originalQuery view) as [query|]; [|intros [= <- <-]; by left].
  destruct (parseQuery query) as [e|graphPatterns] eqn:Hparse; simpl; [done|].
  destruct (graphPatternsFiltered graphPatterns) as [|[] []] eqn:Hf;
    try (intros [= <- <-]; by left).
  intros [?|[-> (a & b & p1 & p2 & s & m & o & ? & ? & ->)]]%analyzeTriples_cases;
    [by left|].
  right. split; [done|].
  by exists query, graphPatterns, _triples, a, b, p1, p2, s, m, o.
Qed.

(** X22: [analyzeView] answers [true] only for a view whose query, once the
    invariant patterns are filtered out, is one basic graph pattern of two
    triples that form a chain [?s <p1> ?m . ?m <p2> ?o] with three distinct
    variables, in one of the two orders; and when it answers [false] it
    has not touched the cache. *)
Theorem analyzeView_accepts_chains_only
    (view : MaterializedView) cache found cache' :
  analyzeView originalQuery parseQuery getSimplePredicate getSimple view cache
  = inr (found, cache') →
  if found then
    ∃ query graphPatterns a b p1 p2 s m o,
      originalQuery view = Some query
      ∧ parseQuery query = inr graphPatterns
      ∧ (graphPatternsFiltered graphPatterns = [BasicGraphPattern [a; b]]
         ∨ graphPatternsFiltered graphPatterns = [BasicGraphPattern [b; a]])
      ∧ isSimpleChain a b p1 p2 s m o
  else cache' = cache.
Proof.
  intros [[-> ->]|[-> H]]%analyzeView_cases; [done|].
  destruct H as (query & graphPatterns & triples & a & b & p1 & p2 & s & m & o
                 & Hq & Hp & Hf & Ht & Hc & _).
  exists query, graphPatterns, a, b, p1, p2, s, m, o.
  split; [done|]. split; [done|]. split; [|done].
  destruct Ht as [-> | ->]; auto.
Qed.

Lemma analyzeTriples_chain (view : MaterializedView) triples a b p1 p2 s m o cache :
  triples = [a; b] ∨ triples = [b; a] →
  isSimpleChain a b p1 p2 s m o →
  analyzeTriples getSimplePredicate getSimple view triples cache
  = inr (true,
         {| simpleChainCache_ :=
              simpleChainCache_ (withChain view p1 p2 s m o cache);
            predicateInView_ :=
              rememberPredicates getSimplePredicate view triples
                (predicateInView_ cache) |}).
Proof.
  intros [-> | ->] Hchain; unfold analyzeTriples.
  - rewrite bool_decide_eq_false_2 by done.
    by rewrite (analyzeSimpleChain_found _ _ _ _ _ _ _ _ _ Hchain).
  - rewrite bool_decide_eq_false_2 by done.
    destruct (analyzeSimpleChain_cases view b a cache)
      as [(q1 & q2 & s' & m' & o' & Hback & _)|[_ ->]].
    { by destruct (isSimpleChain_one_way _ _ _ _ _ _ _ q1 q2 s' m' o' Hchain). }
    simpl. by rewrite (analyzeSimpleChain_found _ _ _ _ _ _ _ _ _ Hchain).
Qed.

(** X23: A view that is a chain is found again: after [analyzeView] has
    accepted the chain [?s <p1> ?m . ?m <p2> ?o] of [view], whichever
    triple its query lists first, [checkSimpleChain] answers every pair of
    scans [x <p1> ?c] and [?c <p2> ?d] of a user query (with [x], [?c],
    [?d] distinct) with a chain whose vector holds the entry of
    [view]. *)
Theorem analyzeView_then_checkSimpleChain
    (view : MaterializedView) cache query graphPatterns a b p1 p2 s m o :
  originalQuery view = Some query →
  parseQuery query = inr graphPatterns →
  graphPatternsFiltered graphPatterns = [BasicGraphPattern [a; b]]
  ∨ graphPatternsFiltered graphPatterns = [BasicGraphPattern [b; a]] →
  isSimpleChain a b p1 p2 s m o →
  ∃ cache',
    analyzeView originalQuery parseQuery getSimplePredicate getSimple
                view cache = inr (true, cache')
    ∧ ∀ scan1 scan2 c d,
        predicate scan1 = TCIri p1 → predicate scan2 = TCIri p2 →
        object scan1 = TCVariable c → subject scan2 = TCVariable c →
        object scan2 = TCVariable d →
        subject scan1 ≠ TCVariable c → subject scan1 ≠ TCVariable d →
        c ≠ d →
        ∃ chain,
          checkSimpleChain cache' (Some scan1) (Some scan2) = Some chain
          ∧ chainSubject_ chain = subject scan1
          ∧ chainVariable_ chain = c
          ∧ chainObject_ chain = d
          ∧ {| subject_ := s; chain_ := m; object_ := o; view_ := view |}
            ∈ chainInfosOf cache' chain.
Proof.
  intros Hq Hp Hf Hchain.
  assert (∃ triples,
            graphPatternsFiltered graphPatterns = [BasicGraphPattern triples]
            ∧ (triples = [a; b] ∨ triples = [b; a])) as (triples & Hf' & Ht).
  { destruct Hf; eauto. }
  exists {| simpleChainCache_ :=
              simpleChainCache_ (withChain view p1 p2 s m o cache);
            predicateInView_ :=
              rememberPredicates getSimplePredicate view triples
                (predicateInView_ cache) |}.
  split.
  - unfold analyzeView. rewrite Hq, Hp. simpl. rewrite Hf'.
    by apply (analyzeTriples_chain view triples a b).
  - intros scan1 scan2 c d Hp1 Hp2 Ho1 Hs2 Ho2 Hne1 Hne2 Hcd.
    unfold checkSimpleChain. rewrite Hp1, Hp2, Ho1, Hs2, Ho2.
    rewrite (bool_decide_eq_true_2 (TCVariable c = TCVariable c)) by done.
    rewrite (bool_decide_eq_true_2 (subject scan1 ≠ TCVariable d)) by done.
    rewrite (bool_decide_eq_true_2 (subject scan1 ≠ TCVariable c)) by done.
    rewrite (bool_decide_eq_true_2 (TCVariable c ≠ TCVariable d))
      by congruence.
    simpl. rewrite lookup_insert_eq.
    rewrite bool_decide_eq_true_2 by by eexists.
    eexists. split; [done|]. repeat split.
    unfold chainInfosOf. simpl. rewrite lookup_insert_eq. simpl.
    apply elem_of_app. right. by apply list_elem_of_singleton.
Qed.

(** What the cache keeps true of itself: no pair of predicates has an
    empty vector, the three variables of an entry are distinct, and the
    view of an entry under [(p1, p2)] is remembered for [p1] and for
    [p2]. *)
Record CacheOk (cache : Cache) : Prop := {
  ok_nonempty :
    ∀ preds infos, simpleChainCache_ cache !! preds = Some infos → infos ≠ [];
  ok_distinct :
    ∀ preds infos info,
      simpleChainCache_ cache !! preds = Some infos → info ∈ infos →
      chain_ info ≠ subject_ info ∧ object_ info ≠ chain_ info
      ∧ object_ info ≠ subject_ info;
  ok_remembered :
    ∀ p1 p2 infos info,
      simpleChainCache_ cache !! (p1, p2) = Some infos → info ∈ infos →
      (∃ views, predicateInView_ cache !! p1 = Some views
                ∧ view_ info ∈ views)
      ∧ (∃ views, predicateInView_ cache !! p2 = Some views
                  ∧ view_ info ∈ views);
}.

Definition emptyCache : Cache :=
  {| simpleChainCache_ := ∅; predicateInView_ := ∅ |}.

Lemma emptyCache_ok : CacheOk emptyCache.
Proof. constructor; simpl; intros *; by rewrite lookup_empty. Qed.

Lemma remembered_more (view : MaterializedView) triples m p v :
  (∃ views, m !! p = Some views ∧ v ∈ views) →
  ∃ views,
    rememberPredicates getSimplePredicate view triples m !! p = Some views
    ∧ v ∈ views.
Proof.
  intros (views & Hviews & Hv).
  destruct (rememberPredicates_lookup view triples m p views Hviews)
    as [more ->].
  eexists. split; [done|]. apply elem_of_app. by left.
Qed.

(** X24: Every call of [analyzeView] leaves a well-formed cache well formed,
    and [checkSimpleChain] on a well-formed cache never hands out an empty
    vector. *)
Theorem analyzeView_keeps_cache_ok (view : MaterializedView) cache found cache' :
  CacheOk cache →
  analyzeView originalQuery parseQuery getSimplePredicate getSimple view cache
  = inr (found, cache') →
  CacheOk cache'
  ∧ ∀ scan1 scan2 chain,
      checkSimpleChain cache' scan1 scan2 = Some chain →
      chainInfosOf cache' chain ≠ [].
Proof.
  intros Hok Hrun.
  assert (CacheOk cache') as Hok'.
  { apply analyzeView_cases in Hrun as [[_ ->]|[_ H]]; [done|].
    destruct H as (query & graphPatterns & triples & a & b & p1 & p2 & s & m
                   & o & _ & _ & _ & Ht & Hc & ->).
    destruct Hok as [Hne Hdist Hrem].
    destruct Hc as (Hpa & Hpb & _ & _ & _ & _ & Hms & Hom & Hos).
    assert (a ∈ triples ∧ b ∈ triples) as [Ha Hb].
    { destruct Ht as [-> | ->]; split;
        repeat first [apply list_elem_of_here | apply list_elem_of_further]. }
    constructor; simpl.
    - intros preds infos [[<- <-]|[_ H]]%lookup_insert_Some; [|eauto].
      by destruct (default [] _).
    - intros preds infos info [[<- <-]|[_ H]]%lookup_insert_Some Hin;
        [|eauto].
      apply elem_of_app in Hin as [Hin|Hin%list_elem_of_singleton];
        [|by subst info].
      destruct (simpleChainCache_ cache !! (p1, p2)) eqn:Hl; simpl in Hin;
        [eauto|by apply elem_of_nil in Hin].
    - intros q1 q2 infos info [[[= <- <-] <-]|[_ H]]%lookup_insert_Some Hin.
      + apply elem_of_app in Hin as [Hin|Hin%list_elem_of_singleton].
        * destruct (simpleChainCache_ cache !! (p1, p2)) eqn:Hl;
            simpl in Hin; [|by apply elem_of_nil in Hin].
          destruct (Hrem _ _ _ _ Hl Hin). split; by apply remembered_more.
        * subst info. simpl.
          split; [by apply (rememberPredicates_remembers _ _ _ a)
                 |by apply (rememberPredicates_remembers _ _ _ b)].
      + destruct (Hrem _ _ _ _ H Hin). split; by apply remembered_more. }
  split; [done|].
  intros scan1 scan2 chain Hcheck. unfold checkSimpleChain in Hcheck.
  destruct scan1 as [scan1|], scan2 as [scan2|]; try done.
  destruct (predicate scan1), (predicate scan2); try done.
  destruct (_ && _); [|done].
  destruct (object scan1), (object scan2); try done.
  case_bool_decide as Hsome; [|done]. injection Hcheck as <-.
  destruct Hsome as [infos Hinfos].
  unfold chainInfosOf. cbn [chainInfos_]. rewrite Hinfos.
  by eapply ok_nonempty.
Qed.

(** X25: The cache only grows, and a chain that [checkSimpleChain] has handed
    out stays good: after a later [analyzeView] the same scans get the
    same chain, and the vector it points to has its old entries in front
    of those of the views that were analysed since. *)
Theorem analyzeView_keeps_chains
    (view : MaterializedView) cache found cache' scan1 scan2 chain :
  analyzeView originalQuery parseQuery getSimplePredicate getSimple view cache
  = inr (found, cache') →
  checkSimpleChain cache scan1 scan2 = Some chain →
  checkSimpleChain cache' scan1 scan2 = Some chain
  ∧ ∃ more, chainInfosOf cache' chain = chainInfosOf cache chain ++ more.
Proof.
  intros Hrun Hcheck.
  assert (∀ preds infos,
            simpleChainCache_ cache !! preds = Some infos →
            ∃ more, simpleChainCache_ cache' !! preds = Some (infos ++ more))
    as Hgrow.
  { intros preds infos Hl.
    apply analyzeView_cases in Hrun as [[_ ->]|[_ H]].
    { exists []. by rewrite app_nil_r. }
    destruct H as (? & ? & ? & a & b & p1 & p2 & s & m & o
                   & _ & _ & _ & _ & _ & ->). simpl.
    destruct (decide ((p1, p2) = preds)) as [<-|Hne].
    - rewrite lookup_insert_eq, Hl. by eexists.
    - rewrite lookup_insert_ne by done. exists []. by rewrite app_nil_r. }
  unfold checkSimpleChain in *.
  destruct scan1 as [scan1|], scan2 as [scan2|]; try done.
  destruct (predicate scan1), (predicate scan2); try done.
  destruct (_ && _); [|done].
  destruct (object scan1), (object scan2); try done.
  case_bool_decide as Hsome; [|done]. injection Hcheck as <-.
  destruct Hsome as [infos Hinfos].
  destruct (Hgrow _ _ Hinfos) as [more Hmore].
  rewrite bool_decide_eq_true_2 by by eexists.
  split; [done|]. exists more. unfold chainInfosOf. cbn [chainInfos_].
  by rewrite Hinfos, Hmore.
Qed.

Lemma rememberPredicates_swap (view : MaterializedView) a b m :
  rememberPredicates getSimplePredicate view [a; b] m
  = rememberPredicates getSimplePredicate view [b; a] m.
Proof.
  simpl.
  destruct (getSimplePredicate a) as [p|], (getSimplePredicate b) as [q|];
    try done.
  destruct (decide (p = q)) as [->|Hne]; [done|].
  rewrite !lookup_insert_ne by done. by apply insert_insert_ne.
Qed.

(** X26: The order in which the query of a view lists its two triples makes
    no difference to [analyzeView] (as long as [getSimple] does not throw
    for a triple with a simple predicate). *)
Theorem analyzeTriples_order (view : MaterializedView) a b cache :
  (∀ triple, is_Some (getSimplePredicate triple) →
             ∃ simple, getSimple triple = inr simple) →
  analyzeTriples getSimplePredicate getSimple view [a; b] cache
  = analyzeTriples getSimplePredicate getSimple view [b; a] cache.
Proof.
  intros Htotal.
  destruct (analyzeSimpleChain_cases view a b cache)
    as [(p1 & p2 & s & m & o & Hab & _)|[Hnab Hab]].
  { rewrite (analyzeTriples_chain view [a; b] a b p1 p2 s m o) by auto.
    rewrite (analyzeTriples_chain view [b; a] a b p1 p2 s m o) by auto.
    by rewrite rememberPredicates_swap. }
  destruct (analyzeSimpleChain_cases view b a cache)
    as [(p1 & p2 & s & m & o & Hba & _)|[Hnba Hba]].
  { rewrite (analyzeTriples_chain view [a; b] b a p1 p2 s m o) by auto.
    rewrite (analyzeTriples_chain view [b; a] b a p1 p2 s m o) by auto.
    by rewrite rememberPredicates_swap. }
  unfold analyzeTriples. rewrite !bool_decide_eq_false_2 by done.
  rewrite ?Hab, ?Hba. cbn [negb]. rewrite ?Hab, ?Hba. cbn [negb].
  by rewrite !analyzeStar_total.
Qed.
End QueryPatternCacheFacts.


(** *** Two views over the chain [?s <p1> ?m . ?m <p2> ?o] *)

(** A view is its name.  The views [chain] and [chain2] have the same
    query, whose graph patterns are the chain and a [BIND] of a variable
    that the chain does not use; no other view has a query.  A predicate
    is simple if it is an IRI. *)
Definition chainA : SparqlTriple :=
  {| s_ := TCVariable (var "?s"); p_ := PIri "<p1>";
     o_ := TCVariable (var "?m") |}.

Definition chainB : SparqlTriple :=
  {| s_ := TCVariable (var "?m"); p_ := PIri "<p2>";
     o_ := TCVariable (var "?o") |}.

Definition queryOfView (view : string) : option string :=
  if bool_decide (view = "chain" ∨ view = "chain2")
  then Some "SELECT * { ?s <p1> ?m . ?m <p2> ?o . BIND(1 AS ?b) }"
  else None.

Definition parsed (query : string) : Fallible (list GraphPatternOperation) :=
  inr [BasicGraphPattern [chainA; chainB]; Bind "1" (var "?b")].

Definition iriOf (triple : SparqlTriple) : option string :=
  match p_ triple with
  | PIri iri => Some iri
  | _ => None
  end.

Definition simpleOf (triple : SparqlTriple)
  : Fallible (TripleComponent * TripleComponent * TripleComponent) :=
  match p_ triple with
  | PIri iri => inr (s_ triple, TCIri iri, o_ triple)
  | _ => inl (ContractCheck "getSimplePredicate().has_value()")
  end.

(** The cache that holds the chain of the view [chain]. *)
Definition cacheOfChain : @QueryPatternCache string :=
  withChain "chain" "<p1>" "<p2>" (var "?s") (var "?m") (var "?o") emptyCache.

(** The scans of a query [<a> <p1> ?x . ?x <p2> ?y]. *)
Definition userScan1 : IndexScan :=
  {| subject := TCIri "<a>"; predicate := TCIri "<p1>";
     object := TCVariable (var "?x") |}.

Definition userScan2 : IndexScan :=
  {| subject := TCVariable (var "?x"); predicate := TCIri "<p2>";
     object := TCVariable (var "?y") |}.

Definition userChain : UserQueryChain :=
  {| chainSubject_ := TCIri "<a>"; chainVariable_ := var "?x";
     chainObject_ := var "?y"; chainInfos_ := ("<p1>", "<p2>") |}.

Lemma chainA_chainB_simple :
  isSimpleChain iriOf chainA chainB "<p1>" "<p2>"
                (var "?s") (var "?m") (var "?o").
Proof. repeat split; discriminate. Qed.

Lemma analyzeView_accepts_chains_only_witness :
  ∃ cache',
    analyzeView queryOfView parsed iriOf simpleOf "chain" emptyCache
    = inr (true, cache')
    ∧ ∃ query graphPatterns a b p1 p2 s m o,
        queryOfView "chain" = Some query
        ∧ parsed query = inr graphPatterns
        ∧ (graphPatternsFiltered graphPatterns = [BasicGraphPattern [a; b]]
           ∨ graphPatternsFiltered graphPatterns = [BasicGraphPattern [b; a]])
        ∧ isSimpleChain iriOf a b p1 p2 s m o.
Proof.
  eexists. split; [vm_compute; reflexivity|].
  eapply (analyzeView_accepts_chains_only queryOfView parsed iriOf simpleOf
           "chain" emptyCache true _).
  vm_compute. reflexivity.
Defined.

Lemma analyzeView_then_checkSimpleChain_witness :
  ∃ cache',
    analyzeView queryOfView parsed iriOf simpleOf "chain" emptyCache
    = inr (true, cache')
    ∧ ∀ scan1 scan2 c d,
        predicate scan1 = TCIri "<p1>" → predicate scan2 = TCIri "<p2>" →
        object scan1 = TCVariable c → subject scan2 = TCVariable c →
        object scan2 = TCVariable d →
        subject scan1 ≠ TCVariable c → subject scan1 ≠ TCVariable d →
        c ≠ d →
        ∃ chain,
          checkSimpleChain cache' (Some scan1) (Some scan2) = Some chain
          ∧ chainSubject_ chain = subject scan1
          ∧ chainVariable_ chain = c
          ∧ chainObject_ chain = d
          ∧ {| subject_ := var "?s"; chain_ := var "?m"; object_ := var "?o";
               view_ := "chain" |}
            ∈ chainInfosOf cache' chain.
Proof.
  apply (analyzeView_then_checkSimpleChain queryOfView parsed iriOf simpleOf
           "chain" emptyCache
           "SELECT * { ?s <p1> ?m . ?m <p2> ?o . BIND(1 AS ?b) }"
           [BasicGraphPattern [chainA; chainB]; Bind "1" (var "?b")]
           chainA chainB "<p1>" "<p2>" (var "?s") (var "?m") (var "?o")).
  - reflexivity.
  - reflexivity.
  - left. vm_compute. reflexivity.
  - apply chainA_chainB_simple.
Defined.

Lemma analyzeView_keeps_cache_ok_witness :
  ∃ cache',
    analyzeView queryOfView parsed iriOf simpleOf "chain" emptyCache
    = inr (true, cache')
    ∧ CacheOk cache'
    ∧ ∀ scan1 scan2 chain,
        checkSimpleChain cache' scan1 scan2 = Some chain →
        chainInfosOf cache' chain ≠ [].
Proof.
  eexists. split; [vm_compute; reflexivity|].
  eapply (analyzeView_keeps_cache_ok queryOfView parsed iriOf simpleOf
           "chain" emptyCache true _).
  - apply emptyCache_ok.
  - vm_compute. reflexivity.
Defined.

Lemma analyzeView_keeps_chains_witness :
  ∃ cache',
    analyzeView queryOfView parsed iriOf simpleOf "chain2" cacheOfChain
    = inr (true, cache')
    ∧ checkSimpleChain cache' (Some userScan1) (Some userScan2)
      = Some userChain
    ∧ ∃ more,
        chainInfosOf cache' userChain
        = chainInfosOf cacheOfChain userChain ++ more.
Proof.
  eexists. split; [vm_compute; reflexivity|].
  eapply (analyzeView_keeps_chains queryOfView parsed iriOf simpleOf
           "chain2" cacheOfChain true _
           (Some userScan1) (Some userScan2) userChain).
  - vm_compute. reflexivity.
  - vm_compute. reflexivity.
Defined.

Lemma analyzeTriples_order_witness :
  analyzeTriples iriOf simpleOf "chain" [chainA; chainB] emptyCache
  = analyzeTriples iriOf simpleOf "chain" [chainB; chainA] emptyCache.
Proof.
  apply (analyzeTriples_order iriOf simpleOf "chain" chainA chainB emptyCache).
  intros [s [v|iri|path] o] [p Hp]; try discriminate.
  eexists. reflexivity.
Defined.

End MaterializedViews.

(** ** [TextIndexScanForEntity]

    The operator is among the sources only through its unit test,
    [src/test/engine/TextIndexScanForEntityTest.cpp]; its definitions follow
    the spec. *)
Module TextIndexScanForEntity.

(** Modelled from the spec: the part of the execution context that the
    constructor consults, the entities of the knowledge graph. *)
Record QueryExecutionContext := {
  knowledgeGraph : gset string;
}.

(** Modelled from the spec: the operator is given "a word (optionally with
    a [*] prefix wildcard), a text-record variable, and an entity binding
    (variable or fixed literal)". *)
Record TextIndexScanForEntity := {
  textRecordVar_ : SparqlVariable;
  varOrFixed_ : SparqlVariable + string;
  word_ : string;
}.

Definition hasFixedEntity (scan : TextIndexScanForEntity) : bool :=
  match varOrFixed_ scan with
  | inl _ => false
  | inr _ => true
  end.

Definition fixedEntity (scan : TextIndexScanForEntity) : option string :=
  match varOrFixed_ scan with
  | inl _ => None
  | inr entity => Some entity
  end.

Definition unknownEntity (entity : string) : string :=
  "The entity " +:+ entity
    +:+ " is not part of the underlying knowledge graph and can therefore "
    +:+ "not be used as the object of ql:contains-entity".

(** Modelled from the spec: the constructor of [TextIndexScanForEntity] is
    not among the sources.  "A fixed entity that is not present in the
    knowledge graph is a construction-time hard error"; the message is the
    one that the test [KnownEmpty] expects. *)
Definition construct (qec : QueryExecutionContext)
    (textRecordVar : SparqlVariable) (entity : SparqlVariable + string)
    (word : string) : Fallible TextIndexScanForEntity :=
  match entity with
  | inr fixed =>
      if bool_decide (fixed ∈ knowledgeGraph qec) then
        mret {| textRecordVar_ := textRecordVar; varOrFixed_ := entity;
                word_ := word |}
      else throw (RuntimeError (unknownEntity fixed))
  | inl _ =>
      mret {| textRecordVar_ := textRecordVar; varOrFixed_ := entity;
              word_ := word |}
  end.

(** Modelled from the spec: [getResultWidth] is not among the sources.  The
    rows are "(text-record, entity, score)"; "with a fixed entity the result
    width is 2 (score + text)". *)
Definition getResultWidth (scan : TextIndexScanForEntity) : nat :=
  2 + (if hasFixedEntity scan then 0 else 1).

(** C4: an operator constructed with a fixed entity has width 2; a fixed
    entity outside the knowledge graph makes the constructor throw a message
    that names the entity and [ql:contains-entity]; with an entity variable
    the constructor never throws. *)
Theorem construct_fixed_entity qec textRecordVar word :
  (∀ fixed scan,
     construct qec textRecordVar (inr fixed) word = inr scan →
     getResultWidth scan = 2%nat)
  ∧ (∀ fixed,
       fixed ∈ knowledgeGraph qec →
       ∃ scan, construct qec textRecordVar (inr fixed) word = inr scan)
  ∧ (∀ fixed,
       fixed ∉ knowledgeGraph qec →
       ∃ message,
         construct qec textRecordVar (inr fixed) word
         = inl (RuntimeError message)
         ∧ contains fixed message
         ∧ contains "ql:contains-entity" message)
  ∧ (∀ variable,
       ∃ scan, construct qec textRecordVar (inl variable) word = inr scan
               ∧ getResultWidth scan = 3%nat).
Proof.
  unfold construct. split; [|split; [|split]].
  - intros fixed scan. case_bool_decide; [|done]. by intros [= <-].
  - intros fixed Hin. rewrite bool_decide_eq_true_2 by done. eauto.
  - intros fixed Hout. rewrite bool_decide_eq_false_2 by done.
    eexists. split; [reflexivity|]. unfold unknownEntity. split.
    + by eexists "The entity ", _.
    + eexists ("The entity " +:+ fixed
               +:+ " is not part of the underlying knowledge graph and can "
               +:+ "therefore not be used as the object of "), "".
      rewrite !append_assoc. reflexivity.
  - intros variable. eauto.
Qed.

(** The knowledge graph and the operators of the test. *)
Definition qecWithTextIndex : QueryExecutionContext :=
  {| knowledgeGraph :=
       {[ "<a>"; "<b>"; "<p>"; "<x2>"; "<x>"; "<xb2>";
          Variables.quoted "he failed the test";
          Variables.quoted "testing can help";
          Variables.quoted "some other sentence";
          Variables.quoted "the test on friday was really hard" ]} |}.

Definition fixedScan (text entity word : string) : TextIndexScanForEntity :=
  {| textRecordVar_ := Variables.mkVariable text;
     varOrFixed_ := inr (Variables.quoted entity); word_ := word |}.

Example FixedEntityScan :
  construct qecWithTextIndex (Variables.mkVariable "?text3")
            (inr (Variables.quoted "some other sentence")) "sentence"
  = inr (fixedScan "?text3" "some other sentence" "sentence")
  ∧ getResultWidth (fixedScan "?text3" "some other sentence" "sentence") = 2%nat.
Proof. split; vm_compute; reflexivity. Qed.

Example KnownEmpty :
  construct qecWithTextIndex (Variables.mkVariable "?text")
            (inr (Variables.quoted "non existent entity")) "test*"
  = inl (RuntimeError (unknownEntity (Variables.quoted "non existent entity"))).
Proof. vm_compute. reflexivity. Qed.

Lemma construct_fixed_entity_witness :
  (∃ scan,
     construct qecWithTextIndex (Variables.mkVariable "?text3")
               (inr (Variables.quoted "some other sentence")) "sentence"
     = inr scan)
  ∧ (∃ message,
       construct qecWithTextIndex (Variables.mkVariable "?text3")
                 (inr (Variables.quoted "non existent entity")) "sentence"
       = inl (RuntimeError message)
       ∧ contains (Variables.quoted "non existent entity") message
       ∧ contains "ql:contains-entity" message).
Proof.
  pose proof (construct_fixed_entity qecWithTextIndex
                (Variables.mkVariable "?text3") "sentence")
    as (_ & Hknown & Hunknown & _).
  split.
  - apply Hknown. vm_compute. reflexivity.
  - apply Hunknown. vm_compute. discriminate.
Defined.

End TextIndexScanForEntity.

(** ** [DeltaTriplesCount]

    The type is among the sources only through its unit test,
    [src/test/DeltaTriplesCountTest.cpp]. *)
Module DeltaTriples.

(** Modelled from the spec: [index/DeltaTriples.h] is not among the sources.
    The count is "{inserted, deleted, total = inserted + deleted}" over
    signed integers. *)
Record DeltaTriplesCount := {
  triplesInserted_ : Z;
  triplesDeleted_ : Z;
}.

(** Modelled from the spec: "total = inserted + deleted". *)
Definition total (count : DeltaTriplesCount) : Z :=
  (triplesInserted_ count + triplesDeleted_ count)%Z.

(** Modelled from the spec: "a - b = {a.i - b.i, a.d - b.d}". *)
Definition minus (a b : DeltaTriplesCount) : DeltaTriplesCount :=
  {| triplesInserted_ := (triplesInserted_ a - triplesInserted_ b)%Z;
     triplesDeleted_ := (triplesDeleted_ a - triplesDeleted_ b)%Z |}.

(** Modelled from the spec: the "JSON projection
    {inserted: i, deleted: d, total: i + d}".  A JSON object whose members
    are integers is a finite map from member names to integers:
    [nlohmann::json] compares objects member by member, whatever the order
    they were written in. *)
Definition to_json (count : DeltaTriplesCount) : gmap string Z :=
  <["inserted" := triplesInserted_ count]>
    (<["deleted" := triplesDeleted_ count]>
       (<["total" := total count]> ∅)).

(** C6: the JSON projection has the three members [inserted], [deleted]
    and [total = inserted + deleted] and no other, and subtraction is
    component-wise. *)
Theorem to_json_and_minus :
  (∀ x,
     to_json x !! "inserted" = Some (triplesInserted_ x)
     ∧ to_json x !! "deleted" = Some (triplesDeleted_ x)
     ∧ to_json x !! "total" = Some (triplesInserted_ x + triplesDeleted_ x)%Z
     ∧ dom (to_json x) = {[ "inserted"; "deleted"; "total" ]})
  ∧ (∀ a b,
       triplesInserted_ (minus a b)
       = (triplesInserted_ a - triplesInserted_ b)%Z
       ∧ triplesDeleted_ (minus a b)
         = (triplesDeleted_ a - triplesDeleted_ b)%Z
       ∧ total (minus a b) = (total a - total b)%Z)
  ∧ minus {| triplesInserted_ := 10; triplesDeleted_ := 5 |}
          {| triplesInserted_ := 3; triplesDeleted_ := 2 |}
    = {| triplesInserted_ := 7; triplesDeleted_ := 3 |}
  ∧ minus {| triplesInserted_ := 3; triplesDeleted_ := 2 |}
          {| triplesInserted_ := 10; triplesDeleted_ := 5 |}
    = {| triplesInserted_ := -7; triplesDeleted_ := -3 |}.
Proof.
  split; [|split; [|split]].
  - intros x. unfold to_json. split; [|split; [|split]].
    + reflexivity.
    + reflexivity.
    + reflexivity.
    + rewrite !dom_insert_L, dom_empty_L. set_solver.
  - intros a b. unfold minus, total. simpl. repeat split. lia.
  - reflexivity.
  - reflexivity.
Qed.

(** The test [toJson]. *)
Example toJson :
  to_json {| triplesInserted_ := 5; triplesDeleted_ := 3 |}
  = <["inserted" := 5%Z]> (<["deleted" := 3%Z]> (<["total" := 8%Z]> ∅)).
Proof. reflexivity. Qed.

End DeltaTriples.
